(** * Gecode CpltSet support: cardinality diagrams, value cache, variable order

    A shallow embedding of [gecode/cpltset/support.hpp]: the replayable value
    cache [ValCache], the bound check [testConsistency], the variable-order
    heuristic [variableorder] and the layered cardinality builders
    [extcardeq], [extcardlqgq] and [extcardcheck], followed by the properties
    established about them. *)

From Stdlib Require Import ZArith List Lia Bool String.
From stdpp Require Import base list.
Import ListNotations.

Local Open Scope Z_scope.

(** ** Machine integers

    [int] and [unsigned int] are 32 bits wide.  Values are kept in [Z]; the
    two conversions below are written wherever the source converts between
    the signed and the unsigned type. *)

Definition INT_MAX : Z := 2 ^ 31 - 1.

(** Conversion to [unsigned int]: reduction modulo 2^32. *)
Definition to_unsigned (z : Z) : Z := z mod 2 ^ 32.

(** Conversion to [int]: the two's complement reading of the low 32 bits. *)
Definition to_int (z : Z) : Z := (z + 2 ^ 31) mod 2 ^ 32 - 2 ^ 31.

(** [zrange lo hi] lists the values a counting loop
    [for (i = lo; i < hi; i++)] goes through. *)
Definition zrange (lo hi : Z) : list Z :=
  map (fun k => lo + Z.of_nat k) (seq 0 (Z.to_nat (hi - lo))).

(** ** Outcomes

    An access outside an array and exhausting the iteration budget of a
    loop are kept apart from normal return. *)

Inductive fault : Type :=
| OutOfBounds
| OutOfFuel.

Inductive outcome (A : Type) : Type :=
| Done (a : A)
| Fault (f : fault).

Arguments Done {A} a.
Arguments Fault {A} f.

(** ** Decision diagrams

    Diagram handles are immutable boolean functions over the manager's
    variable slots.  The manager itself is not part of the sources; a handle
    is represented by the term that built it and is read through [eval]. *)

Inductive bdd : Type :=
| bdd_true
| bdd_false
| bddpos (slot : Z)
| negbddpos (slot : Z)
| ite (f g h : bdd)
| bdd_and (f g : bdd).

(** An assignment gives every variable slot a truth value. *)
Definition assignment : Type := Z -> bool.

Fixpoint eval (env : assignment) (b : bdd) : bool :=
  match b with
  | bdd_true => true
  | bdd_false => false
  | bddpos v => env v
  | negbddpos v => negb (env v)
  | ite f g h => if eval env f then eval env g else eval env h
  | bdd_and f g => eval env f && eval env g
  end.

(** Two handles denote the same boolean function. *)
Definition bdd_equiv (a b : bdd) : Prop :=
  forall env, eval env a = eval env b.

(** ** ValCache *)

Module ValCache.

Record t : Type := mk {
  r : list Z;  (* array for ranges *)
  c : Z;       (* current range *)
  n : Z;       (* number of ranges in cache *)
  s : Z        (* number of elements in cache *)
}.

Definition set_c (k : Z) (vc : t) : t :=
  {| r := r vc; c := k; n := n vc; s := s vc |}.

(** [d[j] = v] on the growing scratch array of [init]. *)
Definition dyn_write (d : list Z) (j : nat) (v : Z) : list Z :=
  if (j <? length d)%nat then <[j := v]> d
  else d ++ replicate (j - length d)%nat 0 ++ [v].

(** [while (i()) { d[j] = i.val(); ++j; ++i; s++; }] where the source
    iterator is the list of values it still has to yield. *)
Fixpoint drain (i : list Z) (d : list Z) (j : nat) (s : Z)
  : list Z * nat * Z :=
  match i with
  | [] => (d, j, s)
  | v :: i' => drain i' (dyn_write d j v) (S j) (s + 1)
  end.

(** [for (int j = n; j--; ) r[j] = d[j];] *)
Fixpoint copy_down (j : nat) (d r : list Z) : list Z :=
  match j with
  | O => r
  | S j' => copy_down j' d (<[j' := nth j' d 0]> r)
  end.

Definition init (i : list Z) : t :=
  let '(d, j, s) := drain i [] 0%nat 0 in
  let n := Z.of_nat j in
  {| r := copy_down j d (replicate j 0); c := 0; n := n; s := s |}.

(** [operator ()]: test whether the cursor is at a value. *)
Definition valid (vc : t) : bool := (-1 <? c vc) && (c vc <? n vc).

(** [operator ++] *)
Definition advance (vc : t) : t := set_c (c vc + 1) vc.

(** [operator --] *)
Definition retreat (vc : t) : t := set_c (c vc - 1) vc.

Definition reset (vc : t) : t := set_c 0 vc.

Definition last (vc : t) : t := set_c (n vc - 1) vc.

Definition finish (vc : t) : t := set_c (-1) vc.

(** [r[c]]; a cursor outside the array has no value to read. *)
Definition val (vc : t) : outcome Z :=
  if c vc <? 0 then Fault OutOfBounds
  else match r vc !! Z.to_nat (c vc) with
       | Some v => Done v
       | None => Fault OutOfBounds
       end.

Definition min (vc : t) : outcome Z := val vc.

Definition max (vc : t) : outcome Z := val vc.

Definition width (vc : t) : Z := 1.

Definition size (vc : t) : Z := to_unsigned (s vc).

(** [index(unsigned int i)]: start iteration from the ith value. *)
Definition seek (i : Z) (vc : t) : t := set_c (to_int i) vc.

(** [index(void)]: the index of the current value. *)
Definition index (vc : t) : Z := to_unsigned (c vc).

End ValCache.

(** ** Set views

    The view classes are template parameters of the builders.  What the
    builders use of a view is collected in the interface below. *)

(** Modelled from the spec: the set-variable views ([offset], [tableWidth],
    [initialLubMin], [initialLubMax], the values of [Set::LubRanges] in
    increasing order, and the membership literals [element] and
    [elementNeg]) are external to the sources.  [element v i] tests whether
    the value [initialLubMin v + i] is in the set; [elementNeg v i] is its
    negation. *)
Class SetView (V : Type) : Type := {
  offset : V -> Z;
  tableWidth : V -> Z;
  initialLubMin : V -> Z;
  initialLubMax : V -> Z;
  lubValues : V -> list Z;
  element : V -> Z -> bdd;
  elementNeg : V -> Z -> bdd;
  elementNeg_eval : forall v i env,
    eval env (elementNeg v i) = negb (eval env (element v i))
}.

(** Modelled from the spec: a view over a block of [tableWidth] consecutive
    manager slots starting at [offset]; slot [offset + i] holds the
    membership of value [initialLubMin + i]. *)
Record TableView : Type := mkTableView {
  tv_offset : Z;
  tv_width : Z;
  tv_min : Z;
  tv_max : Z;
  tv_lub : list Z
}.

#[export] Instance TableView_SetView : SetView TableView := {|
  offset := tv_offset;
  tableWidth := tv_width;
  initialLubMin := tv_min;
  initialLubMax := tv_max;
  lubValues := tv_lub;
  element v i := bddpos (tv_offset v + i);
  elementNeg v i := negbddpos (tv_offset v + i);
  elementNeg_eval := fun _ _ _ => eq_refl
|}.

(** Modelled from the spec: [Iter::Ranges::Inter] followed by
    [Iter::Ranges::ToValues] yields, in increasing order, the values common
    to both upper bounds. *)
Definition common_values {V0 V1 : Type} `{SetView V0} `{SetView V1}
    (x : V0) (y : V1) : list Z :=
  List.filter (fun v => existsb (Z.eqb v) (lubValues y)) (lubValues x).

(** ** The builder monad

    The builders receive the cache by reference and move its cursor.  A
    computation takes the cache and returns a value with the cache it leaves
    behind, or a fault. *)

Definition M (A : Type) : Type := ValCache.t -> outcome (A * ValCache.t).

Definition ret {A : Type} (a : A) : M A := fun st => Done (a, st).

Definition bind {A B : Type} (m : M A) (k : A -> M B) : M B :=
  fun st =>
    match m st with
    | Done (a, st') => k a st'
    | Fault f => Fault f
    end.

Definition raise {A : Type} (f : fault) : M A := fun _ => Fault f.

Definition lift {A : Type} (o : outcome A) : M A :=
  fun st =>
    match o with
    | Done a => Done (a, st)
    | Fault f => Fault f
    end.

(** A cursor movement. *)
Definition move (f : ValCache.t -> ValCache.t) : M unit :=
  fun st => Done (tt, f st).

(** A read of the cache that cannot fail. *)
Definition look {A : Type} (f : ValCache.t -> A) : M A :=
  fun st => Done (f st, st).

(** A read of the cache at the cursor. *)
Definition read {A : Type} (f : ValCache.t -> outcome A) : M A :=
  fun st => lift (f st) st.

Declare Scope builder_scope.
Delimit Scope builder_scope with builder.
Notation "'let*' x := m 'in' k" := (bind m (fun x => k))
  (at level 10, x name, m at level 100, k at level 200, only parsing)
  : builder_scope.
Notation "m ;; k" := (bind m (fun _ => k))
  (at level 100, k at level 200, right associativity, only parsing)
  : builder_scope.
Local Open Scope builder_scope.

(** ** Layer arrays

    [re.alloc<bdd>(n)] gives [n] cells and runs the default constructor of
    the handle class for each of them.  A cell is [None] until the builder
    assigns it; read before that, it gives the default-constructed
    handle. *)

(** Modelled from the spec: the handle class is external to the sources;
    its default constructor gives the handle of node 0, the constant
    false. *)
Definition default_handle : bdd := bdd_false.

Abbreviation layers := (list (option bdd)).

Definition alloc (n : Z) : layers := replicate (Z.to_nat n) None.

(** [layer[i]] as a value. *)
Definition layer_get (layer : layers) (i : Z) : outcome bdd :=
  if i <? 0 then Fault OutOfBounds
  else match layer !! Z.to_nat i with
       | Some (Some b) => Done b
       | Some None => Done default_handle
       | None => Fault OutOfBounds
       end.

(** [layer[i] = b]. *)
Definition layer_set (layer : layers) (i : Z) (b : bdd) : outcome layers :=
  if (0 <=? i) && (i <? Z.of_nat (length layer))
  then Done (<[Z.to_nat i := Some b]> layer)
  else Fault OutOfBounds.

(** ** The cardinality builders *)

Section Builders.

Context {View0 View1 : Type} `{SetView View0} `{SetView View1}.
Variables (x : View0) (y : View1).

(** The literal of the two-variable form: value [k] is in [x] and in [y]. *)
Definition both_contain (env : assignment) (k : Z) : bool :=
  eval env (element x (k - initialLubMin x))
  && eval env (element y (k - initialLubMin y)).

(** *** extcardeq *)

(** [for (unsigned int i = 1; i <= c; i++)]: the nodes of the lowest layer.
    The cursor stays where [last] put it. *)
Fixpoint eq_lowest (xmin ymin : Z) (idx : list Z) (layer : layers)
  : M layers :=
  match idx with
  | [] => ret layer
  | i :: idx' =>
      let* k := read ValCache.min in
      let* l1 := lift (layer_set layer i (element x (k - xmin))) in
      let* a := lift (layer_get l1 i) in
      let* l2 := lift (layer_set l1 i (bdd_and a (element y (k - ymin)))) in
      eq_lowest xmin ymin idx' l2
  end.

(** [for (int i = 1; i < n; i++)]: connect the nodes of the lowest layer. *)
Fixpoint eq_connect (idx : list Z) (layer : layers) : M layers :=
  match idx with
  | [] => ret layer
  | i :: idx' =>
      let* a := lift (layer_get layer i) in
      let* b := lift (layer_get layer (i - 1)) in
      let* l1 := lift (layer_set layer i (ite a b bdd_false)) in
      eq_connect idx' l1
  end.

(** The inner loop of the remaining layers; it leaves when the cursor has
    run off the cache. *)
Fixpoint eq_column (xmin ymin : Z) (idx : list Z) (layer : layers)
  : M layers :=
  match idx with
  | [] => ret layer
  | i :: idx' =>
      let* col := read ValCache.min in
      let* t := (if i =? 0 then ret bdd_false else lift (layer_get layer (i - 1))) in
      let* old := lift (layer_get layer i) in
      let both := ite (element y (col - ymin)) t old in
      let* l1 := lift (layer_set layer i (ite (element x (col - xmin)) both old)) in
      move ValCache.retreat ;;
      let* ok := look ValCache.valid in
      if negb ok then ret l1 else eq_column xmin ymin idx' l1
  end.

(** [for (; inter(); --inter)] around [eq_column], with the position saved
    before the column and restored after it. *)
Fixpoint eq_remaining (fuel : nat) (xmin ymin n : Z) (layer : layers)
  : M layers :=
  let* ok := look ValCache.valid in
  if negb ok then ret layer else
  match fuel with
  | O => raise OutOfFuel
  | S fuel' =>
      let* pos := look ValCache.index in
      let* l1 := eq_column xmin ymin (zrange 0 n) layer in
      let* ok' := look ValCache.valid in
      if negb ok' then ret l1 else
      (move (ValCache.seek pos) ;;
       move ValCache.retreat ;;
       eq_remaining fuel' xmin ymin n l1)
  end.

(** The number of positions a backward sweep over the cache can visit. *)
Definition sweep_budget : M nat :=
  look (fun st => Z.to_nat (ValCache.n st)).

Definition extcardeq (c n r : Z) : M bdd :=
  let xmin := initialLubMin x in
  let ymin := initialLubMin y in
  let layer := alloc n in
  let* l0 := lift (layer_set layer 0 bdd_true) in
  move ValCache.last ;;
  let* l1 := eq_lowest xmin ymin (zrange 1 (c + 1)) l0 in
  let* l2 := eq_connect (zrange 1 n) l1 in
  move ValCache.last ;;
  let* fuel := sweep_budget in
  let* l3 := eq_remaining fuel xmin ymin n l2 in
  lift (layer_get l3 (n - 1)).

(** *** extcardlqgq *)

(** [for (int i = n - cl; i < n; i++, --inter)]: the nodes of the lowest
    layer. *)
Fixpoint lqgq_lowest (xmin ymin : Z) (idx : list Z) (layer : layers)
  : M layers :=
  match idx with
  | [] => ret layer
  | i :: idx' =>
      let* k := read ValCache.min in
      let* below := lift (layer_get layer (i - 1)) in
      let both := ite (element y (k - ymin)) below bdd_false in
      let* l1 := lift (layer_set layer i (ite (element x (k - xmin)) both bdd_false)) in
      move ValCache.retreat ;;
      lqgq_lowest xmin ymin idx' l1
  end.

(** The inner loop of the layers up to the connection layer; it finishes
    the cache when the cursor falls below position [r - cr]. *)
Fixpoint lqgq_lower_column (xmin ymin cr r : Z) (idx : list Z)
    (layer : layers) : M layers :=
  match idx with
  | [] => ret layer
  | i :: idx' =>
      let* col := read ValCache.min in
      let* t := lift (layer_get layer (i - 1)) in
      let* old := lift (layer_get layer i) in
      let both := ite (element y (col - ymin)) t old in
      let* l1 := lift (layer_set layer i (ite (element x (col - xmin)) both old)) in
      move ValCache.retreat ;;
      let* pos := look ValCache.index in
      if to_int pos + 1 <? r + 1 - to_int cr
      then (move ValCache.finish ;; ret l1)
      else lqgq_lower_column xmin ymin cr r idx' l1
  end.

Fixpoint lqgq_lower (fuel : nat) (xmin ymin cl cr n r : Z) (layer : layers)
  : M layers :=
  let* ok := look ValCache.valid in
  if negb ok then ret layer else
  match fuel with
  | O => raise OutOfFuel
  | S fuel' =>
      let* pos := look ValCache.index in
      let* l1 := lqgq_lower_column xmin ymin cr r (zrange (n - cl) n) layer in
      let* ok' := look ValCache.valid in
      if negb ok' then ret l1 else
      (move (ValCache.seek pos) ;;
       move ValCache.retreat ;;
       lqgq_lower fuel' xmin ymin cl cr n r l1)
  end.

(** The loop shared by the single-layer case and the connection layer:
    [t] is the layer below (false at [i == 0]); [f] starts as true and
    becomes [layer[i]] once [connect i] holds. *)
Fixpoint lqgq_link (xmin ymin : Z) (connect : Z -> bool) (f : bdd)
    (idx : list Z) (layer : layers) : M layers :=
  match idx with
  | [] => ret layer
  | i :: idx' =>
      let* col := read ValCache.min in
      let* t := (if i =? 0 then ret bdd_false else lift (layer_get layer (i - 1))) in
      let* f' := (if negb (i =? 0) && connect i
                  then lift (layer_get layer i) else ret f) in
      let both := ite (element y (col - ymin)) t f' in
      let* l1 := lift (layer_set layer i (ite (element x (col - xmin)) both f')) in
      move ValCache.retreat ;;
      let* ok := look ValCache.valid in
      if negb ok then ret l1 else lqgq_link xmin ymin connect f' idx' l1
  end.

(** [if ((int) cr == r) { ... }]: only one single layer. *)
Definition lqgq_single (xmin ymin cl n : Z) (layer : layers) : M layers :=
  move ValCache.last ;;
  read ValCache.min ;;
  lqgq_link xmin ymin (fun i => i >? n - to_int cl - 1) bdd_true
            (zrange 0 n) layer.

(** The connection layer between [cl] and [cr]. *)
Definition lqgq_connection (xmin ymin cl n : Z) (layer : layers)
  : M layers :=
  move ValCache.last ;;
  lqgq_link xmin ymin (fun i => (i >? n - to_int cl - 1) && (cl >? 0))
            bdd_true (zrange 0 n) layer.

(** The inner loop of the remaining layers for [cr]. *)
Fixpoint lqgq_upper_column (xmin ymin : Z) (idx : list Z) (layer : layers)
  : M layers :=
  match idx with
  | [] => ret layer
  | i :: idx' =>
      let* col := read ValCache.min in
      let* t := (if i =? 0 then ret bdd_false else lift (layer_get layer (i - 1))) in
      let* old := lift (layer_get layer i) in
      let both := bdd_and (element y (col - ymin)) (element x (col - xmin)) in
      let* l1 := lift (layer_set layer i (ite both t old)) in
      move ValCache.retreat ;;
      let* ok := look ValCache.valid in
      if negb ok then ret l1 else lqgq_upper_column xmin ymin idx' l1
  end.

Fixpoint lqgq_upper_loop (fuel : nat) (xmin ymin n : Z) (layer : layers)
  : M layers :=
  let* ok := look ValCache.valid in
  if negb ok then ret layer else
  match fuel with
  | O => raise OutOfFuel
  | S fuel' =>
      let* pos := look ValCache.index in
      let* l1 := lqgq_upper_column xmin ymin (zrange 0 n) layer in
      let* ok' := look ValCache.valid in
      if negb ok' then ret l1 else
      (move (ValCache.seek pos) ;;
       move ValCache.retreat ;;
       lqgq_upper_loop fuel' xmin ymin n l1)
  end.

(** The remaining layers for [cr]. *)
Definition lqgq_upper (xmin ymin n : Z) (layer : layers) : M layers :=
  move ValCache.last ;;
  move ValCache.retreat ;;
  let* fuel := sweep_budget in
  lqgq_upper_loop fuel xmin ymin n layer.

(** The part of [extcardlqgq] before the case distinction on [cr]:
    the top node, the lowest layer and the layers up to the connection
    layer. *)
Definition lqgq_prefix (cl cr n r : Z) : M layers :=
  let layer := alloc n in
  let* l0 := lift (layer_set layer (n - cl - 1) bdd_true) in
  move ValCache.last ;;
  read ValCache.min ;;
  let xmin := initialLubMin x in
  let ymin := initialLubMin y in
  let* l1 := lqgq_lowest xmin ymin (zrange (n - cl) n) l0 in
  move ValCache.last ;;
  move ValCache.retreat ;;
  let* fuel := sweep_budget in
  lqgq_lower fuel xmin ymin cl cr n r l1.

(** The three ways [extcardlqgq] finishes. *)
Inductive lqgq_case : Type :=
| AllAllowed        (* (int) cr == r + 1: return layer[n - 1] as it is *)
| SingleLayer       (* (int) cr == r: only one single layer *)
| ConnectionAndUpper. (* the connection layer, then the layers for cr *)

Definition lqgq_dispatch (cr r : Z) : lqgq_case :=
  if to_int cr =? r + 1 then AllAllowed
  else if to_int cr =? r then SingleLayer
  else ConnectionAndUpper.

Definition lqgq_finish (k : lqgq_case) (cl n : Z) (layer : layers)
  : M bdd :=
  let xmin := initialLubMin x in
  let ymin := initialLubMin y in
  match k with
  | AllAllowed => lift (layer_get layer (n - 1))
  | SingleLayer =>
      let* l1 := lqgq_single xmin ymin cl n layer in
      lift (layer_get l1 (n - 1))
  | ConnectionAndUpper =>
      let* l1 := lqgq_connection xmin ymin cl n layer in
      let* l2 := lqgq_upper xmin ymin n l1 in
      lift (layer_get l2 (n - 1))
  end.

Definition extcardlqgq (cl cr n r : Z) : M bdd :=
  let* layer := lqgq_prefix cl cr n r in
  lqgq_finish (lqgq_dispatch cr r) cl n layer.

(** The construction with the single-layer case left out: after the
    common part always the connection layer and the layers for [cr]. *)
Definition extcardlqgq_two_phase (cl cr n r : Z) : M bdd :=
  let* layer := lqgq_prefix cl cr n r in
  lqgq_finish ConnectionAndUpper cl n layer.

(** *** extcardcheck *)

(** [for (; inter(); ++inter)] conjoining one literal pair per value. *)
Fixpoint conjoin (fuel : nat) (lit : forall V : Type, SetView V -> V -> Z -> bdd)
    (acc : bdd) : M bdd :=
  let* ok := look ValCache.valid in
  if negb ok then ret acc else
  match fuel with
  | O => raise OutOfFuel
  | S fuel' =>
      let* v := read ValCache.min in
      let acc' := bdd_and acc
                    (bdd_and (lit View0 _ x (v - initialLubMin x))
                             (lit View1 _ y (v - initialLubMin y))) in
      move ValCache.advance ;;
      conjoin fuel' lit acc'
  end.

(** Run a builder on a cache of its own and keep the diagram. *)
Definition run (m : M bdd) (inter : ValCache.t) : outcome bdd :=
  match m inter with
  | Done (b, _) => Done b
  | Fault f => Fault f
  end.

Definition extcardcheck (cl cr : Z) : outcome bdd :=
  let inter := ValCache.init (common_values x y) in
  let isize := ValCache.size inter in
  let cr := if cr >? isize then isize else cr in
  let r := to_int (to_unsigned (isize - 1)) in
  let n := to_int (to_unsigned (cr + 1)) in
  if (cl >? isize) || (cl >? cr) then Done bdd_false
  else if cr =? 0 then
    run (let* fuel := sweep_budget in
         conjoin fuel (@elementNeg) bdd_true) inter
  else if cl =? cr then
    if cr =? isize then
      run (let* fuel := sweep_budget in
           conjoin fuel (@element) bdd_true) inter
    else run (extcardeq cr n r) inter
  else if (cr =? isize) && (cl =? 0) then Done bdd_true
  else run (extcardlqgq cl cr n r) inter.

End Builders.

(** ** testConsistency *)

(** Modelled from the spec: [IntSet] is external to the sources.  A range
    specification is a list of disjoint increasing ranges; [size] counts
    them, [min] is the lower end of the first and [max] the upper end of
    the last.  On the empty specification [min] and [max] are not consulted
    by [testConsistency]. *)
Definition IntSet : Type := list (Z * Z).

Definition IntSet_size (d : IntSet) : Z := Z.of_nat (length d).

Definition IntSet_min (d : IntSet) : Z :=
  match d with
  | [] => 0
  | (lo, _) :: _ => lo
  end.

Definition IntSet_max (d : IntSet) : Z :=
  match List.last d (0, 0) with
  | (_, hi) => hi
  end.

(** [Set::Limits::min], [Set::Limits::max] and [Set::Limits::card] are
    declared outside the sources; the check takes them as a parameter. *)
Record SetLimits : Type := mkSetLimits {
  limits_min : Z;
  limits_max : Z;
  limits_card : Z
}.

(** The values of the constants in the Gecode distribution, used where a
    concrete instance is evaluated. *)
Definition gecode_limits : SetLimits :=
  {| limits_min := - 1073741822;
     limits_max := 1073741822;
     limits_card := 2147483645 |}.

Inductive exception : Type :=
| VariableFailedDomain (location : string)
| VariableOutOfRangeDomain (location : string)
| VariableOutOfRangeCardinality (location : string).

(** A check either falls through or throws. *)
Inductive checked : Type :=
| Pass
| Throw (e : exception).

Definition and_then (a b : checked) : checked :=
  match a with
  | Pass => b
  | Throw e => Throw e
  end.

Section TestConsistency.

Variable lim : SetLimits.

(** [if (glbNonZero) { ... }] *)
Definition check_glb (glb lub : IntSet) (location : string) : checked :=
  let glbNonZero := IntSet_size glb >? 0 in
  let lubNonZero := IntSet_size lub >? 0 in
  if glbNonZero then
    let glbMin := IntSet_min glb in
    let glbMax := IntSet_max glb in
    if negb lubNonZero || (glbMin >? glbMax)
    then Throw (VariableFailedDomain location)
    else if (glbMin <? limits_min lim) || (glbMax >? limits_max lim)
    then Throw (VariableOutOfRangeDomain location)
    else
      let lubMin := IntSet_min lub in
      let lubMax := IntSet_max lub in
      if ((glbMin <? lubMin) || (glbMin >? lubMax))
         || ((glbMax >? lubMax) || (glbMax <? lubMin))
      then Throw (VariableFailedDomain location)
      else Pass
  else Pass.

(** [if (lubNonZero) { ... }] *)
Definition check_lub (lub : IntSet) (location : string) : checked :=
  let lubNonZero := IntSet_size lub >? 0 in
  if lubNonZero then
    let lubMin := IntSet_min lub in
    let lubMax := IntSet_max lub in
    if (lubMin <? limits_min lim) || (lubMax >? limits_max lim)
    then Throw (VariableOutOfRangeDomain location)
    else if lubMin >? lubMax
    then Throw (VariableFailedDomain location)
    else Pass
  else Pass.

(** The three tests on the cardinality bounds. *)
Definition check_card (cardMin cardMax : Z) (location : string) : checked :=
  if cardMax <? 0
  then Throw (VariableFailedDomain location)
  else if to_unsigned cardMax >? limits_card lim
  then Throw (VariableOutOfRangeCardinality location)
  else if (cardMin >? cardMax) || (cardMin <? 0)
  then Throw (VariableFailedDomain location)
  else Pass.

Definition testConsistency (glb lub : IntSet) (cardMin cardMax : Z)
    (location : string) : checked :=
  and_then (check_glb glb lub location)
    (and_then (check_lub lub location)
       (check_card cardMin cardMax location)).

End TestConsistency.

(** ** variableorder *)

(** [hls_order[i] = v] on the order array. *)
Definition order_write (a : list Z) (i v : Z) : outcome (list Z) :=
  if (0 <=? i) && (i <? Z.of_nat (length a))
  then Done (<[Z.to_nat i := v]> a)
  else Fault OutOfBounds.

Section VariableOrder.

Context {View : Type} `{SetView View}.

(** The first loop: the minimum offset and the maximum width. *)
Fixpoint offset_width_bounds (x : list View) (min_offset max_width : Z)
  : Z * Z :=
  match x with
  | [] => (min_offset, max_width)
  | xi :: x' =>
      let min_offset' :=
        if offset xi <? min_offset then offset xi else min_offset in
      let max_width' :=
        if tableWidth xi >? max_width then tableWidth xi else max_width in
      offset_width_bounds x' min_offset' max_width'
  end.

(** [for (unsigned int i = ...; i < bound; i++, c++) hls_order[i] = i;] *)
Fixpoint order_identity (idx : list Z) (hls : list Z) (c : Z)
  : outcome (list Z * Z) :=
  match idx with
  | [] => Done (hls, c)
  | i :: idx' =>
      match order_write hls i (to_int i) with
      | Done hls' => order_identity idx' hls' (c + 1)
      | Fault f => Fault f
      end
  end.

(** The inner loop over the views for one column [f]. *)
Fixpoint order_column (f : Z) (x : list View) (hls : list Z) (c : Z)
  : outcome (list Z * Z) :=
  match x with
  | [] => Done (hls, c)
  | xi :: x' =>
      let xo := to_int (offset xi) in
      let xw := to_int (tableWidth xi) in
      let cur := to_int (to_unsigned xo + f) in
      if cur <? xo + xw then
        match order_write hls c cur with
        | Done hls' => order_column f x' hls' (c + 1)
        | Fault e => Fault e
        end
      else order_column f x' hls c
  end.

(** [for (unsigned int f = 0; f < max_width; f++)] *)
Fixpoint order_scope (cols : list Z) (x : list View) (hls : list Z) (c : Z)
  : outcome (list Z * Z) :=
  match cols with
  | [] => Done (hls, c)
  | f :: cols' =>
      match order_column f x hls c with
      | Done (hls', c') => order_scope cols' x hls' c'
      | Fault e => Fault e
      end
  end.

(** The order handed to [manager.setorder]; [var_in_tab] is
    [manager.allocated()]. *)
Definition variableorder (var_in_tab : Z) (x : list View)
  : outcome (list Z) :=
  match x with
  | [] => Fault OutOfBounds
  | x0 :: _ =>
      let '(min_offset, max_width) :=
        offset_width_bounds x (offset x0) (tableWidth x0) in
      let hls_order := replicate (Z.to_nat var_in_tab) 0 in
      match order_identity (zrange 0 min_offset) hls_order 0 with
      | Fault e => Fault e
      | Done (hls1, c1) =>
          match order_scope (zrange 0 max_width) x hls1 c1 with
          | Fault e => Fault e
          | Done (hls2, c2) =>
              match order_identity (zrange (to_unsigned c2) var_in_tab)
                      hls2 c2 with
              | Fault e => Fault e
              | Done (hls3, _) => Done hls3
              end
          end
      end
  end.

End VariableOrder.

(** ** Traversals of a cache

    The two ways a client walks a cache: forward from [reset] and backward
    from [last], reading [val] and moving while the validity test holds. *)

Fixpoint forward (fuel : nat) (vc : ValCache.t) : outcome (list Z) :=
  if ValCache.valid vc then
    match fuel with
    | O => Fault OutOfFuel
    | S fuel' =>
        match ValCache.val vc with
        | Fault f => Fault f
        | Done v =>
            match forward fuel' (ValCache.advance vc) with
            | Done vs => Done (v :: vs)
            | Fault f => Fault f
            end
        end
    end
  else Done [].

Definition traverse_forward (vc : ValCache.t) : outcome (list Z) :=
  forward (Z.to_nat (ValCache.n vc)) (ValCache.reset vc).

Fixpoint backward (fuel : nat) (vc : ValCache.t) : outcome (list Z) :=
  if ValCache.valid vc then
    match fuel with
    | O => Fault OutOfFuel
    | S fuel' =>
        match ValCache.val vc with
        | Fault f => Fault f
        | Done v =>
            match backward fuel' (ValCache.retreat vc) with
            | Done vs => Done (v :: vs)
            | Fault f => Fault f
            end
        end
    end
  else Done [].

Definition traverse_backward (vc : ValCache.t) : outcome (list Z) :=
  backward (Z.to_nat (ValCache.n vc)) (ValCache.last vc).

(** The operations that move the cursor. *)
Inductive cursor_op : Type :=
| OpAdvance
| OpRetreat
| OpReset
| OpLast
| OpFinish
| OpSeek (i : Z).

Definition apply_op (vc : ValCache.t) (op : cursor_op) : ValCache.t :=
  match op with
  | OpAdvance => ValCache.advance vc
  | OpRetreat => ValCache.retreat vc
  | OpReset => ValCache.reset vc
  | OpLast => ValCache.last vc
  | OpFinish => ValCache.finish vc
  | OpSeek i => ValCache.seek i vc
  end.

(** A cache whose counters agree with its array and fit an [int]. *)
Definition wf_cache (vc : ValCache.t) : Prop :=
  ValCache.n vc = Z.of_nat (length (ValCache.r vc))
  /\ ValCache.s vc = ValCache.n vc
  /\ ValCache.n vc <= INT_MAX.

(** Two caches with the same stored values and counters; the cursors may
    differ. *)
Definition same_contents (a b : ValCache.t) : Prop :=
  ValCache.r a = ValCache.r b
  /\ ValCache.n a = ValCache.n b
  /\ ValCache.s a = ValCache.s b.

(** ** What the diagrams are read against *)

Section Reading.

Context {View0 View1 : Type} `{SetView View0} `{SetView View1}.
Variables (x : View0) (y : View1).

(** The number of common values, as [extcardcheck] reads it from the
    cache. *)
Definition isize : Z := ValCache.size (ValCache.init (common_values x y)).

(** [if (cr > isize) cr = isize;] *)
Definition clip (cr : Z) : Z := if cr >? isize then isize else cr.

(** The number of common values that are in both sets under [env]. *)
Definition shared_count (env : assignment) : Z :=
  Z.of_nat (length (List.filter (both_contain x y env) (common_values x y))).

(** The conjunction, over the common values, of one literal of [x] and one
    of [y]. *)
Definition conj_pairs (l0 : View0 -> Z -> bdd) (l1 : View1 -> Z -> bdd)
    (vs : list Z) : bdd :=
  fold_left
    (fun acc v =>
       bdd_and acc (bdd_and (l0 x (v - initialLubMin x))
                            (l1 y (v - initialLubMin y))))
    vs bdd_true.

(** Under [env], no common value is in [x] or in [y]. *)
Definition all_absent (env : assignment) : Prop :=
  forall v, In v (common_values x y) ->
    eval env (element x (v - initialLubMin x)) = false
    /\ eval env (element y (v - initialLubMin y)) = false.

(** Under [env], every common value is in [x] and in [y]. *)
Definition all_present (env : assignment) : Prop :=
  forall v, In v (common_values x y) ->
    eval env (element x (v - initialLubMin x)) = true
    /\ eval env (element y (v - initialLubMin y)) = true.

End Reading.

(** ** Concrete inputs *)

(** A view whose upper bound is [0 .. m - 1], laid out on the [m] slots
    from [off]. *)
Definition block_view (off m : Z) : TableView :=
  mkTableView off m 0 (m - 1) (zrange 0 m).

(** The assignment that sets exactly the listed slots. *)
Definition slots_on (on : list Z) : assignment :=
  fun slot => existsb (Z.eqb slot) on.

(** A computation that, when it returns, leaves the stored values and the
    counters of the cache as it found them. *)
Definition frames {A : Type} (m : M A) : Prop :=
  forall st a st', m st = Done (a, st') -> same_contents st st'.

(** ** Relating two runs *)

(** Two outcomes are both results related by [R], or the same fault. *)
Definition outcome_rel {A B : Type} (R : A -> B -> Prop)
    (o : outcome A) (o' : outcome B) : Prop :=
  match o, o' with
  | Done a, Done b => R a b
  | Fault f, Fault f' => f = f'
  | _, _ => False
  end.

(** Two layer arrays hold equivalent handles in the same cells. *)
Definition layers_equiv (l l' : layers) : Prop :=
  Forall2 (option_Forall2 bdd_equiv) l l'.

(** Two computations that, from the same cache, give results related by
    [R] and leave the same cache. *)
Definition M_rel {A : Type} (R : A -> A -> Prop) (m m' : M A) : Prop :=
  forall st,
    outcome_rel (fun p p' => R (fst p) (fst p') /\ snd p = snd p')
                (m st) (m' st).

(** Two views that are equal element by element: the same upper-bound
    values, the same least value, and membership literals that denote the
    same boolean functions. *)
Definition view_equiv {V V' : Type} `{SetView V} `{SetView V'}
    (v : V) (v' : V') : Prop :=
  lubValues v = lubValues v'
  /\ initialLubMin v = initialLubMin v'
  /\ forall i, bdd_equiv (element v i) (element v' i).

(** ** The order [variableorder] is meant to install *)

Section PlannedOrder.

Context {View : Type} `{SetView View}.

(** The slots one column [f] contributes: [offset + f] of each view, in
    collection order, when it lies inside the view's width. *)
Definition column_slots (f : Z) (x : list View) : list Z :=
  flat_map
    (fun xi =>
       if offset xi + f <? offset xi + tableWidth xi
       then [offset xi + f] else [])
    x.

(** The columns [0 .. max_width - 1] one after the other. *)
Definition scope_slots (max_width : Z) (x : list View) : list Z :=
  flat_map (fun f => column_slots f x) (zrange 0 max_width).

(** The minimum offset and the maximum width of a collection. *)
Definition collection_bounds (x : list View) : Z * Z :=
  match x with
  | [] => (0, 0)
  | x0 :: _ => offset_width_bounds x (offset x0) (tableWidth x0)
  end.

(** Identity below the minimum offset, then the columns, then every
    remaining position [i] holds [i]. *)
Definition planned_order (var_in_tab : Z) (x : list View) : list Z :=
  let '(min_offset, max_width) := collection_bounds x in
  let placed := zrange 0 min_offset ++ scope_slots max_width x in
  placed ++ zrange (Z.of_nat (length placed)) var_in_tab.

(** The collection and the table are such that no index computation of
    [variableorder] leaves the [int] range or the order array. *)
Definition order_fits (var_in_tab : Z) (x : list View) : Prop :=
  let '(min_offset, max_width) := collection_bounds x in
  0 <= var_in_tab <= INT_MAX
  /\ (forall xi, In xi x ->
        0 <= offset xi /\ 0 <= tableWidth xi
        /\ offset xi + tableWidth xi <= INT_MAX
        /\ offset xi + max_width <= INT_MAX)
  /\ min_offset + Z.of_nat (length (scope_slots max_width x)) <= var_in_tab.

End PlannedOrder.

(** The cells [0 .. k - 1] of a layer array have been assigned. *)
Definition cells_set (layer : layers) (k : Z) : Prop :=
  forall j, 0 <= j < k -> exists b, layer !! Z.to_nat j = Some (Some b).

(** ** Counting shared values along the cache *)

(** Cell [i] of a layer array holds a handle that denotes [P]. *)
Definition cell_is (layer : layers) (i : Z) (P : assignment -> bool) : Prop :=
  exists b, layer !! Z.to_nat i = Some (Some b)
            /\ forall env, eval env b = P env.

Section Counting.

Context {View0 View1 : Type} `{SetView View0} `{SetView View1}.
Variables (x : View0) (y : View1).
Variable vs : list Z.

(** The literal of position [a] of the cached values [vs]. *)
Definition lit_at (env : assignment) (a : Z) : bool :=
  match vs !! Z.to_nat a with
  | Some v => both_contain x y env v
  | None => false
  end.

(** The number of true literals among the positions from [a] on. *)
Definition count_from (env : assignment) (a : Z) : Z :=
  Z.of_nat (length (List.filter (both_contain x y env)
                                (drop (Z.to_nat a) vs))).

(** Layer [i] of the lower region while position [p] is the last one
    swept: at least [i - base] of the positions from [p + 1 - (i - base)]
    on are true. *)
Definition at_least (base p i : Z) (env : assignment) : bool :=
  i - base <=? count_from env (p + 1 - (i - base)).

(** Layer [i] of the whole array while position [p] is the last one
    swept: the count over the positions from [p - i] on lies between
    [i - base] and [i]. *)
Definition in_window (base p i : Z) (env : assignment) : bool :=
  (i - base <=? count_from env (p - i)) && (count_from env (p - i) <=? i).

End Counting.

(** The sets of values [l] can share. *)
Fixpoint subsets (l : list Z) : list (list Z) :=
  match l with
  | [] => [[]]
  | a :: l' => subsets l' ++ map (cons a) (subsets l')
  end.

(** The assignment under which two views laid out from [off0] and [off1]
    both contain exactly the values of [shared] (values counted from the
    minimum of the upper bounds). *)
Definition sharing (off0 off1 : Z) (shared : list Z) : assignment :=
  slots_on (map (Z.add off0) shared ++ map (Z.add off1) shared).

(** ** cardConst *)

(** Modelled from the spec: [Iter::Ranges::ToValues] is external to the
    sources; it yields the values of the ranges of its argument one after
    the other.  A range iterator is the list of the ranges [(min, max)] it
    still has to yield. *)
Definition to_values (ranges : list (Z * Z)) : list Z :=
  flat_map (fun rg => zrange (fst rg) (snd rg + 1)) ranges.

Section CardConst.

Variables (xoff xmin : Z).

(** [for (int i = n - cl; i < n; i++, --inter)]: the nodes of the lowest
    layer. *)
Fixpoint const_lowest (idx : list Z) (layer : layers) : M layers :=
  match idx with
  | [] => ret layer
  | i :: idx' =>
      let* k := read ValCache.min in
      let* below := lift (layer_get layer (i - 1)) in
      let* l1 := lift (layer_set layer i
                         (ite (bddpos (xoff + k - xmin)) below bdd_false)) in
      move ValCache.retreat ;;
      const_lowest idx' l1
  end.

(** The inner loop of the layers up to the connection layer. *)
Fixpoint const_lower_column (cr r : Z) (idx : list Z) (layer : layers)
  : M layers :=
  match idx with
  | [] => ret layer
  | i :: idx' =>
      let* col := read ValCache.min in
      let* t := lift (layer_get layer (i - 1)) in
      let* old := lift (layer_get layer i) in
      let* l1 := lift (layer_set layer i
                         (ite (bddpos (xoff + col - xmin)) t old)) in
      move ValCache.retreat ;;
      let* pos := look ValCache.index in
      if to_int pos + 1 <? r + 1 - cr
      then (move ValCache.finish ;; ret l1)
      else const_lower_column cr r idx' l1
  end.

Fixpoint const_lower (fuel : nat) (cl cr n r : Z) (layer : layers)
  : M layers :=
  let* ok := look ValCache.valid in
  if negb ok then ret layer else
  match fuel with
  | O => raise OutOfFuel
  | S fuel' =>
      let* pos := look ValCache.index in
      let* l1 := const_lower_column cr r (zrange (n - cl) n) layer in
      let* ok' := look ValCache.valid in
      if negb ok' then ret l1 else
      (move (ValCache.seek pos) ;;
       move ValCache.retreat ;;
       const_lower fuel' cl cr n r l1)
  end.

(** The loop shared by the single-layer case and the connection layer. *)
Fixpoint const_link (connect : Z -> bool) (f : bdd) (idx : list Z)
    (layer : layers) : M layers :=
  match idx with
  | [] => ret layer
  | i :: idx' =>
      let* col := read ValCache.min in
      let* t := (if i =? 0 then ret bdd_false else lift (layer_get layer (i - 1))) in
      let* f' := (if negb (i =? 0) && connect i
                  then lift (layer_get layer i) else ret f) in
      let* l1 := lift (layer_set layer i
                         (ite (bddpos (xoff + col - xmin)) t f')) in
      move ValCache.retreat ;;
      let* ok := look ValCache.valid in
      if negb ok then ret l1 else const_link connect f' idx' l1
  end.

(** [if ((int) cr == r) { ... }]: only one single layer. *)
Definition const_single (cl n : Z) (layer : layers) : M layers :=
  move ValCache.last ;;
  read ValCache.min ;;
  const_link (fun i => i >? n - cl - 1) bdd_true (zrange 0 n) layer.

(** The connection layer between [cl] and [cr]. *)
Definition const_connection (cl n : Z) (layer : layers) : M layers :=
  move ValCache.last ;;
  const_link (fun i => (i >? n - cl - 1) && (cl >? 0)) bdd_true
             (zrange 0 n) layer.

(** The inner loop of the remaining layers for [cr]. *)
Fixpoint const_upper_column (idx : list Z) (layer : layers) : M layers :=
  match idx with
  | [] => ret layer
  | i :: idx' =>
      let* col := read ValCache.min in
      let* t := (if i =? 0 then ret bdd_false else lift (layer_get layer (i - 1))) in
      let* old := lift (layer_get layer i) in
      let* l1 := lift (layer_set layer i
                         (ite (bddpos (xoff + col - xmin)) t old)) in
      move ValCache.retreat ;;
      let* ok := look ValCache.valid in
      if negb ok then ret l1 else const_upper_column idx' l1
  end.

Fixpoint const_upper_loop (fuel : nat) (n : Z) (layer : layers)
  : M layers :=
  let* ok := look ValCache.valid in
  if negb ok then ret layer else
  match fuel with
  | O => raise OutOfFuel
  | S fuel' =>
      let* pos := look ValCache.index in
      let* l1 := const_upper_column (zrange 0 n) layer in
      let* ok' := look ValCache.valid in
      if negb ok' then ret l1 else
      (move (ValCache.seek pos) ;;
       move ValCache.retreat ;;
       const_upper_loop fuel' n l1)
  end.

(** The remaining layers for [cr]. *)
Definition const_upper (n : Z) (layer : layers) : M layers :=
  move ValCache.last ;;
  move ValCache.retreat ;;
  let* fuel := sweep_budget in
  const_upper_loop fuel n layer.

(** The part of [cardConst] before the case distinction on [cr]. *)
Definition const_prefix (cl cr n r : Z) : M layers :=
  let layer := alloc n in
  let* l0 := lift (layer_set layer (n - cl - 1) bdd_true) in
  move ValCache.last ;;
  read ValCache.min ;;
  let* l1 := const_lowest (zrange (n - cl) n) l0 in
  move ValCache.last ;;
  move ValCache.retreat ;;
  let* fuel := sweep_budget in
  const_lower fuel cl cr n r l1.

(** [cr] is an [int] here; the tests are [cr == r + 1] and [cr == r]. *)
Definition const_dispatch (cr r : Z) : lqgq_case :=
  if cr =? r + 1 then AllAllowed
  else if cr =? r then SingleLayer
  else ConnectionAndUpper.

Definition const_finish (k : lqgq_case) (cl n : Z) (layer : layers)
  : M bdd :=
  match k with
  | AllAllowed => lift (layer_get layer (n - 1))
  | SingleLayer =>
      let* l1 := const_single cl n layer in
      lift (layer_get l1 (n - 1))
  | ConnectionAndUpper =>
      let* l1 := const_connection cl n layer in
      let* l2 := const_upper n l1 in
      lift (layer_get l2 (n - 1))
  end.

(** The body of [cardConst] on the cache it has built. *)
Definition const_build (cl cr n r : Z) : M bdd :=
  let* layer := const_prefix cl cr n r in
  const_finish (const_dispatch cr r) cl n layer.

End CardConst.

(** [cardConst]; [unnamed] is the second parameter, which has no name and
    is not used. *)
Definition cardConst (unnamed xoff xmin cl cr : Z) (ranges : list (Z * Z))
  : outcome bdd :=
  let inter := ValCache.init (to_values ranges) in
  let r := to_int (to_unsigned (ValCache.size inter - 1)) in
  let n := cr + 1 in
  run (const_build xoff xmin cl cr n r) inter.

(** ** variableorder over two arrays *)

Section VariableOrder2.

Context {View View1 : Type} `{SetView View} `{SetView View1}.

(** The second inner loop of a column: the views of [y] whose upper bound
    holds the value [x[0].initialLubMin() + f]. *)
Fixpoint order_column_y (f x0min : Z) (y : list View1) (hls : list Z)
    (c : Z) : outcome (list Z * Z) :=
  match y with
  | [] => Done (hls, c)
  | yi :: y' =>
      if (x0min + to_int f >=? initialLubMin yi)
         && (x0min + to_int f <=? initialLubMax yi)
      then
        let xyshift := initialLubMin yi - x0min in
        let yo := to_int (offset yi) in
        let yw := to_int (tableWidth yi) in
        let cur := to_int (to_unsigned yo + f - to_unsigned xyshift) in
        if cur <=? yo + yw then
          match order_write hls c cur with
          | Done hls' => order_column_y f x0min y' hls' (c + 1)
          | Fault e => Fault e
          end
        else order_column_y f x0min y' hls c
      else order_column_y f x0min y' hls c
  end.

(** [for (unsigned int f = 0; f < max_width; f++)] with both inner
    loops. *)
Fixpoint order_scope2 (cols : list Z) (x : list View) (y : list View1)
    (x0min : Z) (hls : list Z) (c : Z) : outcome (list Z * Z) :=
  match cols with
  | [] => Done (hls, c)
  | f :: cols' =>
      match order_column f x hls c with
      | Done (hls', c') =>
          match order_column_y f x0min y hls' c' with
          | Done (hls'', c'') => order_scope2 cols' x y x0min hls'' c''
          | Fault e => Fault e
          end
      | Fault e => Fault e
      end
  end.

(** The overload of [variableorder] that takes two arrays. *)
Definition variableorder2 (var_in_tab : Z) (x : list View) (y : list View1)
  : outcome (list Z) :=
  match x with
  | [] => Fault OutOfBounds
  | x0 :: _ =>
      let '(min_offset, max_width) :=
        offset_width_bounds x (offset x0) (tableWidth x0) in
      let hls_order := replicate (Z.to_nat var_in_tab) 0 in
      match order_identity (zrange 0 min_offset) hls_order 0 with
      | Fault e => Fault e
      | Done (hls1, c1) =>
          match order_scope2 (zrange 0 max_width) x y (initialLubMin x0)
                  hls1 c1 with
          | Fault e => Fault e
          | Done (hls2, c2) =>
              match order_identity (zrange (to_unsigned c2) var_in_tab)
                      hls2 c2 with
              | Fault e => Fault e
              | Done (hls3, _) => Done hls3
              end
          end
      end
  end.

End VariableOrder2.

(** ** What the layers of [extcardeq] hold *)

Section ExactCounting.

Context {View0 View1 : Type} `{SetView View0} `{SetView View1}.
Variables (x : View0) (y : View1).
Variable vs : list Z.

(** The last cached value is in both sets. *)
Definition last_shared (env : assignment) : bool :=
  lit_at x y vs env (Z.of_nat (length vs) - 1).

(** The count [cnt] is exactly [i], or it is at most [i] and the last
    cached value is among the shared ones. *)
Definition exact_or_last (env : assignment) (i cnt : Z) : bool :=
  (cnt =? i) || (last_shared env && (1 <=? cnt) && (cnt <=? i)).

(** Layer [i] of [extcardeq] while position [p] is the last one swept. *)
Definition eq_cell (p i : Z) (env : assignment) : bool :=
  exact_or_last env i (count_from x y vs env (p - i)).

End ExactCounting.

(** The number of values of [vs] whose slot [xoff + v - xmin] is set
    under [env]: what a diagram of [cardConst] counts. *)
Definition slots_set (xoff xmin : Z) (vs : list Z) (env : assignment) : Z :=
  Z.of_nat (length (List.filter (fun v => env (xoff + v - xmin)) vs)).

(** ** The order [variableorder] installs for two arrays *)

Section PlannedOrder2.

Context {View View1 : Type} `{SetView View} `{SetView View1}.

(** The slots the views of [y] contribute to column [f]: a view whose
    upper bound holds the value [x0min + f] contributes the slot of that
    value when it is at most [offset + tableWidth]. *)
Definition column_slots_y (f x0min : Z) (y : list View1) : list Z :=
  flat_map
    (fun yi =>
       if (initialLubMin yi <=? x0min + f) && (x0min + f <=? initialLubMax yi)
       then
         let cur := offset yi + f - (initialLubMin yi - x0min) in
         if cur <=? offset yi + tableWidth yi then [cur] else []
       else [])
    y.

(** The columns [0 .. max_width - 1] one after the other, each with the
    slots of [x] before those of [y]. *)
Definition scope_slots2 (max_width : Z) (x : list View) (y : list View1)
    (x0min : Z) : list Z :=
  flat_map (fun f => column_slots f x ++ column_slots_y f x0min y)
           (zrange 0 max_width).

(** [x[0].initialLubMin()]. *)
Definition first_lub_min (x : list View) : Z :=
  match x with
  | [] => 0
  | x0 :: _ => initialLubMin x0
  end.

Definition planned_order2 (var_in_tab : Z) (x : list View)
    (y : list View1) : list Z :=
  let '(min_offset, max_width) := collection_bounds x in
  let placed :=
    zrange 0 min_offset ++ scope_slots2 max_width x y (first_lub_min x) in
  placed ++ zrange (Z.of_nat (length placed)) var_in_tab.

(** The two collections and the table are such that no index computation
    of [variableorder] leaves the [int] range or the order array. *)
Definition order_fits2 (var_in_tab : Z) (x : list View) (y : list View1)
  : Prop :=
  let '(min_offset, max_width) := collection_bounds x in
  0 <= var_in_tab <= INT_MAX
  /\ (forall xi, In xi x ->
        0 <= offset xi /\ 0 <= tableWidth xi
        /\ offset xi + tableWidth xi <= INT_MAX
        /\ offset xi + max_width <= INT_MAX)
  /\ (forall yi, In yi y ->
        0 <= offset yi /\ 0 <= tableWidth yi
        /\ offset yi + tableWidth yi <= INT_MAX
        /\ offset yi + (initialLubMax yi - initialLubMin yi) <= INT_MAX
        /\ - 2 ^ 31 <= initialLubMin yi - first_lub_min x < 2 ^ 31
        /\ - 2 ^ 31 <= first_lub_min x
        /\ first_lub_min x + max_width <= INT_MAX)
  /\ min_offset
     + Z.of_nat (length (scope_slots2 max_width x y (first_lub_min x)))
     <= var_in_tab.

(** The slots of the block of a view. *)
Definition view_block (xi : View) : list Z :=
  zrange (offset xi) (offset xi + tableWidth xi).

End PlannedOrder2.

(** ** What a diagram of [extcardcheck] accepts *)

Section CheckReading.

Context {View0 View1 : Type} `{SetView View0} `{SetView View1}.
Variables (x : View0) (y : View1).

(** Under [env], no common value is in [x] or in [y]. *)
Definition none_present (env : assignment) : bool :=
  forallb
    (fun v =>
       negb (eval env (element x (v - initialLubMin x)))
       && negb (eval env (element y (v - initialLubMin y))))
    (common_values x y).

(** The function of the assignment that the diagram of
    [extcardcheck x y cl cr] denotes, path by path: the inconsistent
    window; [cr == 0]; the exact count below the intersection size, built
    by [extcardeq]; every other window. *)
Definition extcardcheck_reading (cl cr : Z) (env : assignment) : bool :=
  let cnt := shared_count x y env in
  let cr' := clip x y cr in
  if (cl >? isize x y) || (cl >? cr') then false
  else if cr' =? 0 then none_present env
  else if (cl =? cr') && negb (cr' =? isize x y)
  then exact_or_last x y (common_values x y) env cr' cnt
  else (cl <=? cnt) && (cnt <=? cr').

(** Two assignments give every membership literal of a common value the
    same truth value. *)
Definition agree_on_common (env env' : assignment) : Prop :=
  forall v, In v (common_values x y) ->
    eval env (element x (v - initialLubMin x))
    = eval env' (element x (v - initialLubMin x))
    /\ eval env (element y (v - initialLubMin y))
       = eval env' (element y (v - initialLubMin y)).

End CheckReading.

(** The values of a list are strictly increasing, as the values of an
    upper bound are. *)
Fixpoint increasing (l : list Z) : Prop :=
  match l with
  | [] => True
  | a :: l' => Forall (Z.lt a) l' /\ increasing l'
  end.

(** The cache after [init] on [vs] followed by the cursor operations
    [ops]. *)
Definition after_ops (vs : list Z) (ops : list cursor_op) : ValCache.t :=
  fold_left apply_op ops (ValCache.init vs).

(** ** How a call of a builder ends *)

(** A computation whose only fault is an access outside an array. *)
Definition oob_only {A : Type} (m : M A) : Prop :=
  forall st f, m st = Fault f -> f = OutOfBounds.

(** From the cache [st] the call returns and leaves the stored values and
    the counters of the cache as it found them, or it accesses an array
    outside its bounds, where the source has no defined behaviour. *)
Definition keeps_cache {A : Type} (m : M A) (st : ValCache.t) : Prop :=
  match m st with
  | Done (_, st') => same_contents st st'
  | Fault f => f = OutOfBounds
  end.

(* ================================================================== *)
(** * Properties *)
(* ================================================================== *)

(** ** Integer conversions and ranges *)

Lemma to_unsigned_id z : 0 <= z < 2 ^ 32 -> to_unsigned z = z.
Proof. intros Hz. unfold to_unsigned. apply Z.mod_small. exact Hz. Qed.

Lemma to_int_id z : - 2 ^ 31 <= z < 2 ^ 31 -> to_int z = z.
Proof.
  intros Hz. unfold to_int.
  rewrite Z.mod_small by lia. lia.
Qed.

Lemma to_int_to_unsigned z : - 2 ^ 31 <= z < 2 ^ 31 -> to_int (to_unsigned z) = z.
Proof.
  intros Hz. unfold to_int, to_unsigned.
  rewrite Zplus_mod_idemp_l.
  rewrite Z.mod_small by lia. lia.
Qed.

Lemma zrange_nil lo hi : hi <= lo -> zrange lo hi = [].
Proof.
  intros Hle. unfold zrange.
  replace (Z.to_nat (hi - lo)) with 0%nat by lia. reflexivity.
Qed.

Lemma zrange_cons lo hi : lo < hi -> zrange lo hi = lo :: zrange (lo + 1) hi.
Proof.
  intros Hlt. unfold zrange.
  replace (Z.to_nat (hi - lo)) with (S (Z.to_nat (hi - (lo + 1)))) by lia.
  cbn [seq map]. f_equal; [lia |].
  rewrite <- seq_shift, map_map.
  apply map_ext. intros k. lia.
Qed.

Lemma zrange_length lo hi : length (zrange lo hi) = Z.to_nat (hi - lo).
Proof. unfold zrange. rewrite length_map, length_seq. reflexivity. Qed.

(** ** The cache after [init] *)

Lemma dyn_write_end d v : ValCache.dyn_write d (length d) v = d ++ [v].
Proof.
  unfold ValCache.dyn_write.
  rewrite Nat.ltb_irrefl, Nat.sub_diag. reflexivity.
Qed.

Lemma drain_spec i : forall d s,
  ValCache.drain i d (length d) s
  = (d ++ i, (length d + length i)%nat, s + Z.of_nat (length i)).
Proof.
  induction i as [| v i IH]; intros d s; cbn [ValCache.drain].
  - rewrite app_nil_r. cbn. f_equal; [f_equal |]; lia.
  - rewrite dyn_write_end.
    replace (S (length d)) with (length (d ++ [v]))
      by (rewrite length_app; cbn; lia).
    rewrite IH. rewrite <- app_assoc. cbn [app length].
    rewrite length_app. cbn [length]. f_equal; [f_equal |]; lia.
Qed.

Lemma copy_down_spec j : forall d r,
  (j <= length d)%nat -> (j <= length r)%nat ->
  ValCache.copy_down j d r = take j d ++ drop j r.
Proof.
  induction j as [| j IH]; intros d r Hd Hr; cbn [ValCache.copy_down].
  - reflexivity.
  - rewrite IH by (rewrite ?length_insert; lia).
    destruct (lookup_lt_is_Some_2 d j ltac:(lia)) as [v Hv].
    rewrite (nth_lookup_Some _ _ _ _ Hv).
    rewrite (take_S_r _ _ _ Hv), <- app_assoc. f_equal.
    rewrite drop_insert_ge by lia.
    rewrite Nat.sub_diag.
    destruct (drop j r) as [| w rest] eqn:Hdrop.
    + apply (f_equal length) in Hdrop. rewrite length_drop in Hdrop.
      cbn in Hdrop. lia.
    + cbn. f_equal.
      change (S j) with (1 + j)%nat. rewrite Nat.add_comm, <- drop_drop, Hdrop. reflexivity.
Qed.

Lemma init_eq vs :
  ValCache.init vs
  = ValCache.mk vs 0 (Z.of_nat (length vs)) (Z.of_nat (length vs)).
Proof.
  unfold ValCache.init.
  change 0%nat with (length (@nil Z)) at 1.
  rewrite drain_spec. cbn [app length Nat.add].
  rewrite copy_down_spec by (rewrite ?length_replicate; lia).
  rewrite firstn_all, drop_ge by (rewrite length_replicate; lia).
  rewrite app_nil_r. f_equal.
Qed.

Lemma init_wf vs :
  Z.of_nat (length vs) <= INT_MAX -> wf_cache (ValCache.init vs).
Proof. intros Hlen. rewrite init_eq. repeat split; cbn; lia. Qed.

(** ** Traversals *)

Lemma valid_iff vc :
  ValCache.valid vc = true <-> -1 < ValCache.c vc < ValCache.n vc.
Proof.
  unfold ValCache.valid.
  rewrite andb_true_iff, !Z.ltb_lt. tauto.
Qed.

Lemma val_at vs (j : nat) v len s :
  vs !! j = Some v ->
  ValCache.val (ValCache.mk vs (Z.of_nat j) len s) = Done v.
Proof.
  intros Hj. unfold ValCache.val. cbn [ValCache.c ValCache.r].
  destruct (Z.ltb_spec (Z.of_nat j) 0) as [Hneg | _]; [lia |].
  rewrite Nat2Z.id, Hj. reflexivity.
Qed.

Lemma forward_spec vs s fuel : forall j : nat,
  (j <= length vs)%nat -> (length vs - j <= fuel)%nat ->
  forward fuel (ValCache.mk vs (Z.of_nat j) (Z.of_nat (length vs)) s)
  = Done (drop j vs).
Proof.
  induction fuel as [| fuel IH]; intros j Hj Hfuel.
  - assert (j = length vs) as -> by lia.
    cbn [forward]. unfold ValCache.valid. cbn [ValCache.c ValCache.n].
    rewrite Z.ltb_irrefl, andb_false_r, drop_all. reflexivity.
  - cbn [forward]. unfold ValCache.valid. cbn [ValCache.c ValCache.n].
    destruct (Z.ltb_spec (Z.of_nat j) (Z.of_nat (length vs))) as [Hlt | Hge].
    + destruct (Z.ltb_spec (-1) (Z.of_nat j)) as [_ | Hneg]; [| lia].
      cbn [andb].
      destruct (lookup_lt_is_Some_2 vs j ltac:(lia)) as [v Hv].
      rewrite (val_at _ _ _ _ _ Hv).
      unfold ValCache.advance, ValCache.set_c.
      cbn [ValCache.c ValCache.n ValCache.r ValCache.s].
      replace (Z.of_nat j + 1) with (Z.of_nat (S j)) by lia.
      rewrite IH by lia.
      rewrite (drop_S _ _ _ Hv). reflexivity.
    + rewrite andb_false_r.
      rewrite drop_ge by lia. reflexivity.
Qed.

Lemma backward_spec vs s fuel : forall j : nat,
  (j <= length vs)%nat -> (j <= fuel)%nat ->
  backward fuel (ValCache.mk vs (Z.of_nat j - 1) (Z.of_nat (length vs)) s)
  = Done (rev (take j vs)).
Proof.
  induction fuel as [| fuel IH]; intros j Hj Hfuel.
  - assert (j = 0%nat) as -> by lia. reflexivity.
  - cbn [backward]. unfold ValCache.valid. cbn [ValCache.c ValCache.n].
    destruct j as [| j].
    + reflexivity.
    + replace (Z.of_nat (S j) - 1) with (Z.of_nat j) by lia.
      destruct (Z.ltb_spec (-1) (Z.of_nat j)) as [_ | Hneg]; [| lia].
      destruct (Z.ltb_spec (Z.of_nat j) (Z.of_nat (length vs)))
        as [_ | Hge]; [| lia].
      cbn [andb].
      destruct (lookup_lt_is_Some_2 vs j ltac:(lia)) as [v Hv].
      rewrite (val_at _ _ _ _ _ Hv).
      unfold ValCache.retreat, ValCache.set_c.
      cbn [ValCache.c ValCache.n ValCache.r ValCache.s].
      rewrite IH by lia.
      rewrite (take_S_r _ _ _ Hv), rev_unit. reflexivity.
Qed.

Lemma apply_op_contents vc op : same_contents (apply_op vc op) vc.
Proof. destruct op; repeat split. Qed.




(** ** The fast paths of [extcardcheck] *)

Section FastPaths.

Context {View0 View1 : Type} `{SetView View0} `{SetView View1}.
Variables (x : View0) (y : View1).

Lemma isize_length :
  Z.of_nat (length (common_values x y)) <= INT_MAX ->
  isize x y = Z.of_nat (length (common_values x y)).
Proof.
  intros Hlen. unfold isize. rewrite init_eq. unfold ValCache.size.
  cbn [ValCache.s]. apply to_unsigned_id. unfold INT_MAX in Hlen. lia.
Qed.

Lemma extcardcheck_unfold cl cr :
  extcardcheck x y cl cr
  = let inter := ValCache.init (common_values x y) in
    let cr' := clip x y cr in
    let r := to_int (to_unsigned (isize x y - 1)) in
    let n := to_int (to_unsigned (cr' + 1)) in
    if (cl >? isize x y) || (cl >? cr') then Done bdd_false
    else if cr' =? 0 then
      run (let* fuel := sweep_budget in
           conjoin x y fuel (@elementNeg) bdd_true) inter
    else if cl =? cr' then
      if cr' =? isize x y then
        run (let* fuel := sweep_budget in
             conjoin x y fuel (@element) bdd_true) inter
      else run (extcardeq x y cr' n r) inter
    else if (cr' =? isize x y) && (cl =? 0) then Done bdd_true
    else run (extcardlqgq x y cl cr' n r) inter.
Proof. reflexivity. Qed.

Lemma clip_idem cr : clip x y (clip x y cr) = clip x y cr.
Proof.
  unfold clip.
  destruct (Z.gtb_spec cr (isize x y)) as [Hgt | Hle].
  - rewrite Z.gtb_ltb, Z.ltb_irrefl. reflexivity.
  - destruct (Z.gtb_spec cr (isize x y)); [lia | reflexivity].
Qed.

(** The forward loop of the two conjunction paths. *)
Lemma conjoin_spec (lit : forall V : Type, SetView V -> V -> Z -> bdd)
    vs s fuel : forall (j : nat) acc,
  (j <= length vs)%nat -> (length vs - j <= fuel)%nat ->
  conjoin x y fuel lit acc
    (ValCache.mk vs (Z.of_nat j) (Z.of_nat (length vs)) s)
  = Done (fold_left
            (fun a v =>
               bdd_and a (bdd_and (lit View0 _ x (v - initialLubMin x))
                                  (lit View1 _ y (v - initialLubMin y))))
            (drop j vs) acc,
          ValCache.mk vs (Z.of_nat (length vs)) (Z.of_nat (length vs)) s).
Proof.
  induction fuel as [| fuel IH]; intros j acc Hj Hfuel.
  - assert (j = length vs) as -> by lia.
    cbn [conjoin]. unfold bind, look, ValCache.valid.
    cbn [ValCache.c ValCache.n].
    rewrite Z.ltb_irrefl, andb_false_r, drop_all. reflexivity.
  - cbn [conjoin]. unfold bind at 1. unfold look at 1. unfold ValCache.valid.
    cbn [ValCache.c ValCache.n].
    destruct (Z.ltb_spec (Z.of_nat j) (Z.of_nat (length vs))) as [Hlt | Hge].
    + destruct (Z.ltb_spec (-1) (Z.of_nat j)) as [_ | Hneg]; [| lia].
      cbn [andb negb].
      destruct (lookup_lt_is_Some_2 vs j ltac:(lia)) as [v Hv].
      unfold bind, read, lift, move, ValCache.min.
      rewrite (val_at _ _ _ _ _ Hv).
      unfold ValCache.advance, ValCache.set_c.
      cbn [ValCache.c ValCache.n ValCache.r ValCache.s].
      replace (Z.of_nat j + 1) with (Z.of_nat (S j)) by lia.
      specialize (IH (S j)). unfold bind in IH. rewrite IH by lia.
      rewrite (drop_S _ _ _ Hv). reflexivity.
    + rewrite andb_false_r. cbn [negb]. unfold ret.
      assert (j = length vs) as -> by lia.
      rewrite drop_all. reflexivity.
Qed.

Lemma run_conjoin (lit : forall V : Type, SetView V -> V -> Z -> bdd) :
  run (let* fuel := sweep_budget in conjoin x y fuel lit bdd_true)
      (ValCache.init (common_values x y))
  = Done (conj_pairs x y (lit View0 _) (lit View1 _) (common_values x y)).
Proof.
  rewrite init_eq. unfold run, bind, sweep_budget, look.
  cbn [ValCache.n]. rewrite Nat2Z.id.
  change 0 with (Z.of_nat 0).
  rewrite conjoin_spec by lia.
  reflexivity.
Qed.

Lemma eval_conj_fold env (l0 : Z -> bdd) (l1 : Z -> bdd) vs : forall acc,
  eval env (fold_left (fun a v => bdd_and a (bdd_and (l0 v) (l1 v))) vs acc)
  = eval env acc
    && forallb (fun v => eval env (l0 v) && eval env (l1 v)) vs.
Proof.
  induction vs as [| v vs IH]; intros acc; cbn [fold_left forallb].
  - rewrite andb_true_r. reflexivity.
  - rewrite IH. cbn [eval]. rewrite !andb_assoc. reflexivity.
Qed.

Lemma conj_neg_accepts env :
  eval env (conj_pairs x y elementNeg elementNeg (common_values x y)) = true
  <-> all_absent x y env.
Proof.
  unfold conj_pairs, all_absent.
  rewrite (eval_conj_fold env
             (fun v => elementNeg x (v - initialLubMin x))
             (fun v => elementNeg y (v - initialLubMin y))).
  cbn [eval andb]. rewrite forallb_forall.
  split; intros Hall v Hv; specialize (Hall v Hv);
    rewrite !elementNeg_eval in *.
  - apply andb_true_iff in Hall as [Hx Hy].
    apply negb_true_iff in Hx, Hy. auto.
  - destruct Hall as [-> ->]. reflexivity.
Qed.

Lemma conj_pos_accepts env :
  eval env (conj_pairs x y element element (common_values x y)) = true
  <-> all_present x y env.
Proof.
  unfold conj_pairs, all_present.
  rewrite (eval_conj_fold env
             (fun v => element x (v - initialLubMin x))
             (fun v => element y (v - initialLubMin y))).
  cbn [eval andb]. rewrite forallb_forall.
  split; intros Hall v Hv; specialize (Hall v Hv).
  - apply andb_true_iff in Hall. exact Hall.
  - destruct Hall as [-> ->]. reflexivity.
Qed.

End FastPaths.

(** C2.  [extcardcheck] works with [cr] clipped to the intersection size;
    if then [cl > isize] or [cl > cr] it returns the unconditionally-false
    diagram as a normal result. *)
Theorem extcardcheck_inconsistent_window
    {View0 View1 : Type} `{SetView View0} `{SetView View1}
    (x : View0) (y : View1) (cl cr : Z) :
  extcardcheck x y cl cr = extcardcheck x y cl (clip x y cr)
  /\ (cl > isize x y \/ cl > clip x y cr ->
      extcardcheck x y cl cr = Done bdd_false).
Proof.
  split.
  - rewrite !extcardcheck_unfold. rewrite clip_idem. reflexivity.
  - intros Hbad. rewrite extcardcheck_unfold. cbv zeta.
    replace ((cl >? isize x y) || (cl >? clip x y cr)) with true;
      [reflexivity |].
    symmetry. apply orb_true_iff.
    destruct Hbad as [Hbad | Hbad]; [left | right];
      apply Z.gtb_lt; lia.
Qed.

Lemma extcardcheck_inconsistent_window_witness :
  extcardcheck (block_view 0 4) (block_view 4 4) 5 3 = Done bdd_false.
Proof.
  apply (extcardcheck_inconsistent_window
           (block_view 0 4) (block_view 4 4) 5 3).
  left. vm_compute. reflexivity.
Defined.

(** C4.  For a window with [0 <= cl <= cr] (after clipping): when
    [cr == 0] the result is the conjunction of both negated literals over
    the common values, accepted only when no common value is in either
    set; when [cl == cr == isize] it is the conjunction of both positive
    literals, accepted only when every common value is in both sets; when
    [cl == 0] and [cr == isize] it is the universally-true diagram. *)
Theorem extcardcheck_fast_paths
    {View0 View1 : Type} `{SetView View0} `{SetView View1}
    (x : View0) (y : View1) (cl cr : Z) :
  Z.of_nat (length (common_values x y)) <= INT_MAX ->
  0 <= cl <= clip x y cr ->
  (clip x y cr = 0 ->
     extcardcheck x y cl cr
     = Done (conj_pairs x y elementNeg elementNeg (common_values x y))
     /\ forall env,
          eval env (conj_pairs x y elementNeg elementNeg (common_values x y))
          = true <-> all_absent x y env)
  /\ (cl = clip x y cr -> clip x y cr = isize x y ->
     extcardcheck x y cl cr
     = Done (conj_pairs x y element element (common_values x y))
     /\ forall env,
          eval env (conj_pairs x y element element (common_values x y))
          = true <-> all_present x y env)
  /\ (cl = 0 -> clip x y cr = isize x y ->
     extcardcheck x y cl cr = Done bdd_true).
Proof.
  intros Hlen Hwin.
  pose proof (isize_length x y Hlen) as Hsize.
  assert (clip x y cr <= isize x y) as Hclip.
  { unfold clip. destruct (Z.gtb_spec cr (isize x y)); lia. }
  assert ((cl >? isize x y) || (cl >? clip x y cr) = false) as Hguard.
  { apply orb_false_iff. split; rewrite Z.gtb_ltb; apply Z.ltb_ge; lia. }
  split; [| split].
  - intros Hzero. split; [| apply conj_neg_accepts].
    rewrite extcardcheck_unfold. cbv zeta.
    rewrite Hguard, Hzero. cbn [Z.eqb].
    apply (run_conjoin x y (@elementNeg)).
  - intros Heq Hfull. split; [| apply conj_pos_accepts].
    rewrite extcardcheck_unfold. cbv zeta. rewrite Hguard.
    destruct (Z.eqb_spec (clip x y cr) 0) as [Hzero | Hpos].
    + rewrite (run_conjoin x y (@elementNeg)).
      assert (common_values x y = []) as ->.
      { apply length_zero_iff_nil. lia. }
      reflexivity.
    + rewrite (proj2 (Z.eqb_eq cl (clip x y cr)) Heq).
      rewrite (proj2 (Z.eqb_eq (clip x y cr) (isize x y)) Hfull).
      apply (run_conjoin x y (@element)).
  - intros Hcl Hfull.
    rewrite extcardcheck_unfold. cbv zeta. rewrite Hguard.
    destruct (Z.eqb_spec (clip x y cr) 0) as [Hzero | Hpos].
    + rewrite (run_conjoin x y (@elementNeg)).
      assert (common_values x y = []) as ->.
      { apply length_zero_iff_nil. lia. }
      reflexivity.
    + destruct (Z.eqb_spec cl (clip x y cr)) as [Heq | Hne]; [lia |].
      rewrite (proj2 (Z.eqb_eq (clip x y cr) (isize x y)) Hfull).
      rewrite (proj2 (Z.eqb_eq cl 0) Hcl). reflexivity.
Qed.

Lemma extcardcheck_fast_paths_witness :
  extcardcheck (block_view 0 4) (block_view 4 4) 0 0
  = Done (conj_pairs (block_view 0 4) (block_view 4 4)
            elementNeg elementNeg
            (common_values (block_view 0 4) (block_view 4 4)))
  /\ forall env,
       eval env (conj_pairs (block_view 0 4) (block_view 4 4)
                   elementNeg elementNeg
                   (common_values (block_view 0 4) (block_view 4 4)))
       = true <-> all_absent (block_view 0 4) (block_view 4 4) env.
Proof.
  refine (proj1 (extcardcheck_fast_paths
                   (block_view 0 4) (block_view 4 4) 0 0 _ _) _).
  - vm_compute. discriminate.
  - vm_compute. split; discriminate.
  - vm_compute. reflexivity.
Defined.

(** ** The builders only move the cursor *)

Lemma same_contents_refl st : same_contents st st.
Proof. repeat split. Qed.

Lemma same_contents_trans a b c :
  same_contents a b -> same_contents b c -> same_contents a c.
Proof.
  intros (Hr1 & Hn1 & Hs1) (Hr2 & Hn2 & Hs2).
  repeat split; congruence.
Qed.

Lemma frames_ret {A : Type} (a : A) : frames (ret a).
Proof. intros st a' st' Hrun. injection Hrun as _ <-. apply same_contents_refl. Qed.

Lemma frames_raise {A : Type} (f : fault) : frames (@raise A f).
Proof. intros st a st' Hrun. discriminate Hrun. Qed.

Lemma frames_lift {A : Type} (o : outcome A) : frames (lift o).
Proof.
  intros st a st' Hrun. unfold lift in Hrun.
  destruct o; [| discriminate].
  injection Hrun as _ <-. apply same_contents_refl.
Qed.

Lemma frames_look {A : Type} (f : ValCache.t -> A) : frames (look f).
Proof. intros st a st' Hrun. injection Hrun as _ <-. apply same_contents_refl. Qed.

Lemma frames_read {A : Type} (f : ValCache.t -> outcome A) : frames (read f).
Proof. intros st. unfold read. apply frames_lift. Qed.

Lemma frames_move (f : ValCache.t -> ValCache.t) :
  (forall st, same_contents st (f st)) -> frames (move f).
Proof. intros Hf st a st' Hrun. injection Hrun as _ <-. apply Hf. Qed.

Lemma frames_bind {A B : Type} (m : M A) (k : A -> M B) :
  frames m -> (forall a, frames (k a)) -> frames (bind m k).
Proof.
  intros Hm Hk st b st' Hrun. unfold bind in Hrun.
  destruct (m st) as [[a st1] |] eqn:Hstep; [| discriminate].
  eapply same_contents_trans; [eapply Hm | eapply Hk]; eassumption.
Qed.

(** Decompose a goal [frames m] along the structure of [m]. *)
Ltac frame :=
  repeat match goal with
  | |- frames (bind _ _) => apply frames_bind; [| intros ?]
  | |- frames (ret _) => apply frames_ret
  | |- frames (lift _) => apply frames_lift
  | |- frames (raise _) => apply frames_raise
  | |- frames (look _) => apply frames_look
  | |- frames sweep_budget => apply frames_look
  | |- frames (read _) => apply frames_read
  | |- frames (move _) => apply frames_move; intros ?; repeat split
  | |- frames (if ?b then _ else _) => destruct b
  | IH : context [frames _] |- frames _ => solve [apply IH]
  end.

Section Frame.

Context {View0 View1 : Type} `{SetView View0} `{SetView View1}.
Variables (x : View0) (y : View1).

Lemma frames_eq_lowest xmin ymin idx : forall layer,
  frames (eq_lowest x y xmin ymin idx layer).
Proof. induction idx as [| i idx IH]; intros layer; cbn [eq_lowest]; frame. Qed.

Lemma frames_eq_connect idx : forall layer, frames (eq_connect idx layer).
Proof. induction idx as [| i idx IH]; intros layer; cbn [eq_connect]; frame. Qed.

Lemma frames_eq_column xmin ymin idx : forall layer,
  frames (eq_column x y xmin ymin idx layer).
Proof. induction idx as [| i idx IH]; intros layer; cbn [eq_column]; frame. Qed.

Lemma frames_eq_remaining xmin ymin n fuel : forall layer,
  frames (eq_remaining x y fuel xmin ymin n layer).
Proof.
  induction fuel as [| fuel IH]; intros layer; cbn [eq_remaining]; frame.
  apply frames_eq_column.
Qed.

Lemma frames_extcardeq c n r : frames (extcardeq x y c n r).
Proof.
  unfold extcardeq. frame.
  - apply frames_eq_lowest.
  - apply frames_eq_connect.
  - apply frames_eq_remaining.
Qed.

Lemma frames_lqgq_lowest xmin ymin idx : forall layer,
  frames (lqgq_lowest x y xmin ymin idx layer).
Proof. induction idx as [| i idx IH]; intros layer; cbn [lqgq_lowest]; frame. Qed.

Lemma frames_lqgq_lower_column xmin ymin cr r idx : forall layer,
  frames (lqgq_lower_column x y xmin ymin cr r idx layer).
Proof.
  induction idx as [| i idx IH]; intros layer;
    cbn [lqgq_lower_column]; frame.
Qed.

Lemma frames_lqgq_lower xmin ymin cl cr n r fuel : forall layer,
  frames (lqgq_lower x y fuel xmin ymin cl cr n r layer).
Proof.
  induction fuel as [| fuel IH]; intros layer; cbn [lqgq_lower]; frame.
  apply frames_lqgq_lower_column.
Qed.

Lemma frames_lqgq_link xmin ymin connect idx : forall f layer,
  frames (lqgq_link x y xmin ymin connect f idx layer).
Proof.
  induction idx as [| i idx IH]; intros f layer; cbn [lqgq_link]; frame.
Qed.

Lemma frames_lqgq_upper_column xmin ymin idx : forall layer,
  frames (lqgq_upper_column x y xmin ymin idx layer).
Proof.
  induction idx as [| i idx IH]; intros layer;
    cbn [lqgq_upper_column]; frame.
Qed.

Lemma frames_lqgq_upper_loop xmin ymin n fuel : forall layer,
  frames (lqgq_upper_loop x y fuel xmin ymin n layer).
Proof.
  induction fuel as [| fuel IH]; intros layer; cbn [lqgq_upper_loop]; frame.
  apply frames_lqgq_upper_column.
Qed.

Lemma frames_lqgq_prefix cl cr n r : frames (lqgq_prefix x y cl cr n r).
Proof.
  unfold lqgq_prefix. frame.
  - apply frames_lqgq_lowest.
  - apply frames_lqgq_lower.
Qed.

Lemma frames_lqgq_finish k cl n layer : frames (lqgq_finish x y k cl n layer).
Proof.
  destruct k; cbn [lqgq_finish]; frame.
  - unfold lqgq_single. frame. apply frames_lqgq_link.
  - unfold lqgq_connection. frame. apply frames_lqgq_link.
  - unfold lqgq_upper. frame. apply frames_lqgq_upper_loop.
Qed.

Lemma frames_extcardlqgq cl cr n r : frames (extcardlqgq x y cl cr n r).
Proof.
  unfold extcardlqgq. frame.
  - apply frames_lqgq_prefix.
  - apply frames_lqgq_finish.
Qed.

End Frame.

(** ** Element-wise equal inputs give equivalent diagrams *)

Lemma bdd_equiv_refl b : bdd_equiv b b.
Proof. intros env. reflexivity. Qed.

Lemma bdd_equiv_ite f f' g g' h h' :
  bdd_equiv f f' -> bdd_equiv g g' -> bdd_equiv h h' ->
  bdd_equiv (ite f g h) (ite f' g' h').
Proof.
  intros Hf Hg Hh env. cbn [eval]. rewrite (Hf env), (Hg env), (Hh env).
  reflexivity.
Qed.

Lemma bdd_equiv_and f f' g g' :
  bdd_equiv f f' -> bdd_equiv g g' ->
  bdd_equiv (bdd_and f g) (bdd_and f' g').
Proof.
  intros Hf Hg env. cbn [eval]. rewrite (Hf env), (Hg env). reflexivity.
Qed.

Create HintDb bddeq.
#[local] Hint Resolve bdd_equiv_refl bdd_equiv_ite bdd_equiv_and : bddeq.

Lemma M_rel_ret {A : Type} (R : A -> A -> Prop) a a' :
  R a a' -> M_rel R (ret a) (ret a').
Proof. intros Hrel st. cbn. auto. Qed.

Lemma M_rel_same {A : Type} (m : M A) : M_rel eq m m.
Proof. intros st. unfold outcome_rel. destruct (m st); auto. Qed.

Lemma M_rel_lift {A : Type} (R : A -> A -> Prop) o o' :
  outcome_rel R o o' -> M_rel R (lift o) (lift o').
Proof.
  intros Hrel st. unfold lift.
  destruct o, o'; cbn in *; auto.
Qed.

Lemma M_rel_bind {A B : Type} (R : A -> A -> Prop) (S : B -> B -> Prop)
    (m m' : M A) (k k' : A -> M B) :
  M_rel R m m' ->
  (forall a a', R a a' -> M_rel S (k a) (k' a')) ->
  M_rel S (bind m k) (bind m' k').
Proof.
  intros Hm Hk st. unfold bind. specialize (Hm st).
  destruct (m st) as [[a st1] |], (m' st) as [[a' st1'] |];
    cbn in Hm; try contradiction.
  - destruct Hm as [Hrel <-]. apply Hk. exact Hrel.
  - subst. reflexivity.
Qed.

Lemma layer_get_equiv l l' i :
  layers_equiv l l' ->
  outcome_rel bdd_equiv (layer_get l i) (layer_get l' i).
Proof.
  intros Hl. unfold layer_get.
  destruct (i <? 0); try exact eq_refl.
  pose proof (Forall2_length _ _ _ Hl) as Hlen.
  destruct (l !! Z.to_nat i) as [cell |] eqn:Hcell.
  - destruct (Forall2_lookup_l _ _ _ _ _ Hl Hcell) as (cell' & -> & Hrel).
    destruct Hrel; cbn; auto. intros env. reflexivity.
  - apply lookup_ge_None in Hcell.
    rewrite (proj2 (lookup_ge_None l' (Z.to_nat i))) by lia.
    exact eq_refl.
Qed.

Lemma layer_set_equiv l l' i b b' :
  layers_equiv l l' -> bdd_equiv b b' ->
  outcome_rel layers_equiv (layer_set l i b) (layer_set l' i b').
Proof.
  intros Hl Hb. unfold layer_set.
  rewrite <- (Forall2_length _ _ _ Hl).
  destruct ((0 <=? i) && (i <? Z.of_nat (length l))); try exact eq_refl.
  cbn. apply Forall2_insert; [exact Hl |]. constructor. exact Hb.
Qed.

Lemma alloc_equiv n : layers_equiv (alloc n) (alloc n).
Proof.
  unfold alloc, layers_equiv. apply Forall2_replicate. constructor.
Qed.

(** Decompose a goal [M_rel R m m'] along the common structure of the two
    computations; [sub] relates the calls of loops proved before. *)
Ltac related_with sub :=
  repeat match goal with
  | Heq : ?a = _ |- _ => is_var a; subst a
  | |- M_rel _ (bind _ _) (bind _ _) => eapply M_rel_bind; [| intros ? ? ?]
  | |- M_rel _ (ret _) (ret _) => apply M_rel_ret
  | |- M_rel _ (lift (layer_get _ _)) (lift (layer_get _ _)) =>
      apply M_rel_lift, layer_get_equiv
  | |- M_rel _ (lift (layer_set _ _ _)) (lift (layer_set _ _ _)) =>
      apply M_rel_lift, layer_set_equiv
  | |- M_rel _ (look _) (look _) => apply M_rel_same
  | |- M_rel _ sweep_budget sweep_budget => apply M_rel_same
  | |- M_rel _ (read _) (read _) => apply M_rel_same
  | |- M_rel _ (move _) (move _) => apply M_rel_same
  | |- M_rel _ (raise _) (raise _) => apply M_rel_same
  | |- M_rel _ (if ?b then _ else _) (if ?b then _ else _) => destruct b
  | IH : context [M_rel _ _ _] |- M_rel _ _ _ =>
      solve [apply IH; auto with bddeq]
  | |- M_rel _ _ _ => sub
  | |- layers_equiv _ _ => solve [auto using alloc_equiv]
  | |- bdd_equiv _ _ => solve [auto 6 with bddeq]
  end;
  try solve [auto 6 using alloc_equiv with bddeq].

Ltac related := related_with fail.

Section Determinism.

Context {View0 View0' View1 View1' : Type}
        `{SetView View0} `{SetView View0'} `{SetView View1} `{SetView View1'}.
Variables (x : View0) (x' : View0') (y : View1) (y' : View1').
Hypothesis Hx : forall i, bdd_equiv (element x i) (element x' i).
Hypothesis Hy : forall i, bdd_equiv (element y i) (element y' i).
Hypothesis Hxmin : initialLubMin x = initialLubMin x'.
Hypothesis Hymin : initialLubMin y = initialLubMin y'.

#[local] Hint Resolve Hx Hy : bddeq.

Lemma rel_eq_lowest xmin ymin idx : forall l l',
  layers_equiv l l' ->
  M_rel layers_equiv (eq_lowest x y xmin ymin idx l)
                     (eq_lowest x' y' xmin ymin idx l').
Proof.
  induction idx as [| i idx IH]; intros l l' Hl; cbn [eq_lowest]; related.
Qed.

Lemma rel_eq_connect idx : forall l l',
  layers_equiv l l' ->
  M_rel layers_equiv (eq_connect idx l) (eq_connect idx l').
Proof.
  induction idx as [| i idx IH]; intros l l' Hl; cbn [eq_connect]; related.
Qed.

Lemma rel_eq_column xmin ymin idx : forall l l',
  layers_equiv l l' ->
  M_rel layers_equiv (eq_column x y xmin ymin idx l)
                     (eq_column x' y' xmin ymin idx l').
Proof.
  induction idx as [| i idx IH]; intros l l' Hl; cbn [eq_column]; related.
Qed.

Lemma rel_eq_remaining xmin ymin n fuel : forall l l',
  layers_equiv l l' ->
  M_rel layers_equiv (eq_remaining x y fuel xmin ymin n l)
                     (eq_remaining x' y' fuel xmin ymin n l').
Proof.
  induction fuel as [| fuel IH]; intros l l' Hl; cbn [eq_remaining];
    related_with ltac:(apply rel_eq_column; assumption).
Qed.

Lemma rel_extcardeq c n r :
  M_rel bdd_equiv (extcardeq x y c n r) (extcardeq x' y' c n r).
Proof.
  unfold extcardeq. rewrite <- Hxmin, <- Hymin.
  related_with ltac:(first [ apply rel_eq_lowest
                           | apply rel_eq_connect
                           | apply rel_eq_remaining ]; assumption).
Qed.

Lemma rel_lqgq_lowest xmin ymin idx : forall l l',
  layers_equiv l l' ->
  M_rel layers_equiv (lqgq_lowest x y xmin ymin idx l)
                     (lqgq_lowest x' y' xmin ymin idx l').
Proof.
  induction idx as [| i idx IH]; intros l l' Hl; cbn [lqgq_lowest]; related.
Qed.

Lemma rel_lqgq_lower_column xmin ymin cr r idx : forall l l',
  layers_equiv l l' ->
  M_rel layers_equiv (lqgq_lower_column x y xmin ymin cr r idx l)
                     (lqgq_lower_column x' y' xmin ymin cr r idx l').
Proof.
  induction idx as [| i idx IH]; intros l l' Hl;
    cbn [lqgq_lower_column]; related.
Qed.

Lemma rel_lqgq_lower xmin ymin cl cr n r fuel : forall l l',
  layers_equiv l l' ->
  M_rel layers_equiv (lqgq_lower x y fuel xmin ymin cl cr n r l)
                     (lqgq_lower x' y' fuel xmin ymin cl cr n r l').
Proof.
  induction fuel as [| fuel IH]; intros l l' Hl; cbn [lqgq_lower];
    related_with ltac:(apply rel_lqgq_lower_column; assumption).
Qed.

Lemma rel_lqgq_link xmin ymin connect idx : forall f f' l l',
  bdd_equiv f f' -> layers_equiv l l' ->
  M_rel layers_equiv (lqgq_link x y xmin ymin connect f idx l)
                     (lqgq_link x' y' xmin ymin connect f' idx l').
Proof.
  induction idx as [| i idx IH]; intros f f' l l' Hf Hl;
    cbn [lqgq_link]; related.
Qed.

Lemma rel_lqgq_upper_column xmin ymin idx : forall l l',
  layers_equiv l l' ->
  M_rel layers_equiv (lqgq_upper_column x y xmin ymin idx l)
                     (lqgq_upper_column x' y' xmin ymin idx l').
Proof.
  induction idx as [| i idx IH]; intros l l' Hl;
    cbn [lqgq_upper_column]; related.
Qed.

Lemma rel_lqgq_upper_loop xmin ymin n fuel : forall l l',
  layers_equiv l l' ->
  M_rel layers_equiv (lqgq_upper_loop x y fuel xmin ymin n l)
                     (lqgq_upper_loop x' y' fuel xmin ymin n l').
Proof.
  induction fuel as [| fuel IH]; intros l l' Hl; cbn [lqgq_upper_loop];
    related_with ltac:(apply rel_lqgq_upper_column; assumption).
Qed.

Lemma rel_lqgq_prefix cl cr n r :
  M_rel layers_equiv (lqgq_prefix x y cl cr n r)
                     (lqgq_prefix x' y' cl cr n r).
Proof.
  unfold lqgq_prefix. rewrite <- Hxmin, <- Hymin.
  related_with ltac:(first [ apply rel_lqgq_lowest
                           | apply rel_lqgq_lower ]; assumption).
Qed.

Lemma rel_lqgq_finish k cl n l l' :
  layers_equiv l l' ->
  M_rel bdd_equiv (lqgq_finish x y k cl n l) (lqgq_finish x' y' k cl n l').
Proof.
  intros Hl. destruct k; cbn [lqgq_finish]; rewrite <- ?Hxmin, <- ?Hymin;
    unfold lqgq_single, lqgq_connection, lqgq_upper;
    related_with ltac:(first [ apply rel_lqgq_link
                             | apply rel_lqgq_upper_loop ];
                       auto with bddeq).
Qed.

Lemma rel_extcardlqgq cl cr n r :
  M_rel bdd_equiv (extcardlqgq x y cl cr n r) (extcardlqgq x' y' cl cr n r).
Proof.
  unfold extcardlqgq.
  related_with ltac:(first [ apply rel_lqgq_prefix
                           | apply rel_lqgq_finish; assumption ]).
Qed.

Lemma rel_conjoin (lit : forall V : Type, SetView V -> V -> Z -> bdd) fuel :
  (forall i, bdd_equiv (lit View0 _ x i) (lit View0' _ x' i)) ->
  (forall i, bdd_equiv (lit View1 _ y i) (lit View1' _ y' i)) ->
  forall acc acc', bdd_equiv acc acc' ->
  M_rel bdd_equiv (conjoin x y fuel lit acc) (conjoin x' y' fuel lit acc').
Proof.
  intros Hlx Hly.
  induction fuel as [| fuel IH]; intros acc acc' Hacc; cbn [conjoin];
    rewrite <- ?Hxmin, <- ?Hymin; related.
Qed.

Lemma rel_run m m' st :
  M_rel bdd_equiv m m' -> outcome_rel bdd_equiv (run m st) (run m' st).
Proof.
  intros Hm. unfold run. specialize (Hm st).
  destruct (m st) as [[b st1] |], (m' st) as [[b' st1'] |];
    cbn in *; tauto.
Qed.

End Determinism.

Lemma elementNeg_equiv {V V' : Type} `{SetView V} `{SetView V'}
    (v : V) (v' : V') :
  (forall i, bdd_equiv (element v i) (element v' i)) ->
  forall i, bdd_equiv (elementNeg v i) (elementNeg v' i).
Proof.
  intros Hel i env. rewrite !elementNeg_eval, (Hel i env). reflexivity.
Qed.

(** C9.  Two runs of [extcardcheck] with the same window over views that
    are equal element by element (same upper-bound values, same least
    value, membership literals denoting the same functions) end the same
    way, and the diagrams they return denote the same boolean function. *)
Theorem extcardcheck_deterministic
    {View0 View0' View1 View1' : Type}
    `{SetView View0} `{SetView View0'} `{SetView View1} `{SetView View1'}
    (x : View0) (x' : View0') (y : View1) (y' : View1') (cl cr : Z) :
  view_equiv x x' -> view_equiv y y' ->
  outcome_rel bdd_equiv (extcardcheck x y cl cr) (extcardcheck x' y' cl cr).
Proof.
  intros (Hxl & Hxmin & Hxe) (Hyl & Hymin & Hye).
  assert (common_values x y = common_values x' y') as Hcommon.
  { unfold common_values. rewrite Hxl, Hyl. reflexivity. }
  assert (isize x y = isize x' y') as Hsize.
  { unfold isize. rewrite Hcommon. reflexivity. }
  assert (clip x y cr = clip x' y' cr) as Hclip.
  { unfold clip. rewrite Hsize. reflexivity. }
  rewrite !extcardcheck_unfold. cbv zeta.
  rewrite <- Hcommon, <- Hsize, <- Hclip.
  destruct ((cl >? isize x y) || (cl >? clip x y cr)).
  { cbn. apply bdd_equiv_refl. }
  destruct (clip x y cr =? 0).
  { apply rel_run. eapply M_rel_bind; [apply M_rel_same |].
    intros fuel ? <-.
    apply (rel_conjoin x x' y y' Hxmin Hymin (@elementNeg)).
    - apply elementNeg_equiv, Hxe.
    - apply elementNeg_equiv, Hye.
    - apply bdd_equiv_refl. }
  destruct (cl =? clip x y cr).
  { destruct (clip x y cr =? isize x y).
    - apply rel_run. eapply M_rel_bind; [apply M_rel_same |].
      intros fuel ? <-.
      apply (rel_conjoin x x' y y' Hxmin Hymin (@element));
        auto using bdd_equiv_refl.
    - apply rel_run. apply rel_extcardeq; assumption. }
  destruct ((clip x y cr =? isize x y) && (cl =? 0)).
  { cbn. apply bdd_equiv_refl. }
  apply rel_run. apply rel_extcardlqgq; assumption.
Qed.

Lemma extcardcheck_deterministic_witness :
  outcome_rel bdd_equiv
    (extcardcheck (block_view 0 4) (block_view 4 4) 1 3)
    (extcardcheck (mkTableView 0 9 0 7 [0; 1; 2; 3])
                  (mkTableView 4 5 0 3 [0; 1; 2; 3]) 1 3).
Proof.
  apply (extcardcheck_deterministic
           (block_view 0 4) (mkTableView 0 9 0 7 [0; 1; 2; 3])
           (block_view 4 4) (mkTableView 4 5 0 3 [0; 1; 2; 3]) 1 3).
  - split; [reflexivity | split; [reflexivity |]].
    intros i env. reflexivity.
  - split; [reflexivity | split; [reflexivity |]].
    intros i env. reflexivity.
Defined.

(** ** The order array of [variableorder] *)

Lemma order_write_next (done : list Z) (old : Z) (rest : list Z) (v : Z) :
  order_write (done ++ old :: rest) (Z.of_nat (length done)) v
  = Done ((done ++ [v]) ++ rest).
Proof.
  unfold order_write.
  destruct (Z.leb_spec 0 (Z.of_nat (length done))) as [_ | Hneg]; [| lia].
  destruct (Z.ltb_spec (Z.of_nat (length done))
              (Z.of_nat (length (done ++ old :: rest)))) as [_ | Hge].
  - cbn [andb]. rewrite Nat2Z.id.
    replace (length done) with (length done + 0)%nat at 1 by lia.
    rewrite insert_app_r. cbn. rewrite <- app_assoc. reflexivity.
  - rewrite length_app in Hge. cbn in Hge. lia.
Qed.

Lemma order_identity_spec (k : nat) : forall (done rest : list Z) (c : Z),
  (k <= length rest)%nat ->
  Z.of_nat (length done) + Z.of_nat k <= INT_MAX ->
  order_identity
    (zrange (Z.of_nat (length done)) (Z.of_nat (length done) + Z.of_nat k))
    (done ++ rest) c
  = Done (done
          ++ zrange (Z.of_nat (length done))
                    (Z.of_nat (length done) + Z.of_nat k)
          ++ drop k rest,
          c + Z.of_nat k).
Proof.
  induction k as [| k IH]; intros done rest c Hrest Hmax.
  - rewrite zrange_nil by lia. cbn [order_identity app drop].
    f_equal. f_equal. lia.
  - rewrite zrange_cons by lia. cbn [order_identity].
    destruct rest as [| old rest]; [cbn in Hrest; lia |].
    rewrite order_write_next.
    rewrite to_int_id by (unfold INT_MAX in Hmax; lia).
    specialize (IH (done ++ [Z.of_nat (length done)]) rest (c + 1)).
    rewrite length_app in IH. cbn [length] in IH.
    replace (Z.of_nat (length done + 1)) with (Z.of_nat (length done) + 1)
      in IH by lia.
    replace (Z.of_nat (length done) + 1 + Z.of_nat k)
      with (Z.of_nat (length done) + Z.of_nat (S k)) in IH by lia.
    rewrite IH by (cbn in Hrest; lia).
    rewrite <- app_assoc. cbn [app drop]. f_equal. f_equal. lia.
Qed.

Section OrderProofs.

Context {View : Type} `{SetView View}.

Lemma offset_width_bounds_offset (x : list View) : forall mo mw,
  0 <= mo -> (forall xi, In xi x -> 0 <= offset xi) ->
  0 <= fst (offset_width_bounds x mo mw).
Proof.
  induction x as [| xi x IH]; intros mo mw Hmo Hall;
    cbn [offset_width_bounds].
  - exact Hmo.
  - apply IH.
    + destruct (offset xi <? mo); [apply Hall; left; reflexivity | exact Hmo].
    + intros xj Hin. apply Hall. right. exact Hin.
Qed.

(** One column: the slots of the views are written one after the other
    from position [c]. *)
Lemma order_column_spec (f : Z) (x : list View) :
  forall (done rest : list Z),
  0 <= f ->
  (forall xi, In xi x ->
     0 <= offset xi /\ 0 <= tableWidth xi
     /\ offset xi + tableWidth xi <= INT_MAX
     /\ offset xi + f <= INT_MAX) ->
  (length (column_slots f x) <= length rest)%nat ->
  order_column f x (done ++ rest) (Z.of_nat (length done))
  = Done (done ++ column_slots f x
          ++ drop (length (column_slots f x)) rest,
          Z.of_nat (length done)
          + Z.of_nat (length (column_slots f x))).
Proof.
  induction x as [| xi x IH]; intros done rest Hf Hall Hrest.
  - cbn. f_equal. f_equal. lia.
  - cbn [order_column].
    destruct (Hall xi (or_introl eq_refl)) as (Ho & Hw & How & Hof).
    unfold INT_MAX in How, Hof.
    rewrite (to_int_id (offset xi)) by lia.
    rewrite (to_int_id (tableWidth xi)) by lia.
    rewrite (to_unsigned_id (offset xi)) by lia.
    rewrite (to_int_id (offset xi + f)) by lia.
    assert (forall xj, In xj x ->
              0 <= offset xj /\ 0 <= tableWidth xj
              /\ offset xj + tableWidth xj <= INT_MAX
              /\ offset xj + f <= INT_MAX) as Hall'.
    { intros xj Hin. apply Hall. right. exact Hin. }
    unfold column_slots in *. cbn [flat_map] in *.
    destruct (offset xi + f <? offset xi + tableWidth xi).
    + cbn [app length] in *.
      destruct rest as [| old rest]; [cbn in Hrest; lia |].
      rewrite order_write_next.
      specialize (IH (done ++ [offset xi + f]) rest Hf Hall').
      rewrite length_app in IH. cbn [length] in IH.
      replace (Z.of_nat (length done) + 1)
        with (Z.of_nat (length done + 1)) by lia.
      rewrite IH by (cbn in Hrest; lia).
      rewrite <- app_assoc. cbn [app drop]. f_equal. f_equal. lia.
    + cbn [app] in *. apply IH; assumption.
Qed.

Lemma order_scope_spec (cols : list Z) (x : list View) :
  forall (done rest : list Z),
  (forall f, In f cols -> 0 <= f) ->
  (forall f xi, In f cols -> In xi x ->
     0 <= offset xi /\ 0 <= tableWidth xi
     /\ offset xi + tableWidth xi <= INT_MAX
     /\ offset xi + f <= INT_MAX) ->
  (length (flat_map (fun f => column_slots f x) cols) <= length rest)%nat ->
  order_scope cols x (done ++ rest) (Z.of_nat (length done))
  = Done (done ++ flat_map (fun f => column_slots f x) cols
          ++ drop (length (flat_map (fun f => column_slots f x) cols)) rest,
          Z.of_nat (length done)
          + Z.of_nat (length (flat_map (fun f => column_slots f x) cols))).
Proof.
  induction cols as [| f cols IH]; intros done rest Hcols Hall Hrest.
  - cbn. f_equal. f_equal. lia.
  - cbn [order_scope flat_map] in *. rewrite length_app in Hrest.
    rewrite order_column_spec; [| apply Hcols; left; reflexivity | | lia].
    2:{ intros xi Hin. apply Hall; [left; reflexivity | exact Hin]. }
    specialize (IH (done ++ column_slots f x)
                   (drop (length (column_slots f x)) rest)).
    rewrite app_assoc.
    replace (Z.of_nat (length done) + Z.of_nat (length (column_slots f x)))
      with (Z.of_nat (length (done ++ column_slots f x)))
      by (rewrite length_app; lia).
    rewrite IH.
    + rewrite drop_drop, !length_app, <- !app_assoc.
      f_equal. f_equal. lia.
    + intros g Hin. apply Hcols. right. exact Hin.
    + intros g xi Hg Hin. apply Hall; [right; exact Hg | exact Hin].
    + rewrite length_drop. lia.
Qed.

End OrderProofs.

Lemma zrange_In lo hi k : In k (zrange lo hi) <-> lo <= k < hi.
Proof.
  unfold zrange. rewrite in_map_iff. split.
  - intros (j & <- & Hj). apply in_seq in Hj. lia.
  - intros Hk. exists (Z.to_nat (k - lo)). split; [lia |].
    apply in_seq. lia.
Qed.

Lemma order_identity_from (a b : Z) (done rest : list Z) (c : Z) :
  a = Z.of_nat (length done) -> a <= b ->
  b - a <= Z.of_nat (length rest) -> b <= INT_MAX ->
  order_identity (zrange a b) (done ++ rest) c
  = Done (done ++ zrange a b ++ drop (Z.to_nat (b - a)) rest, c + (b - a)).
Proof.
  intros -> Hab Hrest Hmax.
  pose proof (order_identity_spec (Z.to_nat (b - Z.of_nat (length done)))
                done rest c) as Hspec.
  replace (Z.of_nat (length done)
           + Z.of_nat (Z.to_nat (b - Z.of_nat (length done))))
    with b in Hspec by lia.
  rewrite Hspec by lia. f_equal. f_equal. lia.
Qed.

(** What [variableorder] installs.  For a non-empty collection that fits
    the table, [variableorder] installs: identity below the minimum offset;
    then, column by column, slot [offset + f] of each view in collection
    order when it lies inside the view's width; then every remaining
    position [i] holds [i]. *)
Theorem variableorder_installs_planned_order
    {View : Type} `{SetView View} (var_in_tab : Z) (x : list View) :
  x <> [] ->
  order_fits var_in_tab x ->
  variableorder var_in_tab x = Done (planned_order var_in_tab x).
Proof.
  intros Hne Hfits.
  destruct x as [| x0 x']; [contradiction |]. clear Hne.
  unfold variableorder, planned_order, order_fits, collection_bounds in *.
  pose proof (offset_width_bounds_offset (x0 :: x') (offset x0)
                (tableWidth x0)) as Hmo.
  destruct (offset_width_bounds (x0 :: x') (offset x0) (tableWidth x0))
    as [mo mw] eqn:Hbounds.
  destruct Hfits as ((Hn0 & Hnmax) & Hall & Hroom).
  cbn [fst] in Hmo.
  assert (0 <= mo) as Hmo0.
  { apply Hmo.
    - apply (Hall x0). left. reflexivity.
    - intros xi Hin. apply (Hall xi Hin). }
  clear Hmo.
  set (scope := scope_slots mw (x0 :: x')) in *.
  set (table := replicate (Z.to_nat var_in_tab) 0).
  assert (length table = Z.to_nat var_in_tab) as Htable
    by apply length_replicate.
  (* below the minimum offset *)
  change table with ([] ++ table).
  rewrite (order_identity_from 0 mo [] table 0) by (cbn; lia).
  cbn [app]. rewrite Z.sub_0_r, Z.add_0_l.
  (* the columns *)
  assert (length (zrange 0 mo) = Z.to_nat mo) as Hlen1.
  { rewrite zrange_length. f_equal. lia. }
  replace mo with (Z.of_nat (length (zrange 0 mo))) at 3 by lia.
  rewrite (order_scope_spec (zrange 0 mw) (x0 :: x')).
  2:{ intros f Hf. apply zrange_In in Hf. lia. }
  2:{ intros f xi Hf Hin. apply zrange_In in Hf.
      destruct (Hall xi Hin) as (Ho & Hw & How & Hom).
      repeat split; lia. }
  2:{ fold (scope_slots mw (x0 :: x')). fold scope.
      rewrite length_drop. lia. }
  fold (scope_slots mw (x0 :: x')). fold scope.
  (* the remaining positions *)
  rewrite Hlen1, drop_drop.
  rewrite to_unsigned_id by (unfold INT_MAX in Hnmax; lia).
  rewrite app_assoc.
  rewrite (order_identity_from _ var_in_tab).
  - rewrite drop_ge.
    + rewrite app_nil_r, length_app, Hlen1. f_equal. f_equal. f_equal. lia.
    + rewrite length_drop. lia.
  - rewrite length_app, Hlen1. lia.
  - lia.
  - rewrite length_drop. lia.
  - exact Hnmax.
Qed.

Lemma variableorder_installs_planned_order_witness :
  variableorder 5 [block_view 0 2; block_view 3 2]
  = Done (planned_order 5 [block_view 0 2; block_view 3 2]).
Proof.
  apply (variableorder_installs_planned_order
           5 [block_view 0 2; block_view 3 2]).
  - discriminate.
  - unfold order_fits. cbn. split; [| split].
    + unfold INT_MAX. lia.
    + intros xi [<- | [<- | []]]; cbn; unfold INT_MAX; lia.
    + vm_compute. discriminate.
Defined.

(** C3 at a failing input, the example of the claim.  Two views with
    offsets 0 and 3 and width 2 each among 5 slots leave slot 2 in no
    block.  [variableorder] installs [0,3,1,4,4]: the last loop writes
    [hls_order[i] = i] for the positions from 4 on, so slot 4 is placed
    twice and slot 2 never.  What is handed to [manager.setorder] is not
    an order of the 5 slots; placing the remaining slot would give the
    [0,3,1,4,2] of the claim. *)
Theorem variableorder_gap_slot_never_placed :
  exists order,
    variableorder 5 [block_view 0 2; block_view 3 2] = Done order
    /\ order = [0; 3; 1; 4; 4]
    /\ order <> [0; 3; 1; 4; 2]
    /\ ~ In 2 order
    /\ ~ NoDup order.
Proof.
  exists [0; 3; 1; 4; 4].
  split; [reflexivity | split; [reflexivity | split; [discriminate |]]].
  split.
  - cbn [In]. intros Hin. repeat destruct Hin as [Hin | Hin]; lia.
  - intros Hdup. rewrite !NoDup_cons in Hdup.
    destruct Hdup as (_ & _ & _ & Hfour & _).
    apply Hfour. left.
Qed.

(** ** testConsistency *)

Section ConsistencyProofs.

Variable lim : SetLimits.

Lemma check_card_negative cardMin cardMax location :
  cardMax < 0 ->
  check_card lim cardMin cardMax location
  = Throw (VariableFailedDomain location).
Proof.
  intros Hneg. unfold check_card.
  rewrite (proj2 (Z.ltb_lt cardMax 0) Hneg). reflexivity.
Qed.

Lemma check_card_too_large cardMin cardMax location :
  0 <= cardMax <= INT_MAX -> cardMax > limits_card lim ->
  check_card lim cardMin cardMax location
  = Throw (VariableOutOfRangeCardinality location).
Proof.
  intros Hrange Hbig. unfold check_card.
  rewrite (proj2 (Z.ltb_ge cardMax 0)) by lia.
  rewrite to_unsigned_id by (unfold INT_MAX in Hrange; lia).
  rewrite (proj2 (Z.gtb_gt cardMax (limits_card lim))) by lia.
  reflexivity.
Qed.

Lemma check_card_window cardMin cardMax location :
  0 <= cardMax <= INT_MAX -> cardMax <= limits_card lim ->
  cardMin > cardMax \/ cardMin < 0 ->
  check_card lim cardMin cardMax location
  = Throw (VariableFailedDomain location).
Proof.
  intros Hrange Hsmall Hwin. unfold check_card.
  rewrite (proj2 (Z.ltb_ge cardMax 0)) by lia.
  rewrite to_unsigned_id by (unfold INT_MAX in Hrange; lia).
  rewrite Z.gtb_ltb, (proj2 (Z.ltb_ge (limits_card lim) cardMax)) by lia.
  replace ((cardMin >? cardMax) || (cardMin <? 0)) with true; [reflexivity |].
  symmetry. apply orb_true_iff.
  destruct Hwin; [left; apply Z.gtb_gt | right; apply Z.ltb_lt]; lia.
Qed.

(** Within the value limits, the first block passes or signals
    [FailedDomain]. *)
Lemma check_glb_within glb lub location :
  (IntSet_size glb > 0 ->
   limits_min lim <= IntSet_min glb /\ IntSet_max glb <= limits_max lim) ->
  check_glb lim glb lub location = Pass
  \/ check_glb lim glb lub location = Throw (VariableFailedDomain location).
Proof.
  intros Hin. unfold check_glb.
  destruct (Z.gtb_spec (IntSet_size glb) 0) as [Hne | He]; [| auto].
  destruct (negb (IntSet_size lub >? 0) || (IntSet_min glb >? IntSet_max glb));
    [auto |].
  destruct Hin as [Hlo Hhi]; [lia |].
  rewrite (proj2 (Z.ltb_ge _ _) Hlo).
  rewrite Z.gtb_ltb, (proj2 (Z.ltb_ge _ _) Hhi). cbn [orb].
  destruct ((IntSet_min glb <? IntSet_min lub)
            || (IntSet_min glb >? IntSet_max lub)
            || ((IntSet_max glb >? IntSet_max lub)
                || (IntSet_max glb <? IntSet_min lub))); auto.
Qed.

Lemma check_lub_within lub location :
  (IntSet_size lub > 0 ->
   limits_min lim <= IntSet_min lub /\ IntSet_max lub <= limits_max lim) ->
  check_lub lim lub location = Pass
  \/ check_lub lim lub location = Throw (VariableFailedDomain location).
Proof.
  intros Hin. unfold check_lub.
  destruct (Z.gtb_spec (IntSet_size lub) 0) as [Hne | He]; [| auto].
  destruct Hin as [Hlo Hhi]; [lia |].
  rewrite (proj2 (Z.ltb_ge _ _) Hlo).
  rewrite Z.gtb_ltb, (proj2 (Z.ltb_ge _ _) Hhi). cbn [orb].
  destruct (IntSet_min lub >? IntSet_max lub); auto.
Qed.

(** A required range inside the value limits that is not contained in the
    allowed range makes the first block signal [FailedDomain]. *)
Lemma check_glb_not_contained glb lub location :
  IntSet_size glb > 0 ->
  limits_min lim <= IntSet_min glb -> IntSet_max glb <= limits_max lim ->
  IntSet_size lub = 0
  \/ ~ (IntSet_min lub <= IntSet_min glb /\ IntSet_max glb <= IntSet_max lub) ->
  check_glb lim glb lub location = Throw (VariableFailedDomain location).
Proof.
  intros Hne Hlo Hhi Hout. unfold check_glb.
  rewrite (proj2 (Z.gtb_gt _ _)) by lia.
  destruct (negb (IntSet_size lub >? 0) || (IntSet_min glb >? IntSet_max glb))
    eqn:Hfirst; [reflexivity |].
  apply orb_false_iff in Hfirst as [Hlub _].
  apply negb_false_iff, Z.gtb_gt in Hlub.
  rewrite (proj2 (Z.ltb_ge _ _) Hlo).
  rewrite Z.gtb_ltb, (proj2 (Z.ltb_ge _ _) Hhi). cbn [orb].
  destruct Hout as [Hempty | Hout]; [lia |].
  replace ((IntSet_min glb <? IntSet_min lub)
           || (IntSet_min glb >? IntSet_max lub)
           || ((IntSet_max glb >? IntSet_max lub)
               || (IntSet_max glb <? IntSet_min lub))) with true;
    [reflexivity |].
  symmetry.
  destruct (Z.ltb_spec (IntSet_min glb) (IntSet_min lub)); [reflexivity |].
  destruct (Z.gtb_spec (IntSet_max glb) (IntSet_max lub));
    [rewrite orb_true_r; reflexivity |].
  exfalso. apply Hout. lia.
Qed.

End ConsistencyProofs.

(** C5, as the code has it.  With the value bounds inside the global value
    limits: [testConsistency] returns normally for required [2,5], allowed
    [0,10], cardMin 1, cardMax 3; it signals [FailedDomain] whenever the
    required range is non-empty and not contained in the allowed one; and,
    when also [cardMax] does not exceed the global cardinality limit, it
    signals [FailedDomain] whenever [cardMin > cardMax]. *)
Theorem testConsistency_within_limits
    (lim : SetLimits) (glb lub : IntSet) (cardMin cardMax : Z)
    (location : string) :
  (IntSet_size glb > 0 ->
   limits_min lim <= IntSet_min glb /\ IntSet_max glb <= limits_max lim) ->
  (limits_min lim <= 0 /\ 10 <= limits_max lim /\ 3 <= limits_card lim ->
   testConsistency lim [(2, 5)] [(0, 10)] 1 3 location = Pass)
  /\ (IntSet_size glb > 0 ->
      IntSet_size lub = 0
      \/ ~ (IntSet_min lub <= IntSet_min glb
            /\ IntSet_max glb <= IntSet_max lub) ->
      testConsistency lim glb lub cardMin cardMax location
      = Throw (VariableFailedDomain location))
  /\ ((IntSet_size lub > 0 ->
       limits_min lim <= IntSet_min lub /\ IntSet_max lub <= limits_max lim) ->
      - 2 ^ 31 <= cardMax <= INT_MAX -> cardMax <= limits_card lim ->
      cardMin > cardMax ->
      testConsistency lim glb lub cardMin cardMax location
      = Throw (VariableFailedDomain location)).
Proof.
  intros Hglb. split; [| split].
  - intros (Hmin & Hmax & Hcard).
    unfold testConsistency, check_glb, check_lub, check_card.
    cbn [IntSet_size IntSet_min IntSet_max length List.last Z.of_nat].
    rewrite (to_unsigned_id 3) by lia.
    repeat match goal with
    | |- context [?a <? ?b] =>
        first [ rewrite (proj2 (Z.ltb_ge a b)) by lia
              | rewrite (proj2 (Z.ltb_lt a b)) by lia ]
    | |- context [?a >? ?b] => rewrite (Z.gtb_ltb a b)
    end.
    reflexivity.
  - intros Hne Hout. unfold testConsistency.
    rewrite check_glb_not_contained by (try apply Hglb; assumption).
    reflexivity.
  - intros Hlub Hint Hcard Hwin. unfold testConsistency.
    destruct (check_glb_within lim glb lub location Hglb) as [-> | ->];
      [| reflexivity].
    destruct (check_lub_within lim lub location Hlub) as [-> | ->];
      [| reflexivity].
    cbn [and_then].
    destruct (Z.lt_ge_cases cardMax 0) as [Hneg | Hpos].
    + apply check_card_negative. exact Hneg.
    + apply check_card_window; [| | left]; lia.
Qed.

Lemma testConsistency_within_limits_witness :
  testConsistency gecode_limits [(2, 5)] [(3, 4)] 4 2 "CpltSetVar"
  = Throw (VariableFailedDomain "CpltSetVar").
Proof.
  refine (proj1 (proj2 (testConsistency_within_limits
                          gecode_limits [(2, 5)] [(3, 4)] 4 2 "CpltSetVar" _)) _ _).
  - intros _. vm_compute. split; discriminate.
  - vm_compute. reflexivity.
  - right. vm_compute. intros [Hlo _]. apply Hlo. reflexivity.
Defined.

(** C5, as stated, fails where an earlier or a different signal comes
    first: with all value bounds inside the limits, [cardMin > cardMax]
    above the cardinality limit signals [OutOfRangeCardinality]; and a
    required range below the value limits that is not contained in the
    allowed range signals [OutOfRangeDomain]. *)
Lemma testConsistency_failed_domain_counterexample :
  testConsistency gecode_limits [(2, 5)] [(0, 10)] 2147483647 2147483646 "CpltSetVar"
  = Throw (VariableOutOfRangeCardinality "CpltSetVar")
  /\ testConsistency gecode_limits [(-2000000000, 5)] [(0, 10)] 1 3 "CpltSetVar"
     = Throw (VariableOutOfRangeDomain "CpltSetVar").
Proof. split; reflexivity. Qed.

(** C6, as the code has it.  When the two range blocks pass:
    [cardMax < 0] signals [FailedDomain]; [cardMax] above the global
    cardinality limit signals [OutOfRangeCardinality]; and [cardMin]
    outside [0, cardMax] signals [FailedDomain]. *)
Theorem testConsistency_cardinality_checks
    (lim : SetLimits) (glb lub : IntSet) (cardMin cardMax : Z)
    (location : string) :
  check_glb lim glb lub location = Pass ->
  check_lub lim lub location = Pass ->
  - 2 ^ 31 <= cardMax <= INT_MAX ->
  0 <= limits_card lim ->
  (cardMax < 0 ->
   testConsistency lim glb lub cardMin cardMax location
   = Throw (VariableFailedDomain location))
  /\ (cardMax > limits_card lim ->
      testConsistency lim glb lub cardMin cardMax location
      = Throw (VariableOutOfRangeCardinality location))
  /\ (0 <= cardMax <= limits_card lim ->
      cardMin < 0 \/ cardMin > cardMax ->
      testConsistency lim glb lub cardMin cardMax location
      = Throw (VariableFailedDomain location)).
Proof.
  intros Hglb Hlub Hint Hcard. unfold testConsistency.
  rewrite Hglb, Hlub. cbn [and_then]. split; [| split].
  - apply check_card_negative.
  - intros Hbig. apply check_card_too_large; lia.
  - intros Hrange Hwin. apply check_card_window; [lia | lia |].
    destruct Hwin; [right | left]; assumption.
Qed.

Lemma testConsistency_cardinality_checks_witness :
  testConsistency gecode_limits [(2, 5)] [(0, 10)] 1 2147483646 "CpltSetVar"
  = Throw (VariableOutOfRangeCardinality "CpltSetVar").
Proof.
  refine (proj1 (proj2 (testConsistency_cardinality_checks
                          gecode_limits [(2, 5)] [(0, 10)] 1 2147483646 "CpltSetVar"
                          _ _ _ _)) _).
  - vm_compute. reflexivity.
  - vm_compute. reflexivity.
  - vm_compute. split; discriminate.
  - vm_compute. discriminate.
  - vm_compute. reflexivity.
Defined.

(** C6, as stated, fails: a maximum cardinality above the global limit
    signals [OutOfRangeCardinality], not [OutOfRangeDomain]; and with an
    allowed range outside the value limits a negative [cardMax] is never
    reached. *)
Lemma testConsistency_cardinality_counterexample :
  testConsistency gecode_limits [] [] 0 2147483646 "CpltSetVar"
  = Throw (VariableOutOfRangeCardinality "CpltSetVar")
  /\ testConsistency gecode_limits [] [] 0 2147483646 "CpltSetVar"
     <> Throw (VariableOutOfRangeDomain "CpltSetVar")
  /\ testConsistency gecode_limits [] [(0, 2000000000)] 0 (-1) "CpltSetVar"
     = Throw (VariableOutOfRangeDomain "CpltSetVar").
Proof. split; [reflexivity | split; [discriminate | reflexivity]]. Qed.

(** ** Running the builder monad *)

Lemma bind_Done {A B : Type} (m : M A) (k : A -> M B) st res :
  bind m k st = Done res ->
  exists a st', m st = Done (a, st') /\ k a st' = Done res.
Proof.
  unfold bind. destruct (m st) as [[a st'] |]; [| discriminate].
  intros Hk. exists a, st'. auto.
Qed.

Lemma ret_Done {A : Type} (a b : A) st st' :
  ret a st = Done (b, st') -> b = a /\ st' = st.
Proof. intros Hrun. injection Hrun as <- <-. auto. Qed.

Lemma lift_Done {A : Type} (o : outcome A) a st st' :
  lift o st = Done (a, st') -> o = Done a /\ st' = st.
Proof.
  unfold lift. destruct o; [| discriminate].
  intros Hrun. injection Hrun as <- <-. auto.
Qed.

Lemma read_Done {A : Type} (f : ValCache.t -> outcome A) a st st' :
  read f st = Done (a, st') -> f st = Done a /\ st' = st.
Proof. unfold read. apply lift_Done. Qed.

Lemma look_Done {A : Type} (f : ValCache.t -> A) a st st' :
  look f st = Done (a, st') -> a = f st /\ st' = st.
Proof. intros Hrun. injection Hrun as <- <-. auto. Qed.

Lemma move_Done (f : ValCache.t -> ValCache.t) a st st' :
  move f st = Done (a, st') -> st' = f st.
Proof. intros Hrun. injection Hrun as _ <-. reflexivity. Qed.

Lemma bind_assoc {A B C : Type} (m : M A) (k : A -> M B) (k' : B -> M C) st :
  bind (bind m k) k' st = bind m (fun a => bind (k a) k') st.
Proof. unfold bind. destruct (m st) as [[a st'] |]; reflexivity. Qed.

Lemma bind_cong_l {A B : Type} (m m' : M A) (k : A -> M B) st :
  m st = m' st -> bind m k st = bind m' k st.
Proof. intros Heq. unfold bind. rewrite Heq. reflexivity. Qed.

Lemma bind_ret {A B : Type} (a : A) (k : A -> M B) st :
  bind (ret a) k st = k a st.
Proof. reflexivity. Qed.

Lemma bind_look {A B : Type} (f : ValCache.t -> A) (k : A -> M B) st :
  bind (look f) k st = k (f st) st.
Proof. reflexivity. Qed.

Lemma bind_move {B : Type} (f : ValCache.t -> ValCache.t) (k : unit -> M B) st :
  bind (move f) k st = k tt (f st).
Proof. reflexivity. Qed.

Lemma bind_read {A B : Type} (f : ValCache.t -> outcome A) (k : A -> M B)
    st a :
  f st = Done a -> bind (read f) k st = k a st.
Proof. intros Hf. unfold bind, read. rewrite Hf. reflexivity. Qed.

Lemma bind_lift {A B : Type} (o : outcome A) (k : A -> M B) st a :
  o = Done a -> bind (lift o) k st = k a st.
Proof. intros ->. reflexivity. Qed.

(** Take a run [m st = Done _] apart along the binds of [m]. *)
Ltac run_inv H :=
  repeat match type of H with
  | bind _ _ _ = Done _ =>
      let a := fresh "a" in
      let st := fresh "st" in
      let Hm := fresh "Hm" in
      apply bind_Done in H as (a & st & Hm & H);
      first [ apply read_Done in Hm as [Hm ->]
            | apply look_Done in Hm as [-> ->]
            | apply move_Done in Hm as ->
            | apply lift_Done in Hm as [Hm ->]
            | apply ret_Done in Hm as [-> ->]
            | idtac ]
  end.

(** ** Cells of the layer array *)

Lemma layer_set_Done layer i b l' :
  layer_set layer i b = Done l' ->
  0 <= i < Z.of_nat (length layer)
  /\ l' = <[Z.to_nat i := Some b]> layer.
Proof.
  unfold layer_set.
  destruct (Z.leb_spec 0 i); [| discriminate].
  destruct (Z.ltb_spec i (Z.of_nat (length layer))); [| discriminate].
  cbn [andb]. intros Hrun. injection Hrun as <-. auto.
Qed.

Lemma layer_set_in_range layer i b :
  0 <= i < Z.of_nat (length layer) ->
  layer_set layer i b = Done (<[Z.to_nat i := Some b]> layer).
Proof.
  intros Hi. unfold layer_set.
  rewrite (proj2 (Z.leb_le 0 i)), (proj2 (Z.ltb_lt _ _)) by lia.
  reflexivity.
Qed.

Lemma layer_get_cell layer i b :
  0 <= i -> layer !! Z.to_nat i = Some (Some b) ->
  layer_get layer i = Done b.
Proof.
  intros Hi Hcell. unfold layer_get.
  rewrite (proj2 (Z.ltb_ge i 0)) by lia. rewrite Hcell. reflexivity.
Qed.

Lemma cells_set_get layer k i :
  cells_set layer k -> 0 <= i < k -> exists b, layer_get layer i = Done b.
Proof.
  intros Hcells Hi. destruct (Hcells i Hi) as [b Hb].
  exists b. apply layer_get_cell; [lia | exact Hb].
Qed.

Lemma cells_set_length layer k i :
  cells_set layer k -> 0 <= i < k -> i < Z.of_nat (length layer).
Proof.
  intros Hcells Hi. destruct (Hcells i Hi) as [b Hb].
  apply lookup_lt_Some in Hb. lia.
Qed.

Lemma cells_set_insert layer k i b :
  cells_set layer k -> 0 <= i < Z.of_nat (length layer) -> i <= k ->
  cells_set (<[Z.to_nat i := Some b]> layer) (Z.max k (i + 1)).
Proof.
  intros Hcells Hi Hik j Hj.
  destruct (Z.eq_dec j i) as [-> | Hne].
  - exists b. apply list_lookup_insert_eq. lia.
  - rewrite list_lookup_insert_ne by lia.
    apply Hcells. lia.
Qed.

Lemma cells_set_weaken layer k k' :
  cells_set layer k -> k' <= k -> cells_set layer k'.
Proof. intros Hcells Hle j Hj. apply Hcells. lia. Qed.

(** ** The single-layer case of [extcardlqgq] *)

Lemma set_c_same st k : ValCache.c st = k -> ValCache.set_c k st = st.
Proof. destruct st. cbn. intros ->. reflexivity. Qed.

Lemma c_set_c st k : ValCache.c (ValCache.set_c k st) = k.
Proof. reflexivity. Qed.

Lemma n_set_c st k : ValCache.n (ValCache.set_c k st) = ValCache.n st.
Proof. reflexivity. Qed.

Lemma r_set_c st k : ValCache.r (ValCache.set_c k st) = ValCache.r st.
Proof. reflexivity. Qed.

Lemma set_c_set_c st k k' :
  ValCache.set_c k (ValCache.set_c k' st) = ValCache.set_c k st.
Proof. reflexivity. Qed.

Lemma val_in_range st :
  ValCache.n st = Z.of_nat (length (ValCache.r st)) ->
  0 <= ValCache.c st < ValCache.n st ->
  exists v, ValCache.val st = Done v.
Proof.
  intros Hn Hc. unfold ValCache.val.
  rewrite (proj2 (Z.ltb_ge _ _)) by lia.
  destruct (lookup_lt_is_Some_2 (ValCache.r st) (Z.to_nat (ValCache.c st)))
    as [v Hv]; [lia |].
  rewrite Hv. eauto.
Qed.

Section SingleLayer.

Context {View0 View1 : Type} `{SetView View0} `{SetView View1}.
Variables (x : View0) (y : View1).
Variables (xmin ymin : Z).

(** The linking loop only consults [connect] at the indices it visits. *)
Lemma lqgq_link_ext connect connect' idx : forall f layer st,
  (forall i, In i idx -> connect i = connect' i) ->
  lqgq_link x y xmin ymin connect f idx layer st
  = lqgq_link x y xmin ymin connect' f idx layer st.
Proof.
  induction idx as [| i idx IH]; intros f layer st Hagree; [reflexivity |].
  cbn [lqgq_link]. rewrite (Hagree i (or_introl eq_refl)).
  unfold bind.
  destruct (read ValCache.min st) as [[col st1] |]; [| reflexivity].
  destruct ((if i =? 0 then ret bdd_false
             else lift (layer_get layer (i - 1))) st1)
    as [[t st2] |]; [| reflexivity].
  destruct ((if negb (i =? 0) && connect' i
             then lift (layer_get layer i) else ret f) st2)
    as [[f' st3] |]; [| reflexivity].
  destruct (lift (layer_set layer i
                    (ite (element x (col - xmin))
                         (ite (element y (col - ymin)) t f') f')) st3)
    as [[l1 st4] |]; [| reflexivity].
  destruct (move ValCache.retreat st4) as [[u st5] |]; [| reflexivity].
  destruct (look ValCache.valid st5) as [[ok st6] |]; [| reflexivity].
  destruct (negb ok); [reflexivity |].
  apply IH. intros j Hj. apply Hagree. right. exact Hj.
Qed.

(** A linking pass that starts at column [i0] with the cursor [i0]
    positions below the last one visits every remaining column: it ends
    with all [n] cells assigned and the cursor at -1. *)
Lemma lqgq_link_post connect (n : Z) (k : nat) :
  forall i0 f layer st l1 st2,
  ValCache.n st = n -> i0 = n - Z.of_nat k -> 0 <= i0 ->
  ValCache.c st = n - 1 - i0 ->
  cells_set layer i0 ->
  lqgq_link x y xmin ymin connect f (zrange i0 n) layer st = Done (l1, st2) ->
  cells_set l1 n /\ st2 = ValCache.set_c (-1) st.
Proof.
  induction k as [| k IH]; intros i0 f layer st l1 st2 Hn Hi0 Hpos Hc Hcells Hrun.
  - rewrite zrange_nil in Hrun by lia. cbn [lqgq_link] in Hrun.
    apply ret_Done in Hrun as [-> ->].
    replace n with i0 by lia. split; [exact Hcells |].
    symmetry. apply set_c_same. lia.
  - rewrite zrange_cons in Hrun by lia. cbn [lqgq_link] in Hrun.
    apply bind_Done in Hrun as (col & st' & Hcol & Hrun).
    apply read_Done in Hcol as [Hcol ->].
    apply bind_Done in Hrun as (t & st' & Ht & Hrun).
    assert (st' = st) as ->.
    { destruct (i0 =? 0);
        [apply ret_Done in Ht as [_ ->] | apply lift_Done in Ht as [_ ->]];
        reflexivity. }
    apply bind_Done in Hrun as (f' & st' & Hf' & Hrun).
    assert (st' = st) as ->.
    { destruct (negb (i0 =? 0) && connect i0);
        [apply lift_Done in Hf' as [_ ->] | apply ret_Done in Hf' as [_ ->]];
        reflexivity. }
    run_inv Hrun.
    apply layer_set_Done in Hm as [Hrange ->].
    assert (cells_set (<[Z.to_nat i0 := Some
                (ite (element x (col - xmin))
                   (ite (element y (col - ymin)) t f') f')]> layer)
              (i0 + 1)) as Hcells'.
    { eapply cells_set_weaken;
        [apply cells_set_insert; [exact Hcells | exact Hrange | lia] | lia]. }
    unfold ValCache.valid, ValCache.retreat in Hrun.
    rewrite c_set_c, n_set_c, Hc, Hn in Hrun.
    destruct (Z.ltb_spec (-1) (n - 1 - i0 - 1)) as [Hmore | Hlast].
    + rewrite (proj2 (Z.ltb_lt (n - 1 - i0 - 1) n)) in Hrun by lia.
      cbn [andb negb] in Hrun.
      apply (IH (i0 + 1)) in Hrun.
      * rewrite set_c_set_c in Hrun. exact Hrun.
      * rewrite n_set_c. exact Hn.
      * lia.
      * lia.
      * rewrite c_set_c. lia.
      * exact Hcells'.
    + cbn [andb negb] in Hrun. apply ret_Done in Hrun as [-> ->].
      split.
      * replace n with (i0 + 1) by lia. exact Hcells'.
      * f_equal. lia.
Qed.

(** A column sweep of the layers for [cr] that starts at column [i0] with
    the cursor at position [k] runs off the cache after [k + 1] columns;
    the cells above column [i0 + k] keep their handles. *)
Lemma lqgq_upper_column_run (hi : Z) (k : nat) :
  forall i0 layer st,
  ValCache.n st = Z.of_nat (length (ValCache.r st)) ->
  ValCache.c st = Z.of_nat k -> Z.of_nat k < ValCache.n st ->
  0 <= i0 -> i0 + Z.of_nat k < hi ->
  cells_set layer (i0 + Z.of_nat k + 1) ->
  exists l',
    lqgq_upper_column x y xmin ymin (zrange i0 hi) layer st
    = Done (l', ValCache.set_c (-1) st)
    /\ forall j, i0 + Z.of_nat k < j ->
         l' !! Z.to_nat j = layer !! Z.to_nat j.
Proof.
  induction k as [| k IH]; intros i0 layer st Hwf Hc Hlt Hi0 Hhi Hcells;
    rewrite zrange_cons by lia; cbn [lqgq_upper_column].
  - destruct (val_in_range st Hwf ltac:(lia)) as [v Hv].
    rewrite (bind_read ValCache.min _ st v Hv).
    destruct (cells_set_get layer _ i0 Hcells ltac:(lia)) as [old Hold].
    pose proof (cells_set_length layer _ i0 Hcells ltac:(lia)) as Hlen.
    assert (exists t,
              (if i0 =? 0 then ret bdd_false
               else lift (layer_get layer (i0 - 1))) st = Done (t, st))
      as [t Ht].
    { destruct (Z.eqb_spec i0 0); [eexists; reflexivity |].
      destruct (cells_set_get layer _ (i0 - 1) Hcells ltac:(lia)) as [t Ht].
      exists t. unfold lift. rewrite Ht. reflexivity. }
    unfold bind at 1. rewrite Ht.
    rewrite (bind_lift _ _ st old Hold).
    rewrite (bind_lift _ _ st _ (layer_set_in_range layer i0 _ ltac:(lia))).
    rewrite bind_move, bind_look.
    unfold ValCache.valid, ValCache.retreat.
    cbn [ValCache.c ValCache.n ValCache.set_c]. rewrite Hc.
    cbn [Z.of_nat Z.sub Z.add Z.opp Z.ltb Z.compare andb negb].
    eexists. split; [reflexivity |].
    intros j Hj. apply list_lookup_insert_ne. lia.
  - destruct (val_in_range st Hwf ltac:(lia)) as [v Hv].
    rewrite (bind_read ValCache.min _ st v Hv).
    destruct (cells_set_get layer _ i0 Hcells ltac:(lia)) as [old Hold].
    pose proof (cells_set_length layer _ i0 Hcells ltac:(lia)) as Hlen.
    assert (exists t,
              (if i0 =? 0 then ret bdd_false
               else lift (layer_get layer (i0 - 1))) st = Done (t, st))
      as [t Ht].
    { destruct (Z.eqb_spec i0 0); [eexists; reflexivity |].
      destruct (cells_set_get layer _ (i0 - 1) Hcells ltac:(lia)) as [t Ht].
      exists t. unfold lift. rewrite Ht. reflexivity. }
    unfold bind at 1. rewrite Ht.
    rewrite (bind_lift _ _ st old Hold).
    rewrite (bind_lift _ _ st _ (layer_set_in_range layer i0 _ ltac:(lia))).
    rewrite bind_move, bind_look.
    unfold ValCache.valid at 1. unfold ValCache.retreat.
    rewrite c_set_c, n_set_c, Hc.
    rewrite (proj2 (Z.ltb_lt (-1) (Z.of_nat (S k) - 1))) by lia.
    rewrite (proj2 (Z.ltb_lt (Z.of_nat (S k) - 1) (ValCache.n st))) by lia.
    cbn [andb negb].
    match goal with
    | |- context [lqgq_upper_column _ _ _ _ _ ?l ?s] =>
        destruct (IH (i0 + 1) l s) as (l' & Hrun & Hkeep)
    end.
    + exact Hwf.
    + rewrite c_set_c. lia.
    + rewrite n_set_c. lia.
    + lia.
    + lia.
    + eapply cells_set_weaken;
        [apply cells_set_insert; [exact Hcells | lia | lia] | lia].
    + exists l'. split.
      * rewrite Hrun. reflexivity.
      * intros j Hj. rewrite Hkeep by lia.
        apply list_lookup_insert_ne. lia.
Qed.

End SingleLayer.

Section SingleLayerEquivalence.

Context {View0 View1 : Type} `{SetView View0} `{SetView View1}.
Variables (x : View0) (y : View1).

Lemma read_absorb {A B : Type} (f : ValCache.t -> outcome A)
    (k : A -> M B) st :
  bind (read f) (fun _ => bind (read f) k) st = bind (read f) k st.
Proof.
  unfold bind, read, lift.
  destruct (f st) eqn:Hf; cbn; rewrite ?Hf; reflexivity.
Qed.

(** The layers for [cr], run on a cache of [n] values with all [n] cells
    assigned: the first column sweep runs off the cache before it reaches
    cell [n - 1]. *)
Lemma lqgq_upper_keeps_top xmin ymin (n : Z) layer st :
  ValCache.n st = Z.of_nat (length (ValCache.r st)) ->
  ValCache.n st = n -> 2 <= n ->
  cells_set layer n ->
  exists l',
    lqgq_upper x y xmin ymin n layer st = Done (l', ValCache.set_c (-1) st)
    /\ l' !! Z.to_nat (n - 1) = layer !! Z.to_nat (n - 1).
Proof.
  intros Hwf Hn Hn2 Hcells. unfold lqgq_upper.
  rewrite !bind_move. unfold sweep_budget. rewrite bind_look.
  unfold ValCache.last, ValCache.retreat.
  rewrite set_c_set_c, c_set_c, !n_set_c, Hn.
  destruct (Z.to_nat n) as [| fuel] eqn:Hfuel; [lia |].
  cbn [lqgq_upper_loop].
  rewrite bind_look. unfold ValCache.valid at 1.
  rewrite c_set_c, n_set_c, Hn.
  rewrite (proj2 (Z.ltb_lt (-1) (n - 1 - 1))) by lia.
  rewrite (proj2 (Z.ltb_lt (n - 1 - 1) n)) by lia.
  cbn [andb negb]. rewrite bind_look.
  destruct (lqgq_upper_column_run x y xmin ymin n (Z.to_nat (n - 2)) 0 layer
              (ValCache.set_c (n - 1 - 1) st)) as (l' & Hrun & Hkeep).
  - rewrite n_set_c, r_set_c. exact Hwf.
  - rewrite c_set_c. lia.
  - rewrite n_set_c. lia.
  - lia.
  - lia.
  - eapply cells_set_weaken; [exact Hcells | lia].
  - exists l'. split.
    + unfold bind at 1. rewrite Hrun.
      rewrite bind_look. unfold ValCache.valid.
      rewrite set_c_set_c, c_set_c. cbn [Z.ltb Z.compare andb negb].
      reflexivity.
    + apply Hkeep. lia.
Qed.

Lemma read_then_link xmin ymin connect f i idx layer st :
  bind (read ValCache.min)
       (fun _ => lqgq_link x y xmin ymin connect f (i :: idx) layer) st
  = lqgq_link x y xmin ymin connect f (i :: idx) layer st.
Proof. cbn [lqgq_link]. apply read_absorb. Qed.

Lemma lqgq_finish_single_two_phase (cl n : Z) layer st :
  ValCache.n st = Z.of_nat (length (ValCache.r st)) ->
  ValCache.n st = n -> 2 <= n -> 0 <= cl < 2 ^ 31 ->
  lqgq_finish x y SingleLayer cl n layer st
  = lqgq_finish x y ConnectionAndUpper cl n layer st.
Proof.
  intros Hwf Hn Hn2 Hcl. cbn [lqgq_finish].
  unfold lqgq_single, lqgq_connection.
  set (xmin := initialLubMin x). set (ymin := initialLubMin y).
  rewrite !bind_assoc, !bind_move.
  set (st1 := ValCache.last st).
  set (single := fun i => i >? n - to_int cl - 1).
  set (connection := fun i => (i >? n - to_int cl - 1) && (cl >? 0)).
  assert (bind (read ValCache.min)
            (fun _ => lqgq_link x y xmin ymin single bdd_true
                        (zrange 0 n) layer) st1
          = lqgq_link x y xmin ymin connection bdd_true
              (zrange 0 n) layer st1) as Hsame.
  { rewrite (zrange_cons 0 n) by lia. rewrite read_then_link.
    apply lqgq_link_ext.
    intros i Hi. rewrite <- (zrange_cons 0 n) in Hi by lia.
    apply zrange_In in Hi. unfold single, connection.
    rewrite to_int_id by lia.
    destruct (Z.gtb_spec cl 0) as [Hpos | Hzero];
      [rewrite andb_true_r; reflexivity |].
    rewrite andb_false_r, Z.gtb_ltb. apply Z.ltb_ge. lia. }
  rewrite (bind_cong_l _ _ _ _ Hsame).
  unfold bind at 1 2.
  destruct (lqgq_link x y xmin ymin connection bdd_true (zrange 0 n)
              layer st1) as [[l1 st2] | e] eqn:Hlink; [| reflexivity].
  destruct (lqgq_link_post x y xmin ymin connection n (Z.to_nat n) 0
              bdd_true layer st1 l1 st2) as [Hcells ->].
  { unfold st1, ValCache.last. rewrite n_set_c. exact Hn. }
  { lia. }
  { lia. }
  { unfold st1, ValCache.last. rewrite c_set_c. lia. }
  { intros j Hj. lia. }
  { exact Hlink. }
  destruct (lqgq_upper_keeps_top xmin ymin n l1 (ValCache.set_c (-1) st1))
    as (l2 & Hupper & Htop); try assumption.
  unfold bind. rewrite Hupper.
  unfold layer_get. rewrite Htop. reflexivity.
Qed.

End SingleLayerEquivalence.

(** ** Correctness of the window builder *)

Lemma cell_is_insert_same layer i b P :
  0 <= i < Z.of_nat (length layer) ->
  (forall env, eval env b = P env) ->
  cell_is (<[Z.to_nat i := Some b]> layer) i P.
Proof.
  intros Hi HP. exists b. split; [| exact HP].
  apply list_lookup_insert_eq. lia.
Qed.

Lemma cell_is_insert_other layer i j b P :
  0 <= i -> 0 <= j -> i <> j ->
  cell_is layer j P -> cell_is (<[Z.to_nat i := Some b]> layer) j P.
Proof.
  intros Hi Hj Hne (c & Hc & HP). exists c. split; [| exact HP].
  rewrite list_lookup_insert_ne by lia. exact Hc.
Qed.

Lemma cell_is_get layer i P :
  0 <= i -> cell_is layer i P ->
  exists b, layer_get layer i = Done b /\ forall env, eval env b = P env.
Proof.
  intros Hi (b & Hb & HP). exists b. split; [| exact HP].
  apply layer_get_cell; assumption.
Qed.

Lemma cell_is_length layer i P :
  0 <= i -> cell_is layer i P -> i < Z.of_nat (length layer).
Proof.
  intros Hi (b & Hb & _). apply lookup_lt_Some in Hb. lia.
Qed.

Lemma cell_is_ext layer i P Q :
  (forall env, P env = Q env) -> cell_is layer i P -> cell_is layer i Q.
Proof.
  intros Hext (b & Hb & HP). exists b. split; [exact Hb |].
  intros env. rewrite HP. apply Hext.
Qed.

(** Decide the comparisons of a goal and finish by arithmetic. *)
Ltac cases_leb :=
  repeat match goal with
  | |- context [?a <=? ?b] => destruct (Z.leb_spec a b)
  | |- context [?a <? ?b] => destruct (Z.ltb_spec a b)
  end;
  cbn [andb orb negb]; try reflexivity; try lia.

Section WindowCorrectness.

Context {View0 View1 : Type} `{SetView View0} `{SetView View1}.
Variables (x : View0) (y : View1).
Variable st0 : ValCache.t.
Hypothesis Hwf : wf_cache st0.

#[local] Abbreviation vs := (ValCache.r st0).
#[local] Abbreviation m := (ValCache.n st0).
#[local] Abbreviation xmin := (initialLubMin x).
#[local] Abbreviation ymin := (initialLubMin y).
#[local] Abbreviation at_pos c := (ValCache.set_c c st0).

Lemma m_length : m = Z.of_nat (length vs).
Proof. destruct Hwf as (Hlen & _). exact Hlen. Qed.

Lemma m_max : m < 2 ^ 31.
Proof. destruct Hwf as (_ & _ & Hmax). unfold INT_MAX in Hmax. lia. Qed.

Lemma valid_at c : ValCache.valid (at_pos c) = (-1 <? c) && (c <? m).
Proof. reflexivity. Qed.

Lemma valid_at_in c : 0 <= c < m -> ValCache.valid (at_pos c) = true.
Proof.
  intros Hc. rewrite valid_at.
  rewrite (proj2 (Z.ltb_lt (-1) c)), (proj2 (Z.ltb_lt c m)) by lia.
  reflexivity.
Qed.

Lemma valid_at_before : ValCache.valid (at_pos (-1)) = false.
Proof. reflexivity. Qed.

(** Reading at a position inside the cache gives the value whose literal
    is [lit_at]. *)
Lemma min_at c :
  0 <= c < m ->
  exists v, ValCache.min (at_pos c) = Done v
            /\ forall env, both_contain x y env v = lit_at x y vs env c.
Proof.
  intros Hc. pose proof m_length as Hm.
  destruct (lookup_lt_is_Some_2 vs (Z.to_nat c)) as [v Hv]; [lia |].
  exists v. split.
  - unfold ValCache.min, ValCache.val. rewrite c_set_c, r_set_c.
    rewrite (proj2 (Z.ltb_ge c 0)) by lia. rewrite Hv. reflexivity.
  - intros env. unfold lit_at. rewrite Hv. reflexivity.
Qed.

Lemma count_from_step env a :
  0 <= a < m ->
  count_from x y vs env a
  = (if lit_at x y vs env a then 1 else 0) + count_from x y vs env (a + 1).
Proof.
  intros Ha. pose proof m_length as Hm. unfold count_from, lit_at.
  destruct (lookup_lt_is_Some_2 vs (Z.to_nat a)) as [v Hv]; [lia |].
  rewrite Hv. rewrite (drop_S _ _ _ Hv).
  replace (Z.to_nat (a + 1)) with (S (Z.to_nat a)) by lia.
  cbn [List.filter]. destruct (both_contain x y env v); cbn [length]; lia.
Qed.

Lemma count_from_bounds env a :
  0 <= a <= m -> 0 <= count_from x y vs env a <= m - a.
Proof.
  intros Ha. pose proof m_length as Hm. unfold count_from.
  pose proof (filter_length_le (both_contain x y env) (drop (Z.to_nat a) vs))
    as Hle.
  rewrite length_drop in Hle. lia.
Qed.

Lemma count_from_0 env : count_from x y vs env 0 = Z.of_nat (length (List.filter (both_contain x y env) vs)).
Proof. reflexivity. Qed.

(** The two shapes of a node: nested tests of [x] and [y], and one test
    of their conjunction. *)
Lemma eval_nested env v t e :
  eval env (ite (element x (v - xmin)) (ite (element y (v - ymin)) t e) e)
  = if both_contain x y env v then eval env t else eval env e.
Proof.
  unfold both_contain. cbn [eval].
  destruct (eval env (element x (v - xmin))),
           (eval env (element y (v - ymin))); reflexivity.
Qed.

Lemma eval_joint env v t e :
  eval env (ite (bdd_and (element y (v - ymin)) (element x (v - xmin))) t e)
  = if both_contain x y env v then eval env t else eval env e.
Proof.
  unfold both_contain. cbn [eval].
  destruct (eval env (element x (v - xmin))),
           (eval env (element y (v - ymin))); reflexivity.
Qed.

(** *** The lowest layer *)

Lemma lqgq_lowest_run (base cl n : Z) (k : nat) :
  forall i0 layer,
  base = n - cl - 1 -> 0 <= base -> cl <= m ->
  i0 = n - Z.of_nat k -> base < i0 ->
  n <= Z.of_nat (length layer) ->
  (forall i, base <= i < i0 ->
     cell_is layer i (at_least x y vs base (m - 1) i)) ->
  exists l',
    lqgq_lowest x y xmin ymin (zrange i0 n) layer (at_pos (m - (i0 - base)))
    = Done (l', at_pos (m - 1 - cl))
    /\ length l' = length layer
    /\ forall i, base <= i < n ->
         cell_is l' i (at_least x y vs base (m - 1) i).
Proof.
  induction k as [| k IH]; intros i0 layer Hbase Hbase0 Hcl Hi0 Hlo Hlen Hcells.
  - rewrite zrange_nil by lia. cbn [lqgq_lowest]. exists layer.
    split; [| split; [reflexivity |]].
    + replace (m - (i0 - base)) with (m - 1 - cl) by lia. reflexivity.
    + intros i Hi. apply Hcells. lia.
  - rewrite zrange_cons by lia. cbn [lqgq_lowest].
    assert (0 <= m - (i0 - base) < m) as Hpos by lia.
    destruct (min_at (m - (i0 - base)) Hpos) as (v & Hv & Hlit).
    rewrite (bind_read _ _ _ v Hv).
    destruct (cell_is_get layer (i0 - 1) _ ltac:(lia)
                (Hcells (i0 - 1) ltac:(lia))) as (below & Hbelow & Hsem).
    rewrite (bind_lift _ _ _ below Hbelow).
    rewrite (bind_lift _ _ _ _ (layer_set_in_range layer i0 _ ltac:(lia))).
    rewrite bind_move. unfold ValCache.retreat.
    rewrite c_set_c, set_c_set_c.
    replace (m - (i0 - base) - 1) with (m - (i0 + 1 - base)) by lia.
    match goal with
    | |- context [lqgq_lowest _ _ _ _ _ ?l _] =>
        destruct (IH (i0 + 1) l) as (l' & Hrun & Hlen' & Hcells');
          try lia
    end.
    + rewrite length_insert. exact Hlen.
    + intros i Hi. destruct (Z.eq_dec i i0) as [-> | Hne].
      * apply cell_is_insert_same; [lia |].
        intros env. rewrite eval_nested, Hlit, Hsem. cbn [eval].
        unfold at_least.
        pose proof (count_from_step env (m - (i0 - base)) ltac:(lia)) as Hstep.
        pose proof (count_from_bounds env (m - (i0 - base) + 1) ltac:(lia))
          as Hbound.
        replace (m - 1 + 1 - (i0 - 1 - base)) with (m - (i0 - base) + 1)
          by lia.
        replace (m - 1 + 1 - (i0 - base)) with (m - (i0 - base)) by lia.
        rewrite Hstep.
        destruct (lit_at x y vs env (m - (i0 - base))); cases_leb.
      * apply cell_is_insert_other; [lia | lia | lia |].
        apply Hcells. lia.
    + exists l'. split; [exact Hrun | split; [| exact Hcells']].
      rewrite Hlen', length_insert. reflexivity.
Qed.

(** *** The layers up to the connection layer *)

Lemma index_at c :
  -1 <= c < m -> to_int (ValCache.index (at_pos c)) = c.
Proof.
  intros Hc. pose proof m_max. unfold ValCache.index. rewrite c_set_c.
  apply to_int_to_unsigned. lia.
Qed.

(** One sweep over the columns [i0 .. n - 1] while the outer loop is at
    position [p]: column [i] reads position [p + base + 1 - i].  The sweep
    finishes the cache after its last column exactly when [p] is the
    position [m - cr + cl - 2]. *)
Lemma lqgq_lower_column_run (base cl cr n r p : Z) (k : nat) :
  forall i0 layer,
  base = n - cl - 1 -> 0 <= base -> n = cr + 1 -> r = m - 1 -> cr <= m ->
  i0 = n - Z.of_nat k -> base < i0 ->
  n <= Z.of_nat (length layer) ->
  p <= m - 2 -> cl - 1 <= p -> m - cr + cl - 2 <= p ->
  (forall i, base <= i < i0 ->
     cell_is layer i (at_least x y vs base p i)) ->
  (forall i, i0 <= i < n ->
     cell_is layer i (at_least x y vs base (p + 1) i)) ->
  exists l',
    lqgq_lower_column x y xmin ymin cr r (zrange i0 n) layer
      (at_pos (p + base + 1 - i0))
    = Done (l', at_pos (if (0 <? Z.of_nat k) && (p =? m - cr + cl - 2)
                        then -1 else p - cl))
    /\ length l' = length layer
    /\ forall i, base <= i < n ->
         cell_is l' i (at_least x y vs base p i).
Proof.
  induction k as [| k IH];
    intros i0 layer Hbase Hbase0 Hn Hr Hcr Hi0 Hlo Hlen Hp Hpcl Hpe
           Hnew Hold.
  - rewrite zrange_nil by lia. cbn [lqgq_lower_column]. exists layer.
    split; [| split; [reflexivity |]].
    + cbn [Z.of_nat Z.ltb Z.compare andb].
      replace (p + base + 1 - i0) with (p - cl) by lia. reflexivity.
    + intros i Hi. apply Hnew. lia.
  - rewrite zrange_cons by lia. cbn [lqgq_lower_column].
    pose proof m_max as Hmax.
    set (a := p + base + 1 - i0).
    assert (0 <= a < m) as Ha by (unfold a; lia).
    destruct (min_at a Ha) as (v & Hv & Hlit).
    rewrite (bind_read _ _ _ v Hv).
    destruct (cell_is_get layer (i0 - 1) _ ltac:(lia)
                (Hnew (i0 - 1) ltac:(lia))) as (t & Ht & Htsem).
    rewrite (bind_lift _ _ _ t Ht).
    destruct (cell_is_get layer i0 _ ltac:(lia)
                (Hold i0 ltac:(lia))) as (old & Hold0 & Holdsem).
    rewrite (bind_lift _ _ _ old Hold0).
    rewrite (bind_lift _ _ _ _ (layer_set_in_range layer i0 _ ltac:(lia))).
    rewrite bind_move, bind_look. unfold ValCache.retreat.
    rewrite c_set_c, set_c_set_c.
    rewrite (index_at (a - 1)) by lia.
    rewrite (to_int_id cr) by lia.
    set (layer' := <[Z.to_nat i0 := Some
                       (ite (element x (v - xmin))
                            (ite (element y (v - ymin)) t old) old)]> layer).
    assert (forall i, base <= i < i0 + 1 ->
              cell_is layer' i (at_least x y vs base p i)) as Hnew'.
    { intros i Hi. destruct (Z.eq_dec i i0) as [-> | Hne].
      - apply cell_is_insert_same; [lia |].
        intros env. rewrite eval_nested, Hlit, Htsem, Holdsem.
        unfold at_least.
        pose proof (count_from_step env a Ha) as Hstep.
        replace (p + 1 - (i0 - 1 - base)) with (a + 1) by (unfold a; lia).
        replace (p + 1 + 1 - (i0 - base)) with (a + 1) by (unfold a; lia).
        replace (p + 1 - (i0 - base)) with a by (unfold a; lia).
        rewrite Hstep.
        destruct (lit_at x y vs env a); cases_leb.
      - apply cell_is_insert_other; [lia | lia | lia |].
        apply Hnew. lia. }
    assert (forall i, i0 + 1 <= i < n ->
              cell_is layer' i (at_least x y vs base (p + 1) i)) as Hold'.
    { intros i Hi. apply cell_is_insert_other; [lia | lia | lia |].
      apply Hold. lia. }
    assert (length layer' = length layer) as Hlen'
      by apply length_insert.
    destruct (Z.ltb_spec (a - 1 + 1) (r + 1 - cr)) as [Hfinish | Hgo].
    + (* the cache is finished: this was the last column *)
      rewrite bind_move. unfold ValCache.finish. rewrite set_c_set_c.
      assert (i0 = n - 1 /\ p = m - cr + cl - 2) as [Hlast Hpeq]
        by (unfold a in Hfinish; lia).
      exists layer'. split; [| split; [exact Hlen' |]].
      * rewrite (proj2 (Z.ltb_lt 0 (Z.of_nat (S k)))) by lia.
        rewrite (proj2 (Z.eqb_eq p (m - cr + cl - 2)) Hpeq).
        reflexivity.
      * intros i Hi. apply Hnew'. lia.
    + destruct (IH (i0 + 1) layer') as (l' & Hrun & Hlen'' & Hcells);
        try lia; try assumption.
      replace (p + base + 1 - (i0 + 1)) with (a - 1) in Hrun
        by (unfold a; lia).
      exists l'. split; [| split; [lia | exact Hcells]].
      rewrite Hrun. do 2 f_equal.
      destruct k as [| k'].
      * (* no column is left: the cursor stays *)
        cbn [Z.of_nat Z.ltb Z.compare andb].
        rewrite (proj2 (Z.ltb_lt 0 (Z.of_nat 1))) by lia.
        rewrite (proj2 (Z.eqb_neq p (m - cr + cl - 2)));
          [reflexivity | unfold a in Hgo; lia].
      * rewrite !(proj2 (Z.ltb_lt 0 _)) by lia. reflexivity.
Qed.

Lemma seek_index c :
  -1 <= c < m ->
  ValCache.seek (ValCache.index (at_pos c)) (at_pos c) = at_pos c.
Proof.
  intros Hc. unfold ValCache.seek. rewrite (index_at c Hc). reflexivity.
Qed.

(** The outer loop from position [p] down to the position [pe] at which
    the lower region is complete. *)
Lemma lqgq_lower_run (base cl cr n r pe : Z) (fuel : nat) :
  forall p layer,
  base = n - cl - 1 -> 0 <= base -> n = cr + 1 -> r = m - 1 -> cr <= m ->
  1 <= cl ->
  pe = Z.max (m - cr + cl - 2) (cl - 1) ->
  pe <= p <= m - 2 -> p - pe + 1 <= Z.of_nat fuel ->
  n <= Z.of_nat (length layer) ->
  (forall i, base <= i < n ->
     cell_is layer i (at_least x y vs base (p + 1) i)) ->
  exists l',
    lqgq_lower x y fuel xmin ymin cl cr n r layer (at_pos p)
    = Done (l', at_pos (-1))
    /\ length l' = length layer
    /\ forall i, base <= i < n ->
         cell_is l' i (at_least x y vs base pe i).
Proof.
  induction fuel as [| fuel IH];
    intros p layer Hbase Hbase0 Hn Hr Hcr Hcl Hpe Hp Hfuel Hlen Hcells;
    [lia |].
  cbn [lqgq_lower]. rewrite bind_look, valid_at_in by lia. cbn [negb].
  rewrite bind_look.
  destruct (lqgq_lower_column_run base cl cr n r p (Z.to_nat cl)
              (n - cl) layer) as (l1 & Hrun & Hlen1 & Hcells1);
    try lia; try assumption.
  { intros i Hi. assert (i = base) as -> by lia.
    eapply cell_is_ext; [| apply Hcells; lia].
    intros env. unfold at_least. rewrite Z.sub_diag.
    pose proof (count_from_bounds env (p + 1 - 0) ltac:(lia)).
    pose proof (count_from_bounds env (p + 1 + 1 - 0) ltac:(lia)).
    cases_leb. }
  { intros i Hi. apply Hcells. lia. }
  replace (p + base + 1 - (n - cl)) with p in Hrun by lia.
  unfold bind at 1. rewrite Hrun.
  rewrite (proj2 (Z.ltb_lt 0 (Z.of_nat (Z.to_nat cl)))) by lia.
  cbn [andb]. rewrite bind_look.
  destruct (Z.eqb_spec p (m - cr + cl - 2)) as [Hend | Hmore].
  - (* the sweep finished the cache *)
    rewrite valid_at_before. cbn [negb]. exists l1.
    split; [reflexivity | split; [lia |]].
    replace pe with p by lia. exact Hcells1.
  - destruct (Z.eq_dec p (cl - 1)) as [Hzero | Hpos].
    + (* the sweep ran off the cache *)
      replace (p - cl) with (-1) by lia.
      rewrite valid_at_before. cbn [negb]. exists l1.
      split; [reflexivity | split; [lia |]].
      replace pe with p by lia. exact Hcells1.
    + rewrite valid_at_in by lia. cbn [negb].
      rewrite bind_move.
      replace (ValCache.seek (ValCache.index (at_pos p)) (at_pos (p - cl)))
        with (at_pos p)
        by (unfold ValCache.seek; rewrite (index_at p) by lia; reflexivity).
      rewrite bind_move. unfold ValCache.retreat.
      rewrite c_set_c, set_c_set_c.
      destruct (IH (p - 1) l1) as (l' & Hrun' & Hlen' & Hcells');
        try lia; try assumption.
      { intros i Hi. replace (p - 1 + 1) with p by lia.
        apply Hcells1. exact Hi. }
      exists l'. split; [exact Hrun' | split; [lia | exact Hcells']].
Qed.

(** Without a lower bound the loop has no columns; it only walks the
    cursor off the cache. *)
Lemma lqgq_lower_idle (cr n r : Z) layer (fuel : nat) :
  forall c,
  -1 <= c < m -> c + 1 <= Z.of_nat fuel ->
  lqgq_lower x y fuel xmin ymin 0 cr n r layer (at_pos c)
  = Done (layer, at_pos (-1)).
Proof.
  induction fuel as [| fuel IH]; intros c Hc Hfuel.
  - assert (c = -1) as -> by lia. reflexivity.
  - cbn [lqgq_lower]. rewrite bind_look.
    destruct (Z.eq_dec c (-1)) as [-> | Hin]; [reflexivity |].
    rewrite valid_at_in by lia. cbn [negb].
    rewrite bind_look, zrange_nil by lia.
    cbn [lqgq_lower_column]. rewrite bind_ret, bind_look.
    rewrite valid_at_in by lia. cbn [negb].
    rewrite bind_move, seek_index by lia.
    rewrite bind_move. unfold ValCache.retreat.
    rewrite c_set_c, set_c_set_c.
    apply IH; lia.
Qed.

(** The common part of [extcardlqgq]: afterwards layer [i] of the lower
    region says that at least [i - base] of the positions from
    [pe + 1 - (i - base)] on are true, where [pe] is the last position the
    loop swept. *)
Lemma lqgq_prefix_run (cl cr n r c0 : Z) :
  0 <= cl < cr -> cr <= m -> n = cr + 1 -> r = m - 1 ->
  exists l,
    lqgq_prefix x y cl cr n r (at_pos c0) = Done (l, at_pos (-1))
    /\ Z.of_nat (length l) = n
    /\ forall i, n - cl - 1 <= i < n ->
         cell_is l i (at_least x y vs (n - cl - 1)
                        (Z.max (m - cr + cl - 2) (cl - 1)) i).
Proof.
  intros Hwin Hcr Hn Hr. pose proof m_max as Hmax.
  unfold lqgq_prefix.
  assert (Z.of_nat (length (alloc n)) = n) as Hlen0.
  { unfold alloc. rewrite length_replicate. lia. }
  rewrite (bind_lift _ _ _ _
             (layer_set_in_range (alloc n) (n - cl - 1) bdd_true
                ltac:(lia))).
  rewrite bind_move. unfold ValCache.last. rewrite n_set_c, set_c_set_c.
  destruct (min_at (m - 1) ltac:(lia)) as (v & Hv & _).
  rewrite (bind_read _ _ _ v Hv).
  set (l0 := <[Z.to_nat (n - cl - 1) := Some bdd_true]> (alloc n)).
  assert (Z.of_nat (length l0) = n) as Hlen1
    by (unfold l0; rewrite length_insert; exact Hlen0).
  destruct (lqgq_lowest_run (n - cl - 1) cl n (Z.to_nat cl) (n - cl) l0)
    as (l1 & Hrun1 & Hlen2 & Hcells1); try lia.
  { intros i Hi. assert (i = n - cl - 1) as -> by lia.
    apply cell_is_insert_same; [lia |].
    intros env. unfold at_least. rewrite Z.sub_diag.
    pose proof (count_from_bounds env (m - 1 + 1 - 0) ltac:(lia)).
    cbn [eval]. cases_leb. }
  replace (m - (n - cl - (n - cl - 1))) with (m - 1) in Hrun1 by lia.
  unfold bind at 1. rewrite Hrun1.
  rewrite bind_move. unfold ValCache.last. rewrite n_set_c, set_c_set_c.
  rewrite bind_move. unfold ValCache.retreat. rewrite c_set_c, set_c_set_c.
  unfold sweep_budget. rewrite bind_look, n_set_c.
  destruct (Z.eq_dec cl 0) as [-> | Hcl].
  - rewrite lqgq_lower_idle by lia.
    exists l1. split; [reflexivity | split; [lia |]].
    intros i Hi. assert (i = n - 0 - 1) as -> by lia.
    eapply cell_is_ext; [| apply Hcells1; lia].
    intros env. unfold at_least. rewrite Z.sub_diag.
    unfold count_from. cases_leb.
  - destruct (lqgq_lower_run (n - cl - 1) cl cr n r
                (Z.max (m - cr + cl - 2) (cl - 1)) (Z.to_nat m)
                (m - 1 - 1) l1) as (l2 & Hrun2 & Hlen3 & Hcells2);
      try lia.
    { intros i Hi. replace (m - 1 - 1 + 1) with (m - 1) by lia.
      apply Hcells1. exact Hi. }
    exists l2. split; [exact Hrun2 | split; [lia | exact Hcells2]].
Qed.

(** *** The connection layer and the single layer *)

(** The linking sweep from the last position: column [i] reads position
    [m - 1 - i]; below the lower region the false branch is the constant
    true, inside it the layer left by the common part. *)
Lemma lqgq_link_run (base cl n : Z) connect (k : nat) :
  forall i0 f layer,
  base = n - cl - 1 -> 0 <= base -> 0 <= cl -> n <= m ->
  i0 = n - Z.of_nat k -> 0 <= i0 ->
  n <= Z.of_nat (length layer) ->
  (forall i, 0 <= i < n -> connect i = (base <? i)) ->
  (i0 <= base -> forall env, eval env f = true) ->
  (forall i, 0 <= i < i0 ->
     cell_is layer i (in_window x y vs base (m - 1) i)) ->
  (forall i, i0 <= i < n -> base < i ->
     cell_is layer i (at_least x y vs base (m - 2 - base) i)) ->
  exists l',
    lqgq_link x y xmin ymin connect f (zrange i0 n) layer
      (at_pos (m - 1 - i0))
    = Done (l', at_pos (m - 1 - n))
    /\ length l' = length layer
    /\ forall i, 0 <= i < n ->
         cell_is l' i (in_window x y vs base (m - 1) i).
Proof.
  induction k as [| k IH];
    intros i0 f layer Hbase Hbase0 Hcl Hn Hi0 Hi0pos Hlen Hconnect Hf
           Hnew Hold.
  - rewrite zrange_nil by lia. cbn [lqgq_link]. exists layer.
    split; [| split; [reflexivity |]].
    + replace (m - 1 - i0) with (m - 1 - n) by lia. reflexivity.
    + intros i Hi. apply Hnew. lia.
  - rewrite zrange_cons by lia. cbn [lqgq_link].
    set (a := m - 1 - i0).
    assert (0 <= a < m) as Ha by (unfold a; lia).
    destruct (min_at a Ha) as (v & Hv & Hlit).
    rewrite (bind_read _ _ _ v Hv).
    (* the true branch *)
    assert (exists t,
              (if i0 =? 0 then ret bdd_false
               else lift (layer_get layer (i0 - 1))) (at_pos a)
              = Done (t, at_pos a)
              /\ forall env,
                   eval env t
                   = if i0 =? 0 then false
                     else in_window x y vs base (m - 1) (i0 - 1) env)
      as (t & Ht & Htsem).
    { destruct (Z.eqb_spec i0 0) as [Hz | Hnz].
      - exists bdd_false. split; reflexivity.
      - destruct (cell_is_get layer (i0 - 1) _ ltac:(lia)
                    (Hnew (i0 - 1) ltac:(lia))) as (t & Ht & Htsem).
        exists t. split; [| exact Htsem].
        unfold lift. rewrite Ht. reflexivity. }
    unfold bind at 1. rewrite Ht.
    (* the false branch *)
    rewrite (Hconnect i0) by lia.
    assert (exists e,
              (if negb (i0 =? 0) && (base <? i0)
               then lift (layer_get layer i0) else ret f) (at_pos a)
              = Done (e, at_pos a)
              /\ (i0 + 1 <= base -> e = f)
              /\ forall env,
                   eval env e
                   = if base <? i0
                     then at_least x y vs base (m - 2 - base) i0 env
                     else true)
      as (e & He & Hekeep & Hesem).
    { destruct (Z.ltb_spec base i0) as [Hin | Hout].
      - rewrite (proj2 (Z.eqb_neq i0 0)) by lia. cbn [negb andb].
        destruct (cell_is_get layer i0 _ ltac:(lia)
                    (Hold i0 ltac:(lia) Hin)) as (e & He & Hesem).
        exists e. split; [| split; [lia | exact Hesem]].
        unfold lift. rewrite He. reflexivity.
      - rewrite andb_false_r. exists f.
        split; [reflexivity | split; [reflexivity |]].
        apply Hf. exact Hout. }
    unfold bind at 1. rewrite He.
    rewrite (bind_lift _ _ _ _ (layer_set_in_range layer i0 _ ltac:(lia))).
    rewrite bind_move, bind_look. unfold ValCache.retreat.
    rewrite c_set_c, set_c_set_c.
    set (layer' := <[Z.to_nat i0 := Some
                       (ite (element x (v - xmin))
                            (ite (element y (v - ymin)) t e) e)]> layer).
    assert (forall i, 0 <= i < i0 + 1 ->
              cell_is layer' i (in_window x y vs base (m - 1) i)) as Hnew'.
    { intros i Hi. destruct (Z.eq_dec i i0) as [-> | Hne].
      - apply cell_is_insert_same; [lia |].
        intros env. rewrite eval_nested, Hlit, Htsem, Hesem.
        unfold in_window, at_least.
        pose proof (count_from_step env a Ha) as Hstep.
        pose proof (count_from_bounds env (a + 1) ltac:(lia)) as Hbound.
        replace (m - 1 - (i0 - 1)) with (a + 1) by (unfold a; lia).
        replace (m - 2 - base + 1 - (i0 - base)) with a by (unfold a; lia).
        fold a. rewrite Hstep.
        destruct (lit_at x y vs env a), (Z.eqb_spec i0 0); cases_leb.
      - apply cell_is_insert_other; [lia | lia | lia |].
        apply Hnew. lia. }
    assert (forall i, i0 + 1 <= i < n -> base < i ->
              cell_is layer' i (at_least x y vs base (m - 2 - base) i))
      as Hold'.
    { intros i Hi Hin. apply cell_is_insert_other; [lia | lia | lia |].
      apply Hold; lia. }
    destruct (Z.eq_dec i0 (m - 1)) as [Hlast | Hmore].
    + (* the sweep ran off the cache at its last column *)
      replace (a - 1) with (-1) by (unfold a; lia).
      rewrite valid_at_before. cbn [negb]. exists layer'.
      split; [| split; [apply length_insert |]].
      * replace (m - 1 - n) with (-1) by lia. reflexivity.
      * intros i Hi. apply Hnew'. lia.
    + rewrite valid_at_in by (unfold a; lia). cbn [negb].
      destruct (IH (i0 + 1) e layer') as (l' & Hrun & Hlen' & Hcells);
        try lia; try assumption.
      { unfold layer'. rewrite length_insert. exact Hlen. }
      { intros Hle. rewrite Hekeep by lia. apply Hf. lia. }
      replace (m - 1 - (i0 + 1)) with (a - 1) in Hrun by (unfold a; lia).
      exists l'. split; [exact Hrun | split; [| exact Hcells]].
      rewrite Hlen'. apply length_insert.
Qed.

(** *** The layers for [cr] *)

(** One sweep over the columns [i0 .. n - 1] while the outer loop is at
    position [p]: column [i] reads position [p - i]. *)
Lemma lqgq_upper_column_sweep (base n p : Z) (k : nat) :
  forall i0 layer,
  i0 = n - Z.of_nat k -> 0 <= i0 ->
  n <= Z.of_nat (length layer) ->
  n - 1 <= p <= m - 1 ->
  (forall i, 0 <= i < i0 ->
     cell_is layer i (in_window x y vs base p i)) ->
  (forall i, i0 <= i < n ->
     cell_is layer i (in_window x y vs base (p + 1) i)) ->
  exists l',
    lqgq_upper_column x y xmin ymin (zrange i0 n) layer (at_pos (p - i0))
    = Done (l', at_pos (p - n))
    /\ length l' = length layer
    /\ forall i, 0 <= i < n ->
         cell_is l' i (in_window x y vs base p i).
Proof.
  induction k as [| k IH]; intros i0 layer Hi0 Hi0pos Hlen Hp Hnew Hold.
  - rewrite zrange_nil by lia. cbn [lqgq_upper_column]. exists layer.
    split; [| split; [reflexivity |]].
    + replace (p - i0) with (p - n) by lia. reflexivity.
    + intros i Hi. apply Hnew. lia.
  - rewrite zrange_cons by lia. cbn [lqgq_upper_column].
    set (a := p - i0).
    assert (0 <= a < m) as Ha by (unfold a; lia).
    destruct (min_at a Ha) as (v & Hv & Hlit).
    rewrite (bind_read _ _ _ v Hv).
    assert (exists t,
              (if i0 =? 0 then ret bdd_false
               else lift (layer_get layer (i0 - 1))) (at_pos a)
              = Done (t, at_pos a)
              /\ forall env,
                   eval env t
                   = if i0 =? 0 then false
                     else in_window x y vs base p (i0 - 1) env)
      as (t & Ht & Htsem).
    { destruct (Z.eqb_spec i0 0) as [Hz | Hnz].
      - exists bdd_false. split; reflexivity.
      - destruct (cell_is_get layer (i0 - 1) _ ltac:(lia)
                    (Hnew (i0 - 1) ltac:(lia))) as (t & Ht & Htsem).
        exists t. split; [| exact Htsem].
        unfold lift. rewrite Ht. reflexivity. }
    unfold bind at 1. rewrite Ht.
    destruct (cell_is_get layer i0 _ ltac:(lia) (Hold i0 ltac:(lia)))
      as (old & Hold0 & Holdsem).
    rewrite (bind_lift _ _ _ old Hold0).
    rewrite (bind_lift _ _ _ _ (layer_set_in_range layer i0 _ ltac:(lia))).
    rewrite bind_move, bind_look. unfold ValCache.retreat.
    rewrite c_set_c, set_c_set_c.
    set (layer' := <[Z.to_nat i0 := Some
                       (ite (bdd_and (element y (v - ymin))
                                     (element x (v - xmin))) t old)]> layer).
    assert (forall i, 0 <= i < i0 + 1 ->
              cell_is layer' i (in_window x y vs base p i)) as Hnew'.
    { intros i Hi. destruct (Z.eq_dec i i0) as [-> | Hne].
      - apply cell_is_insert_same; [lia |].
        intros env. rewrite eval_joint, Hlit, Htsem, Holdsem.
        unfold in_window.
        pose proof (count_from_step env a Ha) as Hstep.
        replace (p - (i0 - 1)) with (a + 1) by (unfold a; lia).
        replace (p + 1 - i0) with (a + 1) by (unfold a; lia).
        fold a. rewrite Hstep.
        unfold count_from.
        destruct (lit_at x y vs env a), (Z.eqb_spec i0 0); cases_leb.
      - apply cell_is_insert_other; [lia | lia | lia |].
        apply Hnew. lia. }
    assert (forall i, i0 + 1 <= i < n ->
              cell_is layer' i (in_window x y vs base (p + 1) i)) as Hold'.
    { intros i Hi. apply cell_is_insert_other; [lia | lia | lia |].
      apply Hold; lia. }
    destruct (Z.eq_dec i0 p) as [Hlast | Hmore].
    + replace (a - 1) with (-1) by (unfold a; lia).
      rewrite valid_at_before. cbn [negb]. exists layer'.
      split; [| split; [apply length_insert |]].
      * replace (p - n) with (-1) by lia. reflexivity.
      * intros i Hi. apply Hnew'. lia.
    + rewrite valid_at_in by (unfold a; lia). cbn [negb].
      destruct (IH (i0 + 1) layer') as (l' & Hrun & Hlen' & Hcells);
        try lia; try assumption.
      { unfold layer'. rewrite length_insert. exact Hlen. }
      replace (p - (i0 + 1)) with (a - 1) in Hrun by (unfold a; lia).
      exists l'. split; [exact Hrun | split; [| exact Hcells]].
      rewrite Hlen'. apply length_insert.
Qed.

Lemma lqgq_upper_loop_run (base n : Z) (fuel : nat) :
  forall p layer,
  1 <= n ->
  n - 1 <= p <= m - 1 -> p - (n - 1) + 1 <= Z.of_nat fuel ->
  n <= Z.of_nat (length layer) ->
  (forall i, 0 <= i < n ->
     cell_is layer i (in_window x y vs base (p + 1) i)) ->
  exists l',
    lqgq_upper_loop x y fuel xmin ymin n layer (at_pos p)
    = Done (l', at_pos (-1))
    /\ forall i, 0 <= i < n ->
         cell_is l' i (in_window x y vs base (n - 1) i).
Proof.
  induction fuel as [| fuel IH]; intros p layer Hn Hp Hfuel Hlen Hcells;
    [lia |].
  cbn [lqgq_upper_loop]. rewrite bind_look, valid_at_in by lia.
  cbn [negb]. rewrite bind_look.
  destruct (lqgq_upper_column_sweep base n p (Z.to_nat n) 0 layer)
    as (l1 & Hrun & Hlen1 & Hcells1); try lia; try assumption.
  rewrite Z.sub_0_r in Hrun.
  unfold bind at 1. rewrite Hrun. rewrite bind_look.
  destruct (Z.eq_dec p (n - 1)) as [Hend | Hmore].
  - replace (p - n) with (-1) by lia.
    rewrite valid_at_before. cbn [negb]. exists l1.
    split; [reflexivity |].
    replace (n - 1) with p by lia. exact Hcells1.
  - rewrite valid_at_in by lia. cbn [negb].
    rewrite bind_move.
    replace (ValCache.seek (ValCache.index (at_pos p)) (at_pos (p - n)))
      with (at_pos p)
      by (unfold ValCache.seek; rewrite (index_at p) by lia; reflexivity).
    rewrite bind_move. unfold ValCache.retreat.
    rewrite c_set_c, set_c_set_c.
    destruct (IH (p - 1) l1) as (l' & Hrun' & Hcells');
      try lia; try assumption.
    { intros i Hi. replace (p - 1 + 1) with p by lia.
      apply Hcells1. exact Hi. }
    exists l'. split; [exact Hrun' | exact Hcells'].
Qed.

(** *** The whole builder *)

Lemma lqgq_dispatch_cases cr r :
  r = m - 1 -> 0 <= cr <= m ->
  lqgq_dispatch cr r
  = if cr =? m then AllAllowed
    else if cr =? m - 1 then SingleLayer else ConnectionAndUpper.
Proof.
  intros -> Hcr. pose proof m_max. unfold lqgq_dispatch.
  rewrite to_int_id by lia.
  replace (m - 1 + 1) with m by lia. reflexivity.
Qed.

(** On a cache of [m] values, for a window [0 <= cl < cr <= m],
    [extcardlqgq] returns a diagram that accepts exactly when the number
    of true literals lies in the window. *)
Lemma extcardlqgq_run (cl cr n r c0 : Z) :
  0 <= cl < cr -> cr <= m -> n = cr + 1 -> r = m - 1 ->
  exists b,
    extcardlqgq x y cl cr n r (at_pos c0) = Done (b, at_pos (-1))
    /\ forall env,
         eval env b
         = (cl <=? count_from x y vs env 0)
           && (count_from x y vs env 0 <=? cr).
Proof.
  intros Hwin Hcr Hn Hr. pose proof m_max as Hmax.
  destruct (lqgq_prefix_run cl cr n r c0 Hwin Hcr Hn Hr)
    as (l & Hprefix & Hlen & Hcells).
  unfold extcardlqgq. unfold bind at 1. rewrite Hprefix.
  rewrite (lqgq_dispatch_cases cr r Hr) by lia.
  set (base := n - cl - 1) in *.
  destruct (Z.eqb_spec cr m) as [Hall | Hless].
  - (* every value may be shared *)
    cbn [lqgq_finish].
    destruct (cell_is_get l (n - 1) _ ltac:(lia)
                (Hcells (n - 1) ltac:(lia))) as (b & Hb & Hsem).
    exists b. split; [unfold lift; rewrite Hb; reflexivity |].
    intros env. rewrite Hsem. unfold at_least.
    replace (Z.max (m - cr + cl - 2) (cl - 1) + 1 - (n - 1 - base))
      with 0 by lia.
    replace (n - 1 - base) with cl by lia.
    pose proof (count_from_bounds env 0 ltac:(lia)).
    cases_leb.
  - assert (Z.max (m - cr + cl - 2) (cl - 1) = m - 2 - base) as Hpe by lia.
    rewrite Hpe in Hcells.
    destruct (Z.eqb_spec cr (m - 1)) as [Hone | Hfew].
    + (* only one single layer *)
      cbn [lqgq_finish]. unfold lqgq_single.
      rewrite bind_assoc, bind_move.
      unfold ValCache.last. rewrite n_set_c, set_c_set_c.
      destruct (min_at (m - 1) ltac:(lia)) as (v & Hv & _).
      rewrite bind_assoc, (bind_read _ _ _ v Hv).
      destruct (lqgq_link_run base cl n
                  (fun i => i >? n - to_int cl - 1) (Z.to_nat n)
                  0 bdd_true l)
        as (l1 & Hrun & Hlen1 & Hcells1); try lia.
      { intros i Hi. rewrite to_int_id by lia.
        rewrite Z.gtb_ltb. reflexivity. }
      { reflexivity. }
      { intros i Hi Hin. apply Hcells. lia. }
      rewrite Z.sub_0_r in Hrun.
      unfold bind at 1. rewrite Hrun.
      destruct (cell_is_get l1 (n - 1) _ ltac:(lia)
                  (Hcells1 (n - 1) ltac:(lia))) as (b & Hb & Hsem).
      exists b. split.
      * unfold lift. rewrite Hb.
        replace (m - 1 - n) with (-1) by lia. reflexivity.
      * intros env. rewrite Hsem. unfold in_window.
        replace (m - 1 - (n - 1)) with 0 by lia.
        replace (n - 1 - base) with cl by lia.
        replace (n - 1) with cr by lia. reflexivity.
    + (* the connection layer, then the layers for cr *)
      cbn [lqgq_finish]. unfold lqgq_connection.
      rewrite bind_assoc, bind_move.
      unfold ValCache.last. rewrite n_set_c, set_c_set_c.
      destruct (lqgq_link_run base cl n
                  (fun i => (i >? n - to_int cl - 1) && (cl >? 0))
                  (Z.to_nat n) 0 bdd_true l)
        as (l1 & Hrun & Hlen1 & Hcells1); try lia.
      { intros i Hi. rewrite to_int_id by lia. rewrite !Z.gtb_ltb.
        destruct (Z.ltb_spec 0 cl); [apply andb_true_r |].
        rewrite andb_false_r. symmetry. apply Z.ltb_ge. lia. }
      { reflexivity. }
      { intros i Hi Hin. apply Hcells. lia. }
      rewrite Z.sub_0_r in Hrun.
      unfold bind at 1. rewrite Hrun.
      unfold lqgq_upper.
      rewrite bind_assoc, bind_move.
      unfold ValCache.last. rewrite n_set_c, set_c_set_c.
      rewrite bind_assoc, bind_move.
      unfold ValCache.retreat. rewrite c_set_c, set_c_set_c.
      unfold sweep_budget. rewrite bind_assoc, bind_look, n_set_c.
      destruct (lqgq_upper_loop_run base n (Z.to_nat m) (m - 1 - 1) l1)
        as (l2 & Hrun2 & Hcells2); try lia.
      { intros i Hi. replace (m - 1 - 1 + 1) with (m - 1) by lia.
        apply Hcells1. exact Hi. }
      unfold bind at 1. rewrite Hrun2.
      destruct (cell_is_get l2 (n - 1) _ ltac:(lia)
                  (Hcells2 (n - 1) ltac:(lia))) as (b & Hb & Hsem).
      exists b. split; [unfold lift; rewrite Hb; reflexivity |].
      intros env. rewrite Hsem. unfold in_window.
      replace (n - 1 - (n - 1)) with 0 by lia.
      replace (n - 1 - base) with cl by lia.
      replace (n - 1) with cr by lia. reflexivity.
Qed.

(** *** The exact-count builder for one shared value *)

Lemma layers_equiv_refl l : layers_equiv l l.
Proof.
  unfold layers_equiv. apply Forall2_lookup. intros i.
  destruct (l !! i) as [[b |] |]; repeat constructor.
Qed.

Lemma cell_is_equiv l l' i P :
  layers_equiv l l' -> cell_is l' i P -> cell_is l i P.
Proof.
  intros Hl (b' & Hb' & HP).
  destruct (Forall2_lookup_r _ _ _ _ _ Hl Hb') as (cell & Hcell & Hrel).
  inversion Hrel as [b ? Hb |]; subst.
  exists b. split; [exact Hcell |].
  intros env. rewrite (Hb env). apply HP.
Qed.

Lemma bdd_equiv_nested_joint ex ey t t' e e' :
  bdd_equiv t t' -> bdd_equiv e e' ->
  bdd_equiv (ite ex (ite ey t e) e) (ite (bdd_and ey ex) t' e').
Proof.
  intros Ht He env. cbn [eval]. rewrite (Ht env), (He env).
  destruct (eval env ex), (eval env ey); reflexivity.
Qed.

#[local] Hint Resolve bdd_equiv_nested_joint : bddeq.

(** The sweeps of [extcardeq] build, node by node, handles equivalent to
    those of the layers for [cr]. *)
Lemma eq_column_as_upper idx : forall l l',
  layers_equiv l l' ->
  M_rel layers_equiv (eq_column x y xmin ymin idx l)
                     (lqgq_upper_column x y xmin ymin idx l').
Proof.
  induction idx as [| i idx IH]; intros l l' Hl;
    cbn [eq_column lqgq_upper_column]; related.
Qed.

Lemma eq_remaining_as_upper n fuel : forall l l',
  layers_equiv l l' ->
  M_rel layers_equiv (eq_remaining x y fuel xmin ymin n l)
                     (lqgq_upper_loop x y fuel xmin ymin n l').
Proof.
  induction fuel as [| fuel IH]; intros l l' Hl;
    cbn [eq_remaining lqgq_upper_loop];
    related_with ltac:(apply eq_column_as_upper; assumption).
Qed.

Lemma extcardeq_one_run (r c0 : Z) :
  2 <= m ->
  exists b,
    extcardeq x y 1 2 r (at_pos c0) = Done (b, at_pos (-1))
    /\ forall env,
         eval env b
         = (1 <=? count_from x y vs env 0)
           && (count_from x y vs env 0 <=? 1).
Proof.
  intros Hm.
  destruct (min_at (m - 1) ltac:(lia)) as (v & Hv & Hlit).
  set (seed := ite (bdd_and (element x (v - xmin)) (element y (v - ymin)))
                   bdd_true bdd_false).
  set (l2 := [Some bdd_true; Some seed]).
  assert (extcardeq x y 1 2 r (at_pos c0)
          = bind (eq_remaining x y (Z.to_nat m) xmin ymin 2 l2)
                 (fun l3 => lift (layer_get l3 (2 - 1))) (at_pos (m - 1)))
    as ->.
  { unfold extcardeq.
    change (zrange 1 (1 + 1)) with [1]. change (zrange 1 2) with [1].
    cbn [eq_lowest eq_connect].
    unfold bind, lift, move, read, ret, sweep_budget, look.
    change (layer_set (alloc 2) 0 bdd_true)
      with (Done [Some bdd_true; @None bdd]).
    cbv beta iota.
    change (ValCache.last (at_pos c0)) with (at_pos (m - 1)).
    rewrite Hv. reflexivity. }
  destruct (lqgq_upper_loop_run 0 2 (Z.to_nat m) (m - 1) l2)
    as (l3' & Hrun' & Hcells'); try (cbn; lia).
  { intros i Hi. assert (i = 0 \/ i = 1) as [-> | ->] by lia.
    - exists bdd_true. split; [reflexivity |].
      intros env. unfold in_window.
      pose proof (count_from_bounds env (m - 1 + 1 - 0) ltac:(lia)).
      cbn [eval]. cases_leb.
    - exists seed. split; [reflexivity |].
      intros env. unfold in_window, seed. cbn [eval].
      fold (both_contain x y env v). rewrite Hlit.
      replace (m - 1 + 1 - 1) with (m - 1) by lia.
      pose proof (count_from_step env (m - 1) ltac:(lia)) as Hstep.
      pose proof (count_from_bounds env (m - 1 + 1) ltac:(lia)).
      rewrite Hstep.
      destruct (lit_at x y vs env (m - 1)); cases_leb. }
  pose proof (eq_remaining_as_upper 2 (Z.to_nat m) l2 l2
                (layers_equiv_refl l2) (at_pos (m - 1))) as Hrel.
  rewrite Hrun' in Hrel. unfold outcome_rel in Hrel.
  destruct (eq_remaining x y (Z.to_nat m) xmin ymin 2 l2 (at_pos (m - 1)))
    as [[l3 st3] |] eqn:Hrun; [| contradiction].
  cbn [fst snd] in Hrel. destruct Hrel as [Hequiv ->].
  unfold bind. rewrite Hrun.
  destruct (cell_is_get l3 (2 - 1) _ ltac:(lia)
              (cell_is_equiv l3 l3' (2 - 1) _ Hequiv
                 (Hcells' (2 - 1) ltac:(lia)))) as (b & Hb & Hsem).
  exists b. split; [unfold lift; rewrite Hb; reflexivity |].
  intros env. rewrite Hsem. unfold in_window. reflexivity.
Qed.

End WindowCorrectness.

(** *** [extcardcheck] on the windows it builds correctly *)

Lemma forallb_filter_length {A : Type} (f : A -> bool) (l : list A) :
  forallb f l
  = (Z.of_nat (length l) <=? Z.of_nat (length (List.filter f l))).
Proof.
  induction l as [| a l IH]; [reflexivity |].
  cbn [forallb List.filter]. pose proof (filter_length_le f l) as Hle.
  destruct (f a); cbn [andb length].
  - rewrite IH. cases_leb.
  - cases_leb.
Qed.

Lemma conj_pos_count {View0 View1 : Type} `{SetView View0} `{SetView View1}
    (x : View0) (y : View1) env :
  eval env (conj_pairs x y element element (common_values x y))
  = (Z.of_nat (length (common_values x y)) <=? shared_count x y env).
Proof.
  unfold conj_pairs, shared_count.
  rewrite (eval_conj_fold env
             (fun v => element x (v - initialLubMin x))
             (fun v => element y (v - initialLubMin y))).
  cbn [eval andb]. apply forallb_filter_length.
Qed.

(** For fewer than [INT_MAX] common values and a window
    [0 <= cl <= cr], [0 < cr] ([cr] after clipping) that is not an exact
    count strictly between 1 and the intersection size, the diagram of
    [extcardcheck] accepts exactly the assignments whose number of shared
    values lies in the window. *)
Lemma extcardcheck_window_correct
    {View0 View1 : Type} `{SetView View0} `{SetView View1}
    (x : View0) (y : View1) (cl cr : Z) :
  Z.of_nat (length (common_values x y)) < INT_MAX ->
  0 <= cl <= clip x y cr -> 0 < clip x y cr ->
  (cl = clip x y cr -> cl = isize x y \/ cl = 1) ->
  exists b,
    extcardcheck x y cl cr = Done b
    /\ forall env,
         eval env b
         = (cl <=? shared_count x y env)
           && (shared_count x y env <=? clip x y cr).
Proof.
  intros Hlen Hwin Hpos Hexact. unfold INT_MAX in Hlen.
  assert (Z.of_nat (length (common_values x y)) <= INT_MAX) as Hle
    by (unfold INT_MAX; lia).
  pose proof (isize_length x y Hle) as Hsize.
  assert (clip x y cr <= isize x y) as Hclip.
  { unfold clip. destruct (Z.gtb_spec cr (isize x y)); lia. }
  assert (forall env, 0 <= shared_count x y env <= isize x y) as Hcount.
  { intros env. rewrite Hsize. unfold shared_count.
    pose proof (filter_length_le (both_contain x y env) (common_values x y)).
    lia. }
  pose proof (init_wf (common_values x y) Hle) as Hwf.
  rewrite extcardcheck_unfold. cbv zeta.
  rewrite (proj2 (orb_false_iff _ _)).
  2:{ split; rewrite Z.gtb_ltb; apply Z.ltb_ge; lia. }
  rewrite (proj2 (Z.eqb_neq (clip x y cr) 0)) by lia.
  rewrite (to_int_to_unsigned (isize x y - 1)) by lia.
  rewrite (to_int_to_unsigned (clip x y cr + 1)) by lia.
  assert (ValCache.init (common_values x y)
          = ValCache.set_c 0 (ValCache.init (common_values x y))) as Hat
    by (rewrite init_eq; reflexivity).
  assert (ValCache.n (ValCache.init (common_values x y)) = isize x y) as Hm
    by (rewrite init_eq, Hsize; reflexivity).
  assert (forall env,
            count_from x y (ValCache.r (ValCache.init (common_values x y)))
              env 0 = shared_count x y env) as Hshared
    by (intros env; rewrite init_eq; reflexivity).
  destruct (Z.eqb_spec cl (clip x y cr)) as [Heq | Hne].
  - destruct (Z.eqb_spec (clip x y cr) (isize x y)) as [Hfull | Hpart].
    + (* the full set *)
      rewrite (run_conjoin x y (@element)). eexists.
      split; [reflexivity |].
      intros env. rewrite conj_pos_count, <- Hsize.
      specialize (Hcount env). cases_leb.
    + (* exactly one shared value *)
      destruct (Hexact Heq) as [Hbad | Hone]; [lia |].
      rewrite <- Heq, Hone. change (1 + 1) with 2.
      destruct (extcardeq_one_run x y _ Hwf (isize x y - 1) 0)
        as (b & Hrun & Hsem); [lia |].
      rewrite <- Hat in Hrun.
      exists b. split; [unfold run; rewrite Hrun; reflexivity |].
      intros env. rewrite Hsem, Hshared. reflexivity.
  - destruct (Z.eqb_spec (clip x y cr) (isize x y)) as [Hfull | Hpart];
      [destruct (Z.eqb_spec cl 0) as [Hzero | Hcl] |]; cbn [andb].
    + (* no restriction *)
      exists bdd_true. split; [reflexivity |].
      intros env. specialize (Hcount env). cbn [eval]. cases_leb.
    + destruct (extcardlqgq_run x y _ Hwf cl (clip x y cr)
                  (clip x y cr + 1) (isize x y - 1) 0)
        as (b & Hrun & Hsem); try lia.
      rewrite <- Hat in Hrun.
      exists b. split; [unfold run; rewrite Hrun; reflexivity |].
      intros env. rewrite Hsem, Hshared. reflexivity.
    + destruct (extcardlqgq_run x y _ Hwf cl (clip x y cr)
                  (clip x y cr + 1) (isize x y - 1) 0)
        as (b & Hrun & Hsem); try lia.
      rewrite <- Hat in Hrun.
      exists b. split; [unfold run; rewrite Hrun; reflexivity |].
      intros env. rewrite Hsem, Hshared. reflexivity.
Qed.

(** ** The case distinction of the window builder *)

(** C7, as the code has it.  On a cache of [r + 1] values with
    [n = cr + 1] layers and [0 <= cl < cr]: when [cr] equals the
    intersection size [r + 1], [extcardlqgq] returns layer [n - 1] as the
    common part left it; when [cr] equals [r], one less than the
    intersection size, it takes the single-layer case, one pass over all
    [n] layers, and that result is the one the connection layer followed
    by the layers for [cr] would produce.  In both cases the call returns
    a diagram, with the cursor left before the first value, and the
    diagram accepts exactly when the number of shared cached values lies
    in [[cl, cr]]. *)
Theorem extcardlqgq_case_distinction
    {View0 View1 : Type} `{SetView View0} `{SetView View1}
    (x : View0) (y : View1) (inter : ValCache.t) (cl cr n r : Z) :
  wf_cache inter ->
  r = ValCache.n inter - 1 ->
  n = cr + 1 ->
  0 <= cl < cr ->
  (cr = r + 1 ->
     lqgq_dispatch cr r = AllAllowed
     /\ extcardlqgq x y cl cr n r inter
        = bind (lqgq_prefix x y cl cr n r)
               (fun layer => lift (layer_get layer (n - 1))) inter)
  /\ (cr = r ->
     lqgq_dispatch cr r = SingleLayer
     /\ extcardlqgq x y cl cr n r inter
        = bind (lqgq_prefix x y cl cr n r)
               (fun layer =>
                  bind (lqgq_single x y (initialLubMin x) (initialLubMin y)
                          cl n layer)
                       (fun l1 => lift (layer_get l1 (n - 1)))) inter
     /\ extcardlqgq x y cl cr n r inter
        = extcardlqgq_two_phase x y cl cr n r inter)
  /\ (cr = r + 1 \/ cr = r ->
     exists b,
       extcardlqgq x y cl cr n r inter = Done (b, ValCache.set_c (-1) inter)
       /\ forall env,
            eval env b
            = (cl <=? count_from x y (ValCache.r inter) env 0)
              && (count_from x y (ValCache.r inter) env 0 <=? cr)).
Proof.
  intros Hwf Hr Hn Hwin. pose proof Hwf as (Hlen & Hs & Hmax).
  unfold INT_MAX in Hmax. split; [| split].
  - intros Hcr.
    assert (lqgq_dispatch cr r = AllAllowed) as Hcase.
    { unfold lqgq_dispatch. rewrite to_int_id by lia.
      rewrite (proj2 (Z.eqb_eq cr (r + 1)) Hcr). reflexivity. }
    split; [exact Hcase |].
    unfold extcardlqgq. rewrite Hcase. reflexivity.
  - intros Hcr.
    assert (lqgq_dispatch cr r = SingleLayer) as Hcase.
    { unfold lqgq_dispatch. rewrite to_int_id by lia.
      rewrite (proj2 (Z.eqb_neq cr (r + 1))) by lia.
      rewrite (proj2 (Z.eqb_eq cr r) Hcr). reflexivity. }
    split; [exact Hcase |].
    split; [unfold extcardlqgq; rewrite Hcase; reflexivity |].
    unfold extcardlqgq, extcardlqgq_two_phase. rewrite Hcase.
    unfold bind.
    destruct (lqgq_prefix x y cl cr n r inter) as [[layer st] |] eqn:Hprefix;
      [| reflexivity].
    apply frames_lqgq_prefix in Hprefix as (Hr' & Hn' & _).
    apply lqgq_finish_single_two_phase; try lia.
    rewrite <- Hr', <- Hn'. exact Hlen.
  - intros Hcr.
    destruct (extcardlqgq_run x y inter Hwf cl cr n r (ValCache.c inter))
      as (b & Hrun & Hsem); try lia.
    rewrite set_c_same in Hrun by reflexivity.
    exists b. split; assumption.
Qed.

Lemma extcardlqgq_case_distinction_witness :
  lqgq_dispatch 2 2 = SingleLayer
  /\ extcardlqgq (block_view 0 3) (block_view 3 3) 1 2 3 2
       (ValCache.init [0; 1; 2])
     = bind (lqgq_prefix (block_view 0 3) (block_view 3 3) 1 2 3 2)
            (fun layer =>
               bind (lqgq_single (block_view 0 3) (block_view 3 3)
                       (initialLubMin (block_view 0 3))
                       (initialLubMin (block_view 3 3)) 1 3 layer)
                    (fun l1 => lift (layer_get l1 (3 - 1))))
            (ValCache.init [0; 1; 2])
  /\ extcardlqgq (block_view 0 3) (block_view 3 3) 1 2 3 2
       (ValCache.init [0; 1; 2])
     = extcardlqgq_two_phase (block_view 0 3) (block_view 3 3) 1 2 3 2
         (ValCache.init [0; 1; 2]).
Proof.
  refine (proj1 (proj2 (extcardlqgq_case_distinction
                          (block_view 0 3) (block_view 3 3)
                          (ValCache.init [0; 1; 2]) 1 2 3 2 _ _ _ _)) _).
  - apply init_wf. vm_compute. discriminate.
  - vm_compute. reflexivity.
  - reflexivity.
  - lia.
  - reflexivity.
Defined.

(** C7, as stated, fails: with [cr] equal to the intersection size the
    case taken is the plain return of layer [n - 1], not the single-layer
    pass.  Two common values, window [1,2]: [r = 1], [cr = 2 = r + 1]. *)
Lemma extcardlqgq_single_layer_counterexample :
  isize (block_view 0 2) (block_view 2 2) = 2
  /\ lqgq_dispatch 2 (to_int (to_unsigned
                        (isize (block_view 0 2) (block_view 2 2) - 1)))
     = AllAllowed
  /\ lqgq_dispatch 2 (to_int (to_unsigned
                        (isize (block_view 0 2) (block_view 2 2) - 1)))
     <> SingleLayer.
Proof. split; [reflexivity | split; [reflexivity | discriminate]]. Qed.

(** ** The exact-count builder *)

(** C1 at a failing input.  Both upper bounds are [0..2] and the window is
    [2,2], so [extcardcheck] calls [extcardeq].  Under the assignment in
    which both sets contain the value 2 and nothing else, one common value
    is shared, yet the diagram accepts: the lowest-layer loop of
    [extcardeq] reads the last value for every layer because it never
    moves the cursor. *)
Theorem extcardcheck_exact_count_accepts_wrong_count :
  exists b,
    extcardcheck (block_view 0 3) (block_view 3 3) 2 2 = Done b
    /\ shared_count (block_view 0 3) (block_view 3 3) (slots_on [2; 5]) = 1
    /\ eval (slots_on [2; 5]) b = true.
Proof. eexists. split; [reflexivity | split; reflexivity]. Qed.

(** The stated instance holds: four common values and window [1,3].  The
    diagram accepts an assignment exactly when the number of shared values
    is 1, 2 or 3. *)
Lemma extcardcheck_window_1_3_of_4 :
  exists b,
    extcardcheck (block_view 0 4) (block_view 4 4) 1 3 = Done b
    /\ forall env,
         eval env b
         = (1 <=? shared_count (block_view 0 4) (block_view 4 4) env)
           && (shared_count (block_view 0 4) (block_view 4 4) env <=? 3).
Proof.
  eexists. split; [reflexivity |].
  intros env. vm_compute.
  destruct (env 0), (env 1), (env 2), (env 3),
           (env 4), (env 5), (env 6), (env 7); reflexivity.
Qed.

(** Of the 16 sets of values the two views can share, the diagram for
    window [1,3] over four common values accepts 14: all but the empty
    set and the full set. *)
Lemma extcardcheck_window_1_3_of_4_count :
  exists b,
    extcardcheck (block_view 0 4) (block_view 4 4) 1 3 = Done b
    /\ length (subsets [0; 1; 2; 3]) = 16%nat
    /\ length (List.filter (fun shared => eval (sharing 0 4 shared) b)
                           (subsets [0; 1; 2; 3])) = 14%nat
    /\ eval (sharing 0 4 []) b = false
    /\ eval (sharing 0 4 [0; 1; 2; 3]) b = false.
Proof. eexists. repeat split; vm_compute; reflexivity. Qed.

(** The window [0,0] is narrower than the count: with one common value
    that only [x] contains, no value is shared, yet the conjunction of
    the negated literals of both views rejects. *)
Lemma extcardcheck_window_0_0_rejects_unshared :
  exists b,
    extcardcheck (block_view 0 1) (block_view 1 1) 0 0 = Done b
    /\ shared_count (block_view 0 1) (block_view 1 1) (slots_on [0]) = 0
    /\ eval (slots_on [0]) b = false.
Proof. eexists. split; [reflexivity | split; reflexivity]. Qed.

(** ** Every call keeps the contents of the cache *)

Lemma to_int_to_unsigned_le z : 0 <= z -> to_int (to_unsigned z) <= z.
Proof.
  intros Hz. unfold to_int, to_unsigned.
  pose proof (Z.mod_pos_bound z (2 ^ 32) ltac:(lia)) as Hw.
  pose proof (Z.mod_le z (2 ^ 32) Hz ltac:(lia)) as Hle.
  set (w := z mod 2 ^ 32) in *.
  destruct (Z.lt_ge_cases w (2 ^ 31)) as [Hlow | Hhigh].
  - rewrite Z.mod_small by lia. lia.
  - replace (w + 2 ^ 31) with (w - 2 ^ 31 + 1 * 2 ^ 32) by lia.
    rewrite Z_mod_plus_full, Z.mod_small by lia. lia.
Qed.

Lemma bind_Fault {A B : Type} (m : M A) (k : A -> M B) st f :
  bind m k st = Fault f ->
  m st = Fault f
  \/ exists a st', m st = Done (a, st') /\ k a st' = Fault f.
Proof.
  unfold bind. destruct (m st) as [[a st'] | f'].
  - intros Hk. right. exists a, st'. split; [reflexivity | exact Hk].
  - intros [= <-]. left. reflexivity.
Qed.

Lemma layer_get_fault (layer : layers) (i : Z) (f : fault) :
  layer_get layer i = Fault f -> f = OutOfBounds.
Proof.
  unfold layer_get. destruct (i <? 0); [intros [= <-]; reflexivity |].
  destruct (layer !! Z.to_nat i) as [[b |] |]; try discriminate.
  intros [= <-]. reflexivity.
Qed.

Lemma layer_set_fault (layer : layers) (i : Z) (b : bdd) (f : fault) :
  layer_set layer i b = Fault f -> f = OutOfBounds.
Proof.
  unfold layer_set.
  destruct ((0 <=? i) && (i <? Z.of_nat (length layer))); [discriminate |].
  intros [= <-]. reflexivity.
Qed.

Lemma min_fault (st : ValCache.t) (f : fault) :
  ValCache.min st = Fault f -> f = OutOfBounds.
Proof.
  unfold ValCache.min, ValCache.val.
  destruct (ValCache.c st <? 0); [intros [= <-]; reflexivity |].
  destruct (ValCache.r st !! Z.to_nat (ValCache.c st)); [discriminate |].
  intros [= <-]. reflexivity.
Qed.

Lemma oob_ret {A : Type} (a : A) : oob_only (ret a).
Proof. intros st f Hrun. discriminate Hrun. Qed.

Lemma oob_look {A : Type} (g : ValCache.t -> A) : oob_only (look g).
Proof. intros st f Hrun. discriminate Hrun. Qed.

Lemma oob_move (g : ValCache.t -> ValCache.t) : oob_only (move g).
Proof. intros st f Hrun. discriminate Hrun. Qed.

Lemma oob_get (layer : layers) (i : Z) : oob_only (lift (layer_get layer i)).
Proof.
  intros st f Hrun. unfold lift in Hrun.
  destruct (layer_get layer i) as [b | f'] eqn:Hget; [discriminate |].
  injection Hrun as <-. apply (layer_get_fault _ _ _ Hget).
Qed.

Lemma oob_set (layer : layers) (i : Z) (b : bdd) :
  oob_only (lift (layer_set layer i b)).
Proof.
  intros st f Hrun. unfold lift in Hrun.
  destruct (layer_set layer i b) as [l | f'] eqn:Hset; [discriminate |].
  injection Hrun as <-. apply (layer_set_fault _ _ _ _ Hset).
Qed.

Lemma oob_min : oob_only (read ValCache.min).
Proof.
  intros st f Hrun. unfold read, lift in Hrun.
  destruct (ValCache.min st) as [v | f'] eqn:Hmin; [discriminate |].
  injection Hrun as <-. apply (min_fault _ _ Hmin).
Qed.

Lemma oob_bind {A B : Type} (m : M A) (k : A -> M B) :
  oob_only m -> (forall a, oob_only (k a)) -> oob_only (bind m k).
Proof.
  intros Hm Hk st f Hrun.
  apply bind_Fault in Hrun as [Hrun | (a & st' & _ & Hrun)].
  - apply (Hm _ _ Hrun).
  - apply (Hk _ _ _ Hrun).
Qed.

(** Decompose a goal [oob_only m] along the structure of [m]. *)
Ltac in_bounds_or_not :=
  repeat match goal with
  | |- oob_only (bind _ _) => apply oob_bind; [| intros ?]
  | |- oob_only (ret _) => apply oob_ret
  | |- oob_only (lift (layer_get _ _)) => apply oob_get
  | |- oob_only (lift (layer_set _ _ _)) => apply oob_set
  | |- oob_only (look _) => apply oob_look
  | |- oob_only (read ValCache.min) => apply oob_min
  | |- oob_only (move _) => apply oob_move
  | |- oob_only (if ?b then _ else _) => destruct b
  | IH : context [oob_only _] |- oob_only _ => solve [apply IH]
  end.

(** A cursor that fails the validity test at a position below 0. *)
Lemma invalid_below (st : ValCache.t) :
  ValCache.c st < 0 -> ValCache.valid st = false.
Proof.
  intros Hc. unfold ValCache.valid.
  rewrite (proj2 (Z.ltb_ge (-1) (ValCache.c st))) by lia. reflexivity.
Qed.

(** Restoring the saved position and stepping back leaves the cursor
    below where the sweep started. *)
Lemma restored_cursor (st st1 : ValCache.t) :
  ValCache.valid st = true ->
  ValCache.c (ValCache.retreat (ValCache.seek (ValCache.index st) st1))
  <= ValCache.c st - 1.
Proof.
  intros Hvalid. apply valid_iff in Hvalid.
  unfold ValCache.retreat, ValCache.seek, ValCache.index.
  rewrite !c_set_c.
  pose proof (to_int_to_unsigned_le (ValCache.c st) ltac:(lia)). lia.
Qed.

Section NoOtherFault.

Context {View0 View1 : Type} `{SetView View0} `{SetView View1}.
Variables (x : View0) (y : View1).

Lemma oob_eq_lowest xmin ymin idx : forall layer,
  oob_only (eq_lowest x y xmin ymin idx layer).
Proof.
  induction idx as [| i idx IH]; intros layer; cbn [eq_lowest];
    in_bounds_or_not.
Qed.

Lemma oob_eq_connect idx : forall layer, oob_only (eq_connect idx layer).
Proof.
  induction idx as [| i idx IH]; intros layer; cbn [eq_connect];
    in_bounds_or_not.
Qed.

Lemma oob_eq_column xmin ymin idx : forall layer,
  oob_only (eq_column x y xmin ymin idx layer).
Proof.
  induction idx as [| i idx IH]; intros layer; cbn [eq_column];
    in_bounds_or_not.
Qed.

Lemma oob_lqgq_lowest xmin ymin idx : forall layer,
  oob_only (lqgq_lowest x y xmin ymin idx layer).
Proof.
  induction idx as [| i idx IH]; intros layer; cbn [lqgq_lowest];
    in_bounds_or_not.
Qed.

Lemma oob_lqgq_lower_column xmin ymin cr r idx : forall layer,
  oob_only (lqgq_lower_column x y xmin ymin cr r idx layer).
Proof.
  induction idx as [| i idx IH]; intros layer; cbn [lqgq_lower_column];
    in_bounds_or_not.
Qed.

Lemma oob_lqgq_link xmin ymin connect idx : forall f layer,
  oob_only (lqgq_link x y xmin ymin connect f idx layer).
Proof.
  induction idx as [| i idx IH]; intros f layer; cbn [lqgq_link];
    in_bounds_or_not.
Qed.

Lemma oob_lqgq_upper_column xmin ymin idx : forall layer,
  oob_only (lqgq_upper_column x y xmin ymin idx layer).
Proof.
  induction idx as [| i idx IH]; intros layer; cbn [lqgq_upper_column];
    in_bounds_or_not.
Qed.

(** A backward sweep that starts at a cursor below its budget does not
    exhaust it: every round leaves the cursor lower. *)
Lemma eq_remaining_fault xmin ymin n fuel : forall layer st f,
  ValCache.c st < Z.of_nat fuel ->
  eq_remaining x y fuel xmin ymin n layer st = Fault f ->
  f = OutOfBounds.
Proof.
  induction fuel as [| fuel IH]; intros layer st f Hc Hrun;
    cbn [eq_remaining] in Hrun; rewrite bind_look in Hrun.
  - rewrite invalid_below in Hrun by lia. discriminate Hrun.
  - destruct (ValCache.valid st) eqn:Hvalid; cbn [negb] in Hrun;
      [| discriminate Hrun].
    rewrite bind_look in Hrun.
    apply bind_Fault in Hrun as [Hrun | (l1 & st1 & _ & Hrun)].
    + apply (oob_eq_column _ _ _ _ _ _ Hrun).
    + rewrite bind_look in Hrun.
      destruct (ValCache.valid st1); cbn [negb] in Hrun;
        [| discriminate Hrun].
      rewrite !bind_move in Hrun.
      apply IH in Hrun; [exact Hrun |].
      pose proof (restored_cursor st st1 Hvalid). lia.
Qed.

Lemma lqgq_lower_fault xmin ymin cl cr n r fuel : forall layer st f,
  ValCache.c st < Z.of_nat fuel ->
  lqgq_lower x y fuel xmin ymin cl cr n r layer st = Fault f ->
  f = OutOfBounds.
Proof.
  induction fuel as [| fuel IH]; intros layer st f Hc Hrun;
    cbn [lqgq_lower] in Hrun; rewrite bind_look in Hrun.
  - rewrite invalid_below in Hrun by lia. discriminate Hrun.
  - destruct (ValCache.valid st) eqn:Hvalid; cbn [negb] in Hrun;
      [| discriminate Hrun].
    rewrite bind_look in Hrun.
    apply bind_Fault in Hrun as [Hrun | (l1 & st1 & _ & Hrun)].
    + apply (oob_lqgq_lower_column _ _ _ _ _ _ _ _ Hrun).
    + rewrite bind_look in Hrun.
      destruct (ValCache.valid st1); cbn [negb] in Hrun;
        [| discriminate Hrun].
      rewrite !bind_move in Hrun.
      apply IH in Hrun; [exact Hrun |].
      pose proof (restored_cursor st st1 Hvalid). lia.
Qed.

Lemma lqgq_upper_loop_fault xmin ymin n fuel : forall layer st f,
  ValCache.c st < Z.of_nat fuel ->
  lqgq_upper_loop x y fuel xmin ymin n layer st = Fault f ->
  f = OutOfBounds.
Proof.
  induction fuel as [| fuel IH]; intros layer st f Hc Hrun;
    cbn [lqgq_upper_loop] in Hrun; rewrite bind_look in Hrun.
  - rewrite invalid_below in Hrun by lia. discriminate Hrun.
  - destruct (ValCache.valid st) eqn:Hvalid; cbn [negb] in Hrun;
      [| discriminate Hrun].
    rewrite bind_look in Hrun.
    apply bind_Fault in Hrun as [Hrun | (l1 & st1 & _ & Hrun)].
    + apply (oob_lqgq_upper_column _ _ _ _ _ _ Hrun).
    + rewrite bind_look in Hrun.
      destruct (ValCache.valid st1); cbn [negb] in Hrun;
        [| discriminate Hrun].
      rewrite !bind_move in Hrun.
      apply IH in Hrun; [exact Hrun |].
      pose proof (restored_cursor st st1 Hvalid). lia.
Qed.

(** The budget a sweep is given covers the position it starts from. *)
Lemma budget_covers (st : ValCache.t) (back : Z) :
  0 <= back ->
  ValCache.c (ValCache.set_c (ValCache.n st - 1 - back) st)
  < Z.of_nat (Z.to_nat (ValCache.n st)).
Proof. intros Hback. rewrite c_set_c. lia. Qed.

Lemma oob_extcardeq c n r : oob_only (extcardeq x y c n r).
Proof.
  unfold extcardeq.
  apply oob_bind; [apply oob_set | intros l0].
  apply oob_bind; [apply oob_move | intros _].
  apply oob_bind; [apply oob_eq_lowest | intros l1].
  apply oob_bind; [apply oob_eq_connect | intros l2].
  intros st f Hrun. rewrite bind_move in Hrun.
  unfold sweep_budget in Hrun. rewrite bind_look in Hrun.
  apply bind_Fault in Hrun as [Hrun | (l3 & st3 & _ & Hrun)].
  - apply eq_remaining_fault in Hrun; [exact Hrun |].
    pose proof (budget_covers st 0 ltac:(lia)) as Hb.
    rewrite Z.sub_0_r in Hb. exact Hb.
  - apply (oob_get _ _ _ _ Hrun).
Qed.

Lemma oob_lqgq_prefix cl cr n r : oob_only (lqgq_prefix x y cl cr n r).
Proof.
  unfold lqgq_prefix.
  apply oob_bind; [apply oob_set | intros l0].
  apply oob_bind; [apply oob_move | intros _].
  apply oob_bind; [apply oob_min | intros _].
  apply oob_bind; [apply oob_lqgq_lowest | intros l1].
  intros st f Hrun. rewrite !bind_move in Hrun.
  unfold sweep_budget in Hrun. rewrite bind_look in Hrun.
  apply lqgq_lower_fault in Hrun; [exact Hrun |].
  apply (budget_covers st 1). lia.
Qed.

Lemma oob_lqgq_upper xmin ymin n layer :
  oob_only (lqgq_upper x y xmin ymin n layer).
Proof.
  unfold lqgq_upper. intros st f Hrun. rewrite !bind_move in Hrun.
  unfold sweep_budget in Hrun. rewrite bind_look in Hrun.
  apply lqgq_upper_loop_fault in Hrun; [exact Hrun |].
  apply (budget_covers st 1). lia.
Qed.

Lemma oob_lqgq_finish k cl n layer :
  oob_only (lqgq_finish x y k cl n layer).
Proof.
  destruct k; cbn [lqgq_finish].
  - apply oob_get.
  - apply oob_bind; [| intros l1; apply oob_get].
    unfold lqgq_single. in_bounds_or_not. apply oob_lqgq_link.
  - apply oob_bind; [| intros l1].
    + unfold lqgq_connection. in_bounds_or_not. apply oob_lqgq_link.
    + apply oob_bind; [apply oob_lqgq_upper | intros l2; apply oob_get].
Qed.

Lemma oob_extcardlqgq cl cr n r : oob_only (extcardlqgq x y cl cr n r).
Proof.
  unfold extcardlqgq.
  apply oob_bind; [apply oob_lqgq_prefix | intros layer].
  apply oob_lqgq_finish.
Qed.

End NoOtherFault.

Lemma keeps_cache_intro {A : Type} (m : M A) (st : ValCache.t) :
  frames m -> oob_only m -> keeps_cache m st.
Proof.
  intros Hframes Hoob. unfold keeps_cache.
  destruct (m st) as [[a st'] | f] eqn:Hrun.
  - apply (Hframes _ _ _ Hrun).
  - apply (Hoob _ _ Hrun).
Qed.

(** C10.  Every call of [extcardeq] and of [extcardlqgq], whatever the
    views, the arguments and the cache are, ends in one of two ways: it
    returns, and then the value array [r], the range count [n] and the
    element count [s] of the cache are as they were and only the cursor
    [c] may differ; or it accesses the cache or the layer array outside
    its bounds, where the source has no defined behaviour.  No loop runs
    beyond its budget, and a layer that was never assigned is read as the
    default-constructed handle. *)
Theorem builders_frame_cache
    {View0 View1 : Type} `{SetView View0} `{SetView View1}
    (x : View0) (y : View1) (c cl cr n r : Z) (inter : ValCache.t) :
  keeps_cache (extcardeq x y c n r) inter
  /\ keeps_cache (extcardlqgq x y cl cr n r) inter.
Proof.
  split; apply keeps_cache_intro.
  - apply frames_extcardeq.
  - apply oob_extcardeq.
  - apply frames_extcardlqgq.
  - apply oob_extcardlqgq.
Qed.

Lemma builders_frame_cache_witness :
  exists b inter',
    extcardeq (block_view 0 3) (block_view 3 3) 1 3 2
      (ValCache.init [0; 1; 2]) = Done (b, inter')
    /\ same_contents (ValCache.init [0; 1; 2]) inter'.
Proof.
  pose proof (proj1 (builders_frame_cache
                       (block_view 0 3) (block_view 3 3) 1 0 0 3 2
                       (ValCache.init [0; 1; 2]))) as Hkeeps.
  unfold keeps_cache in Hkeeps.
  destruct (extcardeq (block_view 0 3) (block_view 3 3) 1 3 2
              (ValCache.init [0; 1; 2])) as [[b inter'] | f] eqn:Hrun.
  - exists b, inter'. split; [reflexivity | exact Hkeeps].
  - vm_compute in Hrun. discriminate Hrun.
Defined.

(* ================================================================== *)
(** * Further properties of the code *)
(* ================================================================== *)

(** ** More on the value cache *)

Lemma apply_ops_contents ops : forall vc,
  same_contents (fold_left apply_op ops vc) vc.
Proof.
  induction ops as [| op ops IH]; intros vc; cbn [fold_left].
  - apply same_contents_refl.
  - eapply same_contents_trans; [apply IH | apply apply_op_contents].
Qed.

(** X1.  After [init] and any cursor operations, the validity test is exactly
    the guard of a read: [val()] returns the stored value at the cursor
    when [operator()] holds and is out of bounds when it does not; [min()]
    and [max()] are the same read. *)
Theorem ValCache_valid_guards_read (vs : list Z) (ops : list cursor_op) :
  (ValCache.valid (after_ops vs ops) = true ->
     exists v, vs !! Z.to_nat (ValCache.c (after_ops vs ops)) = Some v
               /\ ValCache.val (after_ops vs ops) = Done v)
  /\ (ValCache.valid (after_ops vs ops) = false ->
      ValCache.val (after_ops vs ops) = Fault OutOfBounds)
  /\ ValCache.min (after_ops vs ops) = ValCache.val (after_ops vs ops)
  /\ ValCache.max (after_ops vs ops) = ValCache.val (after_ops vs ops).
Proof.
  set (vc := after_ops vs ops).
  destruct (apply_ops_contents ops (ValCache.init vs)) as (Hr & Hn & _).
  fold (after_ops vs ops) in Hr, Hn. fold vc in Hr, Hn.
  rewrite init_eq in Hr, Hn. cbn in Hr, Hn.
  split; [| split; [| split; reflexivity]].
  - intros Hvalid. apply valid_iff in Hvalid. rewrite Hn in Hvalid.
    destruct (lookup_lt_is_Some_2 vs (Z.to_nat (ValCache.c vc)))
      as [v Hv]; [lia |].
    exists v. split; [exact Hv |].
    unfold ValCache.val. rewrite Hr, Hv.
    rewrite (proj2 (Z.ltb_ge _ _)) by lia. reflexivity.
  - intros Hinvalid. unfold ValCache.val.
    destruct (Z.ltb_spec (ValCache.c vc) 0) as [Hneg | Hpos];
      [reflexivity |].
    rewrite Hr, (proj2 (lookup_ge_None vs _)); [reflexivity |].
    unfold ValCache.valid in Hinvalid. rewrite Hn in Hinvalid.
    apply andb_false_iff in Hinvalid as [Hlo | Hhi].
    + apply Z.ltb_ge in Hlo. lia.
    + apply Z.ltb_ge in Hhi. lia.
Qed.

(** X2.  Saving the position with [index()] and restoring it with [index(pos)]
    brings the cache back whatever cursor operations came in between, also
    from the finished position [-1]; and [++] and [--] undo each other. *)
Theorem ValCache_index_restores (vc : ValCache.t) (ops : list cursor_op) :
  - 2 ^ 31 <= ValCache.c vc < 2 ^ 31 ->
  ValCache.seek (ValCache.index vc) (fold_left apply_op ops vc) = vc
  /\ ValCache.retreat (ValCache.advance vc) = vc
  /\ ValCache.advance (ValCache.retreat vc) = vc.
Proof.
  intros Hc.
  destruct (apply_ops_contents ops vc) as (Hr & Hn & Hs).
  unfold ValCache.seek, ValCache.index, ValCache.set_c.
  rewrite to_int_to_unsigned by lia. rewrite Hr, Hn, Hs.
  unfold ValCache.retreat, ValCache.advance, ValCache.set_c.
  destruct vc as [r c n s]. cbn.
  split; [reflexivity | split; f_equal; lia].
Qed.

Lemma ValCache_index_restores_witness :
  ValCache.seek (ValCache.index (ValCache.finish (ValCache.init [4; 7])))
    (fold_left apply_op [OpLast; OpRetreat; OpSeek 9]
       (ValCache.finish (ValCache.init [4; 7])))
  = ValCache.finish (ValCache.init [4; 7]).
Proof.
  refine (proj1 (ValCache_index_restores
                   (ValCache.finish (ValCache.init [4; 7]))
                   [OpLast; OpRetreat; OpSeek 9] _)).
  vm_compute. split; [discriminate | reflexivity].
Defined.


(** ** More on [testConsistency] *)

(** Turn the boolean tests recorded in the hypotheses into
    propositions. *)
Ltac tests_to_props :=
  repeat match goal with
  | H : context [?a >? ?b] |- _ => rewrite (Z.gtb_ltb a b) in H
  | H : (_ || _) = true |- _ => apply orb_true_iff in H
  | H : (_ || _) = false |- _ => apply orb_false_iff in H as [? ?]
  | H : (_ && _) = true |- _ => apply andb_true_iff in H as [? ?]
  | H : (_ && _) = false |- _ => apply andb_false_iff in H
  | H : negb _ = true |- _ => apply negb_true_iff in H
  | H : negb _ = false |- _ => apply negb_false_iff in H
  | H : (_ <? _) = true |- _ => apply Z.ltb_lt in H
  | H : (_ <? _) = false |- _ => apply Z.ltb_ge in H
  | H : _ \/ _ |- _ => destruct H
  end.

(** Follow [testConsistency] test by test, in the order it makes them. *)
Ltac follow_checks :=
  repeat match goal with
  | |- context [if ?b then _ else _] =>
      lazymatch b with
      | context [if _ then _ else _] => fail
      | _ => destruct b eqn:?; cbn [and_then]
      end
  | H : context [if ?b then _ else _] |- _ =>
      lazymatch b with
      | context [if _ then _ else _] => fail
      | _ => destruct b eqn:?; cbn [and_then] in H
      end
  end.

Lemma IntSet_nonempty (d : IntSet) : d <> [] <-> 0 < Z.of_nat (length d).
Proof. destruct d; cbn [length]; split; (congruence || lia). Qed.

(** X4.  [testConsistency] returns normally exactly when: a non-empty required
    set comes with a non-empty allowed set, lies inside the value limits
    and inside the allowed set's bounds; a non-empty allowed set lies
    inside the value limits with its bounds in order; and
    [0 <= cardMin <= cardMax <= Set::Limits::card]. *)
Theorem testConsistency_passes_iff
    (lim : SetLimits) (glb lub : IntSet) (cardMin cardMax : Z)
    (location : string) :
  - 2 ^ 31 <= cardMax < 2 ^ 31 ->
  testConsistency lim glb lub cardMin cardMax location = Pass
  <-> (glb <> [] ->
         lub <> []
         /\ IntSet_min glb <= IntSet_max glb
         /\ limits_min lim <= IntSet_min glb
         /\ IntSet_max glb <= limits_max lim
         /\ IntSet_min lub <= IntSet_min glb
         /\ IntSet_max glb <= IntSet_max lub)
      /\ (lub <> [] ->
            limits_min lim <= IntSet_min lub
            /\ IntSet_max lub <= limits_max lim
            /\ IntSet_min lub <= IntSet_max lub)
      /\ 0 <= cardMin <= cardMax
      /\ cardMax <= limits_card lim.
Proof.
  intros Hint.
  unfold testConsistency, check_glb, check_lub, check_card, IntSet_size.
  rewrite (IntSet_nonempty glb), (IntSet_nonempty lub).
  split.
  - intros Hpass. follow_checks; try discriminate.
    all: tests_to_props; rewrite ?to_unsigned_id in * by lia; lia.
  - intros Hcause. follow_checks; try reflexivity; exfalso.
    all: tests_to_props; rewrite ?to_unsigned_id in * by lia; lia.
Qed.

Lemma testConsistency_passes_iff_witness :
  testConsistency gecode_limits [(2, 5)] [(0, 10)] 1 3 "CpltSetVar" = Pass.
Proof.
  refine (proj2 (testConsistency_passes_iff
                   gecode_limits [(2, 5)] [(0, 10)] 1 3 "CpltSetVar" _) _).
  - lia.
  - vm_compute. repeat split; discriminate.
Defined.

(** X5.  [testConsistency] signals [OutOfRangeDomain] exactly in two
    situations: the required set is non-empty with bounds in order, the
    allowed set is non-empty, and a bound of the required set is outside
    the value limits; or the block for the required set passes and a bound
    of the non-empty allowed set is outside the value limits.  The
    cardinalities play no role. *)
Theorem testConsistency_out_of_range_domain_iff
    (lim : SetLimits) (glb lub : IntSet) (cardMin cardMax : Z)
    (location : string) :
  testConsistency lim glb lub cardMin cardMax location
  = Throw (VariableOutOfRangeDomain location)
  <-> lub <> []
      /\ ((glb <> []
           /\ IntSet_min glb <= IntSet_max glb
           /\ (IntSet_min glb < limits_min lim
               \/ limits_max lim < IntSet_max glb))
          \/ ((glb <> [] ->
                 IntSet_min glb <= IntSet_max glb
                 /\ limits_min lim <= IntSet_min glb
                 /\ IntSet_max glb <= limits_max lim
                 /\ IntSet_min lub <= IntSet_min glb
                 /\ IntSet_max glb <= IntSet_max lub)
              /\ (IntSet_min lub < limits_min lim
                  \/ limits_max lim < IntSet_max lub))).
Proof.
  unfold testConsistency, check_glb, check_lub, check_card, IntSet_size.
  rewrite (IntSet_nonempty glb), (IntSet_nonempty lub).
  split.
  - intros Hthrow. follow_checks; try discriminate.
    all: tests_to_props; lia.
  - intros Hcause. follow_checks; try reflexivity; exfalso.
    all: tests_to_props; lia.
Qed.

(** X6.  [testConsistency] signals [OutOfRangeCardinality] exactly when both
    range blocks pass and [cardMax] is non-negative and above
    [Set::Limits::card]; [cardMin] plays no role. *)
Theorem testConsistency_out_of_range_cardinality_iff
    (lim : SetLimits) (glb lub : IntSet) (cardMin cardMax : Z)
    (location : string) :
  - 2 ^ 31 <= cardMax < 2 ^ 31 ->
  testConsistency lim glb lub cardMin cardMax location
  = Throw (VariableOutOfRangeCardinality location)
  <-> (glb <> [] ->
         lub <> []
         /\ IntSet_min glb <= IntSet_max glb
         /\ limits_min lim <= IntSet_min glb
         /\ IntSet_max glb <= limits_max lim
         /\ IntSet_min lub <= IntSet_min glb
         /\ IntSet_max glb <= IntSet_max lub)
      /\ (lub <> [] ->
            limits_min lim <= IntSet_min lub
            /\ IntSet_max lub <= limits_max lim
            /\ IntSet_min lub <= IntSet_max lub)
      /\ 0 <= cardMax
      /\ limits_card lim < cardMax.
Proof.
  intros Hint.
  unfold testConsistency, check_glb, check_lub, check_card, IntSet_size.
  rewrite (IntSet_nonempty glb), (IntSet_nonempty lub).
  split.
  - intros Hthrow. follow_checks; try discriminate.
    all: tests_to_props; rewrite ?to_unsigned_id in * by lia; lia.
  - intros Hcause. follow_checks; try reflexivity; exfalso.
    all: tests_to_props; rewrite ?to_unsigned_id in * by lia; lia.
Qed.

Lemma testConsistency_out_of_range_cardinality_iff_witness :
  testConsistency gecode_limits [] [(0, 10)] 7 2147483646 "CpltSetVar"
  = Throw (VariableOutOfRangeCardinality "CpltSetVar").
Proof.
  refine (proj2 (testConsistency_out_of_range_cardinality_iff
                   gecode_limits [] [(0, 10)] 7 2147483646 "CpltSetVar" _)
                _).
  - lia.
  - vm_compute.
    split; [intros Hne; exfalso; apply Hne; reflexivity |].
    split; [intros _; repeat split; discriminate |].
    split; [discriminate | reflexivity].
Defined.

(** X7.  A non-empty required set with an empty allowed set signals
    [FailedDomain], whatever the bounds, the limits and the cardinalities
    are: it is the first test made. *)
Theorem testConsistency_required_without_allowed
    (lim : SetLimits) (glb : IntSet) (cardMin cardMax : Z)
    (location : string) :
  glb <> [] ->
  testConsistency lim glb [] cardMin cardMax location
  = Throw (VariableFailedDomain location).
Proof.
  intros Hne. apply IntSet_nonempty in Hne.
  unfold testConsistency, check_glb, IntSet_size.
  rewrite (proj2 (Z.gtb_gt _ 0)) by lia. reflexivity.
Qed.

Lemma testConsistency_required_without_allowed_witness :
  testConsistency gecode_limits [(2000000000, 1)] [] (-3) 9 "CpltSetVar"
  = Throw (VariableFailedDomain "CpltSetVar").
Proof.
  apply (testConsistency_required_without_allowed
           gecode_limits [(2000000000, 1)] (-3) 9 "CpltSetVar").
  discriminate.
Defined.

(** ** The order array of [variableorder] over two arrays *)

Lemma to_int_minus_unsigned a b : to_int (a - to_unsigned b) = to_int (a - b).
Proof.
  unfold to_int, to_unsigned. f_equal.
  replace (a - b mod 2 ^ 32 + 2 ^ 31) with (a + 2 ^ 31 - b mod 2 ^ 32) by lia.
  rewrite Zminus_mod_idemp_r. f_equal. lia.
Qed.

Section Order2Proofs.

Context {View View1 : Type} `{SetView View} `{SetView View1}.

(** One column of [y]: the slots are written one after the other from
    position [c]. *)
Lemma order_column_y_spec (f x0min : Z) (y : list View1) :
  forall (done rest : list Z),
  0 <= f < 2 ^ 31 ->
  (forall yi, In yi y ->
     0 <= offset yi /\ 0 <= tableWidth yi
     /\ offset yi + tableWidth yi <= INT_MAX
     /\ offset yi + (initialLubMax yi - initialLubMin yi) <= INT_MAX) ->
  (length (column_slots_y f x0min y) <= length rest)%nat ->
  order_column_y f x0min y (done ++ rest) (Z.of_nat (length done))
  = Done (done ++ column_slots_y f x0min y
          ++ drop (length (column_slots_y f x0min y)) rest,
          Z.of_nat (length done)
          + Z.of_nat (length (column_slots_y f x0min y))).
Proof.
  induction y as [| yi y IH]; intros done rest Hf Hall Hrest.
  - cbn. f_equal. f_equal. lia.
  - cbn [order_column_y].
    destruct (Hall yi (or_introl eq_refl)) as (Ho & Hw & How & Hspan).
    unfold INT_MAX in How, Hspan.
    assert (forall yj, In yj y ->
              0 <= offset yj /\ 0 <= tableWidth yj
              /\ offset yj + tableWidth yj <= INT_MAX
              /\ offset yj + (initialLubMax yj - initialLubMin yj)
                 <= INT_MAX) as Hall'.
    { intros yj Hin. apply Hall. right. exact Hin. }
    rewrite (to_int_id f) by lia.
    rewrite (to_int_id (offset yi)) by lia.
    rewrite (to_int_id (tableWidth yi)) by lia.
    rewrite (to_unsigned_id (offset yi)) by lia.
    rewrite to_int_minus_unsigned.
    rewrite Z.geb_leb.
    unfold column_slots_y in *. cbn [flat_map] in *.
    destruct ((initialLubMin yi <=? x0min + f)
              && (x0min + f <=? initialLubMax yi)) eqn:Hin.
    + apply andb_true_iff in Hin as [Hlo Hhi].
      apply Z.leb_le in Hlo, Hhi.
      rewrite (to_int_id (offset yi + f - (initialLubMin yi - x0min)))
        by lia.
      cbv zeta in *.
      destruct (offset yi + f - (initialLubMin yi - x0min)
                <=? offset yi + tableWidth yi).
      * cbn [app length] in *.
        destruct rest as [| old rest]; [cbn in Hrest; lia |].
        rewrite order_write_next.
        specialize (IH (done ++ [offset yi + f - (initialLubMin yi - x0min)])
                       rest Hf Hall').
        rewrite length_app in IH. cbn [length] in IH.
        replace (Z.of_nat (length done) + 1)
          with (Z.of_nat (length done + 1)) by lia.
        rewrite IH by (cbn in Hrest; lia).
        rewrite <- app_assoc. cbn [app drop]. f_equal. f_equal. lia.
      * cbn [app] in *. apply IH; assumption.
    + cbn [app] in *. apply IH; assumption.
Qed.

Lemma order_scope2_spec (cols : list Z) (x : list View) (y : list View1)
    (x0min : Z) :
  forall (done rest : list Z),
  (forall f, In f cols -> 0 <= f < 2 ^ 31) ->
  (forall f xi, In f cols -> In xi x ->
     0 <= offset xi /\ 0 <= tableWidth xi
     /\ offset xi + tableWidth xi <= INT_MAX
     /\ offset xi + f <= INT_MAX) ->
  (forall yi, In yi y ->
     0 <= offset yi /\ 0 <= tableWidth yi
     /\ offset yi + tableWidth yi <= INT_MAX
     /\ offset yi + (initialLubMax yi - initialLubMin yi) <= INT_MAX) ->
  let slots :=
    flat_map (fun f => column_slots f x ++ column_slots_y f x0min y) cols in
  (length slots <= length rest)%nat ->
  order_scope2 cols x y x0min (done ++ rest) (Z.of_nat (length done))
  = Done (done ++ slots ++ drop (length slots) rest,
          Z.of_nat (length done) + Z.of_nat (length slots)).
Proof.
  induction cols as [| f cols IH];
    intros done rest Hcols Hallx Hally slots Hrest; subst slots.
  - cbn. f_equal. f_equal. lia.
  - cbn [order_scope2 flat_map] in *. rewrite !length_app in Hrest.
    rewrite order_column_spec;
      [| apply (Hcols f); left; reflexivity | | lia].
    2:{ intros xi Hin. apply Hallx; [left; reflexivity | exact Hin]. }
    rewrite app_assoc.
    replace (Z.of_nat (length done) + Z.of_nat (length (column_slots f x)))
      with (Z.of_nat (length (done ++ column_slots f x)))
      by (rewrite length_app; lia).
    rewrite order_column_y_spec;
      [| apply (Hcols f); left; reflexivity | exact Hally
       | rewrite length_drop; lia].
    rewrite app_assoc.
    replace (Z.of_nat (length (done ++ column_slots f x))
             + Z.of_nat (length (column_slots_y f x0min y)))
      with (Z.of_nat (length ((done ++ column_slots f x)
                              ++ column_slots_y f x0min y)))
      by (rewrite !length_app; lia).
    rewrite IH.
    + rewrite !drop_drop, !length_app, <- !app_assoc.
      f_equal. f_equal; [| lia].
      f_equal. f_equal. f_equal. f_equal. f_equal. lia.
    + intros g Hin. apply Hcols. right. exact Hin.
    + intros g xi Hg Hin. apply Hallx; [right; exact Hg | exact Hin].
    + exact Hally.
    + rewrite !length_drop. lia.
Qed.

Lemma order_scope2_no_y (cols : list Z) (x : list View) (x0min : Z) :
  forall hls c,
  order_scope2 cols x (@nil View1) x0min hls c = order_scope cols x hls c.
Proof.
  induction cols as [| f cols IH]; intros hls c;
    cbn [order_scope2 order_scope]; [reflexivity |].
  destruct (order_column f x hls c) as [[hls' c'] | e]; [| reflexivity].
  cbn [order_column_y]. apply IH.
Qed.

End Order2Proofs.

Lemma variableorder2_planned
    {View View1 : Type} `{SetView View} `{SetView View1}
    (var_in_tab : Z) (x : list View) (y : list View1) :
  x <> [] ->
  order_fits2 var_in_tab x y ->
  variableorder2 var_in_tab x y = Done (planned_order2 var_in_tab x y).
Proof.
  intros Hne Hfits.
  destruct x as [| x0 x']; [contradiction |]. clear Hne.
  unfold variableorder2, planned_order2, order_fits2, collection_bounds in *.
  pose proof (offset_width_bounds_offset (x0 :: x') (offset x0)
                (tableWidth x0)) as Hmo.
  destruct (offset_width_bounds (x0 :: x') (offset x0) (tableWidth x0))
    as [mo mw] eqn:Hbounds.
  destruct Hfits as ((Hn0 & Hnmax) & Hallx & Hally & Hroom).
  cbn [fst] in Hmo. cbn [first_lub_min] in *.
  assert (0 <= mo) as Hmo0.
  { apply Hmo.
    - apply (Hallx x0). left. reflexivity.
    - intros xi Hin. apply (Hallx xi Hin). }
  clear Hmo.
  assert (mw < 2 ^ 31) as Hmw.
  { destruct (Hallx x0 (or_introl eq_refl)) as (Ho & _ & _ & Hom).
    unfold INT_MAX in Hom. lia. }
  set (scope := scope_slots2 mw (x0 :: x') y (initialLubMin x0)) in *.
  set (table := replicate (Z.to_nat var_in_tab) 0).
  assert (length table = Z.to_nat var_in_tab) as Htable
    by apply length_replicate.
  change table with ([] ++ table).
  rewrite (order_identity_from 0 mo [] table 0) by (cbn; lia).
  cbn [app]. rewrite Z.sub_0_r, Z.add_0_l.
  assert (length (zrange 0 mo) = Z.to_nat mo) as Hlen1.
  { rewrite zrange_length. f_equal. lia. }
  replace mo with (Z.of_nat (length (zrange 0 mo))) at 3 by lia.
  rewrite (order_scope2_spec (zrange 0 mw) (x0 :: x') y).
  2:{ intros f Hf. apply zrange_In in Hf. lia. }
  2:{ intros f xi Hf Hin. apply zrange_In in Hf.
      destruct (Hallx xi Hin) as (Ho & Hw & How & Hom).
      repeat split; lia. }
  2:{ intros yi Hin. destruct (Hally yi Hin) as (Ho & Hw & How & Hs & _).
      repeat split; assumption. }
  2:{ fold (scope_slots2 mw (x0 :: x') y (initialLubMin x0)). fold scope.
      rewrite length_drop. lia. }
  fold (scope_slots2 mw (x0 :: x') y (initialLubMin x0)). fold scope.
  rewrite Hlen1, drop_drop.
  rewrite to_unsigned_id by (unfold INT_MAX in Hnmax; lia).
  rewrite app_assoc.
  rewrite (order_identity_from _ var_in_tab).
  - rewrite drop_ge.
    + rewrite app_nil_r, length_app, Hlen1. f_equal. f_equal. f_equal. lia.
    + rewrite length_drop. lia.
  - rewrite length_app, Hlen1. lia.
  - lia.
  - rewrite length_drop. lia.
  - exact Hnmax.
Qed.

Lemma variableorder2_no_y
    {View View1 : Type} `{SetView View} `{SetView View1}
    (var_in_tab : Z) (x : list View) :
  variableorder2 var_in_tab x (@nil View1) = variableorder var_in_tab x.
Proof.
  unfold variableorder2, variableorder.
  destruct x as [| x0 x']; [reflexivity |].
  destruct (offset_width_bounds (x0 :: x') (offset x0) (tableWidth x0))
    as [mo mw].
  destruct (order_identity (zrange 0 mo)
              (replicate (Z.to_nat var_in_tab) 0) 0) as [[hls1 c1] | e];
    [| reflexivity].
  rewrite order_scope2_no_y. reflexivity.
Qed.

(** ** Orders that are permutations, and orders that overflow *)

Lemma zrange_app lo mid hi :
  lo <= mid <= hi -> zrange lo hi = zrange lo mid ++ zrange mid hi.
Proof.
  intros Hmid. remember (Z.to_nat (mid - lo)) as k eqn:Hk.
  revert lo Hmid Hk. induction k as [| k IH]; intros lo Hmid Hk.
  - assert (lo = mid) as -> by lia. rewrite (zrange_nil mid mid) by lia.
    reflexivity.
  - rewrite (zrange_cons lo hi), (zrange_cons lo mid) by lia.
    cbn [app]. f_equal. apply IH; lia.
Qed.

Lemma zrange_snoc lo hi :
  lo <= hi -> zrange lo (hi + 1) = zrange lo hi ++ [hi].
Proof.
  intros Hle. rewrite (zrange_app lo hi (hi + 1)) by lia.
  rewrite (zrange_cons hi (hi + 1)) by lia.
  rewrite (zrange_nil (hi + 1) (hi + 1)) by lia. reflexivity.
Qed.

Lemma flat_map_app_perm {A B : Type} (g h : A -> list B) (l : list A) :
  flat_map (fun a => g a ++ h a) l ≡ₚ flat_map g l ++ flat_map h l.
Proof.
  induction l as [| a l IH]; cbn [flat_map]; [reflexivity |].
  rewrite IH, <- !app_assoc. apply Permutation_app_head.
  rewrite !app_assoc. apply Permutation_app_tail.
  apply Permutation_app_comm.
Qed.

(** Over the columns [0 .. k - 1] a view of width [w] contributes the
    first [min w k] slots of its block. *)
Lemma column_of_view (o w : Z) (k : nat) :
  0 <= w ->
  flat_map (fun f => if o + f <? o + w then [o + f] else [])
           (zrange 0 (Z.of_nat k))
  = zrange o (o + Z.min w (Z.of_nat k)).
Proof.
  intros Hw. induction k as [| k IH].
  - rewrite !zrange_nil by lia. reflexivity.
  - replace (Z.of_nat (S k)) with (Z.of_nat k + 1) by lia.
    rewrite zrange_snoc by lia. rewrite flat_map_app, IH.
    cbn [flat_map]. rewrite app_nil_r.
    destruct (Z.ltb_spec (o + Z.of_nat k) (o + w)) as [Hin | Hout].
    + replace (Z.min w (Z.of_nat k)) with (Z.of_nat k) by lia.
      replace (Z.min w (Z.of_nat k + 1)) with (Z.of_nat k + 1) by lia.
      replace (o + (Z.of_nat k + 1)) with (o + Z.of_nat k + 1) by lia.
      rewrite zrange_snoc by lia. reflexivity.
    + rewrite app_nil_r. f_equal. lia.
Qed.

Section PermutationProofs.

Context {View : Type} `{SetView View}.

Lemma offset_width_bounds_width (x : list View) : forall mo mw,
  mw <= snd (offset_width_bounds x mo mw)
  /\ forall xi, In xi x -> tableWidth xi <= snd (offset_width_bounds x mo mw).
Proof.
  induction x as [| xi x IH]; intros mo mw; cbn [offset_width_bounds].
  - split; [cbn; lia | intros ? []].
  - set (mo' := if offset xi <? mo then offset xi else mo).
    set (mw' := if tableWidth xi >? mw then tableWidth xi else mw).
    destruct (IH mo' mw') as [Hmw Hall].
    assert (mw <= mw' /\ tableWidth xi <= mw') as [Hle Hxi].
    { unfold mw'. destruct (Z.gtb_spec (tableWidth xi) mw); lia. }
    split; [lia |].
    intros xj [<- | Hin]; [lia | apply Hall; exact Hin].
Qed.

(** Column by column or block by block: the same slots. *)
Lemma scope_slots_blocks (mw : Z) (x : list View) :
  0 <= mw ->
  (forall xi, In xi x -> 0 <= tableWidth xi <= mw) ->
  scope_slots mw x ≡ₚ flat_map view_block x.
Proof.
  intros Hmw. induction x as [| xi x IH]; intros Hall.
  - unfold scope_slots, column_slots. cbn [flat_map].
    induction (zrange 0 mw) as [| f cols IHc]; [reflexivity | exact IHc].
  - unfold scope_slots, column_slots in *. cbn [flat_map].
    rewrite flat_map_app_perm. apply Permutation_app.
    + destruct (Hall xi (or_introl eq_refl)) as [Hw Hwmax].
      replace mw with (Z.of_nat (Z.to_nat mw)) by lia.
      rewrite column_of_view by lia. unfold view_block.
      replace (Z.min (tableWidth xi) (Z.of_nat (Z.to_nat mw)))
        with (tableWidth xi) by lia.
      reflexivity.
    + apply IH. intros xj Hin. apply Hall. right. exact Hin.
Qed.

End PermutationProofs.

Lemma scope_slots2_no_y {View View1 : Type} `{SetView View} `{SetView View1}
    (mw : Z) (x : list View) (x0min : Z) :
  scope_slots2 mw x (@nil View1) x0min = scope_slots mw x.
Proof.
  unfold scope_slots2, scope_slots.
  apply flat_map_ext. intros f. cbn. apply app_nil_r.
Qed.

Lemma variableorder_planned {View : Type} `{SetView View}
    (var_in_tab : Z) (x : list View) :
  x <> [] ->
  order_fits var_in_tab x ->
  variableorder var_in_tab x = Done (planned_order var_in_tab x).
Proof.
  intros Hne Hfits.
  rewrite <- (variableorder2_no_y (View1 := View)).
  rewrite variableorder2_planned; [| exact Hne |].
  - unfold planned_order2, planned_order.
    destruct (collection_bounds x) as [mo mw].
    rewrite scope_slots2_no_y. reflexivity.
  - unfold order_fits2, order_fits in *.
    destruct (collection_bounds x) as [mo mw].
    rewrite scope_slots2_no_y.
    destruct Hfits as (Hn & Hall & Hroom).
    split; [exact Hn | split; [exact Hall | split; [| exact Hroom]]].
    intros yi [].
Qed.

(** X8.  When the blocks of the views, taken together, are exactly the slots
    from the minimum offset up to some slot, the order [variableorder]
    installs is a permutation of all slots of the table. *)
Theorem variableorder_permutes_tiled_slots
    {View : Type} `{SetView View} (var_in_tab : Z) (x : list View) (hi : Z) :
  x <> [] ->
  order_fits var_in_tab x ->
  flat_map view_block x ≡ₚ zrange (fst (collection_bounds x)) hi ->
  exists order,
    variableorder var_in_tab x = Done order
    /\ order ≡ₚ zrange 0 var_in_tab.
Proof.
  intros Hne Hfits Htiles.
  exists (planned_order var_in_tab x).
  split; [apply variableorder_planned; assumption |].
  unfold planned_order, order_fits in *.
  destruct x as [| x0 x']; [contradiction |].
  unfold collection_bounds in *.
  pose proof (offset_width_bounds_offset (x0 :: x') (offset x0)
                (tableWidth x0)) as Hmo.
  pose proof (offset_width_bounds_width (x0 :: x') (offset x0)
                (tableWidth x0)) as [Hmw0 Hmw].
  destruct (offset_width_bounds (x0 :: x') (offset x0) (tableWidth x0))
    as [mo mw].
  cbn [fst snd] in *.
  destruct Hfits as ((Hn0 & Hnmax) & Hall & Hroom).
  assert (0 <= mo) as Hmo0.
  { apply Hmo.
    - apply (Hall x0). left. reflexivity.
    - intros xi Hin. apply (Hall xi Hin). }
  assert (scope_slots mw (x0 :: x') ≡ₚ zrange mo hi) as Hscope.
  { rewrite scope_slots_blocks; [exact Htiles | |].
    - destruct (Hall x0 (or_introl eq_refl)) as (_ & Hw & _). lia.
    - intros xi Hin. destruct (Hall xi Hin) as (_ & Hw & _).
      split; [exact Hw | apply Hmw; exact Hin]. }
  set (scope := scope_slots mw (x0 :: x')) in *.
  pose proof (Permutation_length Hscope) as Hlen.
  rewrite zrange_length in Hlen.
  assert (zrange mo hi = zrange mo (mo + Z.of_nat (length scope))) as Hhi.
  { destruct (Z.le_gt_cases mo hi).
    - f_equal. lia.
    - rewrite !zrange_nil by lia. reflexivity. }
  rewrite Hhi in Hscope.
  rewrite length_app, zrange_length.
  replace (Z.of_nat (Z.to_nat (mo - 0) + length scope))
    with (mo + Z.of_nat (length scope)) by lia.
  rewrite (zrange_app 0 mo var_in_tab) by lia.
  rewrite (zrange_app mo (mo + Z.of_nat (length scope)) var_in_tab) by lia.
  rewrite <- app_assoc. apply Permutation_app_head.
  apply Permutation_app_tail. exact Hscope.
Qed.

Lemma variableorder_permutes_tiled_slots_witness :
  exists order,
    variableorder 6 [block_view 1 2; block_view 3 2] = Done order
    /\ order ≡ₚ zrange 0 6.
Proof.
  apply (variableorder_permutes_tiled_slots
           6 [block_view 1 2; block_view 3 2] 5).
  - discriminate.
  - unfold order_fits. cbn. split; [| split].
    + unfold INT_MAX. lia.
    + intros xi [<- | [<- | []]]; cbn; unfold INT_MAX; lia.
    + vm_compute. discriminate.
  - vm_compute. reflexivity.
Defined.

(** The slots that get lost.  For a non-empty collection that fits the
    table, a slot [g] that lies in no block of the views and below the
    position the columns have reached, [min_offset] plus the number of
    slots they place, does not occur in the order [variableorder]
    installs: the last loop starts after it. *)
Lemma variableorder_skips_gap_slot
    {View : Type} `{SetView View} (var_in_tab : Z) (x : list View) (g : Z) :
  x <> [] ->
  order_fits var_in_tab x ->
  (forall xi, In xi x -> ~ In g (view_block xi)) ->
  fst (collection_bounds x) <= g
  < fst (collection_bounds x)
    + Z.of_nat (length (scope_slots (snd (collection_bounds x)) x)) ->
  exists order,
    variableorder var_in_tab x = Done order /\ ~ In g order.
Proof.
  intros Hne Hfits Hgap Hg.
  exists (planned_order var_in_tab x).
  split; [apply variableorder_planned; assumption |].
  unfold planned_order, order_fits in *.
  destruct x as [| x0 x']; [contradiction |].
  unfold collection_bounds in *.
  pose proof (offset_width_bounds_width (x0 :: x') (offset x0)
                (tableWidth x0)) as [Hmw0 Hmw].
  destruct (offset_width_bounds (x0 :: x') (offset x0) (tableWidth x0))
    as [mo mw].
  cbn [fst snd] in *.
  destruct Hfits as ((Hn0 & Hnmax) & Hall & Hroom).
  intros Hin. rewrite !in_app_iff in Hin.
  destruct Hin as [[Hin | Hin] | Hin].
  - apply zrange_In in Hin. lia.
  - assert (scope_slots mw (x0 :: x') ≡ₚ flat_map view_block (x0 :: x'))
      as Hscope.
    { apply scope_slots_blocks.
      - destruct (Hall x0 (or_introl eq_refl)) as (_ & Hw & _). lia.
      - intros xi Hxi. destruct (Hall xi Hxi) as (_ & Hw & _).
        split; [exact Hw | apply Hmw; exact Hxi]. }
    apply (Permutation_in _ Hscope) in Hin.
    apply in_flat_map in Hin as (xi & Hxi & Hblock).
    apply (Hgap xi Hxi Hblock).
  - apply zrange_In in Hin. rewrite length_app, zrange_length in Hin. lia.
Qed.

(** X9.  For a non-empty first array and collections that fit the table, the
    overload of [variableorder] with two arrays installs: identity below
    the minimum offset of [x]; then, column by column, the slots of [x]
    followed by the slots of the views of [y] whose upper bound holds the
    value of the column (a slot up to [offset + tableWidth], one past the
    block, is taken); then every remaining position [i] holds [i]. *)
Theorem variableorder2_installs_planned_order
    {View View1 : Type} `{SetView View} `{SetView View1}
    (var_in_tab : Z) (x : list View) (y : list View1) :
  x <> [] ->
  order_fits2 var_in_tab x y ->
  variableorder2 var_in_tab x y = Done (planned_order2 var_in_tab x y).
Proof. apply variableorder2_planned. Qed.

Lemma variableorder2_installs_planned_order_witness :
  variableorder2 5 [block_view 0 2] [mkTableView 2 1 0 1 [0; 1]]
  = Done (planned_order2 5 [block_view 0 2] [mkTableView 2 1 0 1 [0; 1]]).
Proof.
  apply (variableorder2_installs_planned_order
           5 [block_view 0 2] [mkTableView 2 1 0 1 [0; 1]]).
  - discriminate.
  - unfold order_fits2. cbn. split; [| split; [| split]].
    + unfold INT_MAX. lia.
    + intros xi [<- | []]; cbn; unfold INT_MAX; lia.
    + intros yi [<- | []]; cbn; unfold INT_MAX; lia.
    + vm_compute. discriminate.
Defined.

(** X10.  With an empty second array the overload with two arrays installs what
    [variableorder] over the first array alone installs, and fails where
    it fails. *)
Theorem variableorder2_without_second_array
    {View : Type} `{SetView View} (View1 : Type) `{SetView View1}
    (var_in_tab : Z) (x : list View) :
  variableorder2 var_in_tab x (@nil View1) = variableorder var_in_tab x.
Proof. apply variableorder2_no_y. Qed.

(** *** A table with too few slots *)

Lemma order_write_at_end (a : list Z) (v : Z) :
  order_write a (Z.of_nat (length a)) v = Fault OutOfBounds.
Proof.
  unfold order_write. rewrite Z.ltb_irrefl, andb_false_r. reflexivity.
Qed.

Lemma order_identity_overflow (rest : list Z) : forall (done : list Z) a b c,
  a = Z.of_nat (length done) ->
  a + Z.of_nat (length rest) < b ->
  order_identity (zrange a b) (done ++ rest) c = Fault OutOfBounds.
Proof.
  induction rest as [| old rest IH]; intros done a b c -> Hb;
    cbn [length] in Hb; rewrite zrange_cons by lia; cbn [order_identity].
  - rewrite app_nil_r, order_write_at_end. reflexivity.
  - rewrite order_write_next.
    rewrite <- app_assoc. cbn [app].
    change (done ++ to_int (Z.of_nat (length done)) :: rest)
      with (done ++ [to_int (Z.of_nat (length done))] ++ rest).
    rewrite app_assoc. apply IH.
    + rewrite length_app. cbn [length]. lia.
    + lia.
Qed.

Section OrderOverflow.

Context {View : Type} `{SetView View}.

Lemma order_column_overflow (f : Z) (x : list View) :
  forall (done rest : list Z),
  0 <= f ->
  (forall xi, In xi x ->
     0 <= offset xi /\ 0 <= tableWidth xi
     /\ offset xi + tableWidth xi <= INT_MAX
     /\ offset xi + f <= INT_MAX) ->
  (length rest < length (column_slots f x))%nat ->
  order_column f x (done ++ rest) (Z.of_nat (length done))
  = Fault OutOfBounds.
Proof.
  induction x as [| xi x IH]; intros done rest Hf Hall Hrest.
  - cbn in Hrest. lia.
  - cbn [order_column].
    destruct (Hall xi (or_introl eq_refl)) as (Ho & Hw & How & Hof).
    unfold INT_MAX in How, Hof.
    rewrite (to_int_id (offset xi)) by lia.
    rewrite (to_int_id (tableWidth xi)) by lia.
    rewrite (to_unsigned_id (offset xi)) by lia.
    rewrite (to_int_id (offset xi + f)) by lia.
    assert (forall xj, In xj x ->
              0 <= offset xj /\ 0 <= tableWidth xj
              /\ offset xj + tableWidth xj <= INT_MAX
              /\ offset xj + f <= INT_MAX) as Hall'.
    { intros xj Hin. apply Hall. right. exact Hin. }
    unfold column_slots in *. cbn [flat_map] in *.
    destruct (offset xi + f <? offset xi + tableWidth xi).
    + cbn [app length] in *.
      destruct rest as [| old rest].
      * rewrite app_nil_r, order_write_at_end. reflexivity.
      * rewrite order_write_next.
        specialize (IH (done ++ [offset xi + f]) rest Hf Hall').
        rewrite length_app in IH. cbn [length] in IH.
        replace (Z.of_nat (length done) + 1)
          with (Z.of_nat (length done + 1)) by lia.
        apply IH. cbn [length] in Hrest. lia.
    + cbn [app] in *. apply IH; assumption.
Qed.

Lemma order_scope_overflow (cols : list Z) (x : list View) :
  forall (done rest : list Z),
  (forall f, In f cols -> 0 <= f) ->
  (forall f xi, In f cols -> In xi x ->
     0 <= offset xi /\ 0 <= tableWidth xi
     /\ offset xi + tableWidth xi <= INT_MAX
     /\ offset xi + f <= INT_MAX) ->
  (length rest < length (flat_map (fun f => column_slots f x) cols))%nat ->
  order_scope cols x (done ++ rest) (Z.of_nat (length done))
  = Fault OutOfBounds.
Proof.
  induction cols as [| f cols IH]; intros done rest Hcols Hall Hrest.
  - cbn in Hrest. lia.
  - cbn [order_scope flat_map] in *. rewrite length_app in Hrest.
    assert (0 <= f) as Hf by (apply Hcols; left; reflexivity).
    assert (forall xi, In xi x ->
              0 <= offset xi /\ 0 <= tableWidth xi
              /\ offset xi + tableWidth xi <= INT_MAX
              /\ offset xi + f <= INT_MAX) as Hallf.
    { intros xi Hin. apply Hall; [left; reflexivity | exact Hin]. }
    destruct (Nat.le_gt_cases (length (column_slots f x)) (length rest))
      as [Hfits | Hover].
    + rewrite order_column_spec by assumption.
      rewrite app_assoc.
      replace (Z.of_nat (length done)
               + Z.of_nat (length (column_slots f x)))
        with (Z.of_nat (length (done ++ column_slots f x)))
        by (rewrite length_app; lia).
      apply IH.
      * intros g Hin. apply Hcols. right. exact Hin.
      * intros g xi Hg Hin. apply Hall; [right; exact Hg | exact Hin].
      * rewrite length_drop. lia.
    + rewrite order_column_overflow by assumption. reflexivity.
Qed.

End OrderOverflow.

(** X11.  [variableorder] does not compare what it writes with the size of the
    order array: when the table has fewer slots than the minimum offset
    plus the slots the columns place, a write falls outside the array. *)
Theorem variableorder_table_too_small
    {View : Type} `{SetView View} (var_in_tab : Z) (x : list View) :
  x <> [] ->
  0 <= var_in_tab <= INT_MAX ->
  (forall xi, In xi x ->
     0 <= offset xi /\ 0 <= tableWidth xi
     /\ offset xi + tableWidth xi <= INT_MAX
     /\ offset xi + snd (collection_bounds x) <= INT_MAX) ->
  var_in_tab
  < fst (collection_bounds x)
    + Z.of_nat (length (scope_slots (snd (collection_bounds x)) x)) ->
  variableorder var_in_tab x = Fault OutOfBounds.
Proof.
  intros Hne Hn Hall Hsmall.
  destruct x as [| x0 x']; [contradiction |]. clear Hne.
  unfold variableorder, collection_bounds in *.
  pose proof (offset_width_bounds_offset (x0 :: x') (offset x0)
                (tableWidth x0)) as Hmo.
  destruct (offset_width_bounds (x0 :: x') (offset x0) (tableWidth x0))
    as [mo mw] eqn:Hbounds.
  cbn [fst snd] in *.
  assert (0 <= mo) as Hmo0.
  { apply Hmo.
    - apply (Hall x0). left. reflexivity.
    - intros xi Hin. apply (Hall xi Hin). }
  clear Hmo.
  set (table := replicate (Z.to_nat var_in_tab) 0).
  assert (length table = Z.to_nat var_in_tab) as Htable
    by apply length_replicate.
  change table with ([] ++ table).
  destruct (Z.lt_ge_cases var_in_tab mo) as [Hbelow | Hroom].
  - rewrite (order_identity_overflow table [] 0 mo 0);
      [reflexivity | reflexivity | lia].
  - rewrite (order_identity_from 0 mo [] table 0) by (cbn; lia).
    cbn [app]. rewrite Z.sub_0_r, Z.add_0_l.
    assert (length (zrange 0 mo) = Z.to_nat mo) as Hlen1.
    { rewrite zrange_length. f_equal. lia. }
    replace mo with (Z.of_nat (length (zrange 0 mo))) at 3 by lia.
    rewrite (order_scope_overflow (zrange 0 mw) (x0 :: x')).
    + reflexivity.
    + intros f Hf. apply zrange_In in Hf. lia.
    + intros f xi Hf Hin. apply zrange_In in Hf.
      destruct (Hall xi Hin) as (Ho & Hw & How & Hom).
      repeat split; lia.
    + fold (scope_slots mw (x0 :: x')). rewrite length_drop. lia.
Qed.

Lemma variableorder_table_too_small_witness :
  variableorder 3 [block_view 0 2; block_view 2 2] = Fault OutOfBounds.
Proof.
  apply (variableorder_table_too_small 3 [block_view 0 2; block_view 2 2]).
  - discriminate.
  - unfold INT_MAX. lia.
  - intros xi [<- | [<- | []]]; cbn; unfold INT_MAX; lia.
  - vm_compute. reflexivity.
Defined.

(** ** What [extcardeq] builds *)

(** Decide the comparisons of a goal, equalities included. *)
Ltac cases_cmpb :=
  repeat match goal with
  | |- context [?a =? ?b] => destruct (Z.eqb_spec a b)
  | |- context [?a <=? ?b] => destruct (Z.leb_spec a b)
  | |- context [?a <? ?b] => destruct (Z.ltb_spec a b)
  end;
  cbn [andb orb negb]; try reflexivity; try lia.

Section ExactCount.

Context {View0 View1 : Type} `{SetView View0} `{SetView View1}.
Variables (x : View0) (y : View1).
Variable st0 : ValCache.t.
Hypothesis Hwf : wf_cache st0.

#[local] Abbreviation vs := (ValCache.r st0).
#[local] Abbreviation m := (ValCache.n st0).
#[local] Abbreviation xmin := (initialLubMin x).
#[local] Abbreviation ymin := (initialLubMin y).
#[local] Abbreviation at_pos c := (ValCache.set_c c st0).

Lemma count_from_end env : count_from x y vs env m = 0.
Proof.
  pose proof (m_length st0 Hwf) as Hm. unfold count_from.
  rewrite drop_ge by lia. reflexivity.
Qed.

Lemma count_from_mono env (k : nat) : forall a b,
  k = Z.to_nat (b - a) -> 0 <= a <= b -> b <= m ->
  count_from x y vs env b <= count_from x y vs env a
  /\ count_from x y vs env a <= count_from x y vs env b + (b - a).
Proof.
  induction k as [| k IH]; intros a b Hk Hab Hb.
  - assert (a = b) as -> by lia. lia.
  - rewrite (count_from_step x y st0 Hwf env a) by lia.
    destruct (IH (a + 1) b) as [Hlo Hhi]; try lia.
    destruct (lit_at x y vs env a); lia.
Qed.

Lemma last_shared_count env :
  1 <= m ->
  count_from x y vs env (m - 1) = if last_shared x y vs env then 1 else 0.
Proof.
  intros Hm. unfold last_shared. rewrite <- (m_length st0 Hwf).
  rewrite (count_from_step x y st0 Hwf env (m - 1)) by lia.
  replace (m - 1 + 1) with m by lia. rewrite count_from_end.
  destruct (lit_at x y vs env (m - 1)); reflexivity.
Qed.

Lemma last_shared_counted env a :
  0 <= a <= m - 1 -> last_shared x y vs env = true ->
  1 <= count_from x y vs env a.
Proof.
  intros Ha Hlast.
  destruct (count_from_mono env _ a (m - 1) eq_refl) as [Hlo _]; try lia.
  rewrite last_shared_count, Hlast in Hlo by lia. exact Hlo.
Qed.

Lemma last_unshared_count env a :
  0 <= a <= m - 1 -> last_shared x y vs env = false ->
  count_from x y vs env a <= m - 1 - a.
Proof.
  intros Ha Hlast.
  destruct (count_from_mono env _ a (m - 1) eq_refl) as [_ Hhi]; try lia.
  rewrite last_shared_count, Hlast in Hhi by lia. lia.
Qed.

(** *** The nodes of the lowest layer *)

Lemma eq_lowest_run (c v : Z) (k : nat) :
  ValCache.min (at_pos (m - 1)) = Done v ->
  (forall env, both_contain x y env v = last_shared x y vs env) ->
  forall i0 layer,
  i0 = c + 1 - Z.of_nat k -> 1 <= i0 ->
  c + 1 <= Z.of_nat (length layer) ->
  cell_is layer 0 (fun _ => true) ->
  (forall i, 1 <= i < i0 -> cell_is layer i (last_shared x y vs)) ->
  exists l',
    eq_lowest x y xmin ymin (zrange i0 (c + 1)) layer (at_pos (m - 1))
    = Done (l', at_pos (m - 1))
    /\ length l' = length layer
    /\ cell_is l' 0 (fun _ => true)
    /\ forall i, 1 <= i < c + 1 -> cell_is l' i (last_shared x y vs).
Proof.
  intros Hv Hlit.
  induction k as [| k IH]; intros i0 layer Hi0 Hpos Hlen Hzero Hcells.
  - rewrite zrange_nil by lia. cbn [eq_lowest]. exists layer.
    split; [reflexivity | split; [reflexivity | split; [exact Hzero |]]].
    intros i Hi. apply Hcells. lia.
  - rewrite zrange_cons by lia. cbn [eq_lowest].
    rewrite (bind_read _ _ _ v Hv).
    rewrite (bind_lift _ _ _ _ (layer_set_in_range layer i0 _ ltac:(lia))).
    set (l1 := <[Z.to_nat i0 := Some (element x (v - xmin))]> layer).
    assert (length l1 = length layer) as Hlen1 by apply length_insert.
    rewrite (bind_lift _ _ _ (element x (v - xmin))).
    2:{ apply layer_get_cell; [lia |]. unfold l1.
        apply list_lookup_insert_eq. lia. }
    rewrite (bind_lift _ _ _ _ (layer_set_in_range l1 i0 _ ltac:(lia))).
    set (l2 := <[Z.to_nat i0 :=
                   Some (bdd_and (element x (v - xmin))
                                 (element y (v - ymin)))]> l1).
    destruct (IH (i0 + 1) l2) as (l' & Hrun & Hlen' & Hzero' & Hcells');
      try lia.
    + unfold l2. rewrite length_insert. lia.
    + unfold l2, l1. do 2 (apply cell_is_insert_other; try lia).
      exact Hzero.
    + intros i Hi. destruct (Z.eq_dec i i0) as [-> | Hne].
      * unfold l2. apply cell_is_insert_same; [lia |].
        intros env. rewrite <- Hlit. reflexivity.
      * unfold l2, l1. do 2 (apply cell_is_insert_other; try lia).
        apply Hcells. lia.
    + exists l'. split; [exact Hrun | split; [| split; assumption]].
      rewrite Hlen'. unfold l2. rewrite length_insert. exact Hlen1.
Qed.

Lemma eq_connect_run (n : Z) (st : ValCache.t) (k : nat) :
  forall i0 layer,
  i0 = n - Z.of_nat k -> 1 <= i0 ->
  n <= Z.of_nat (length layer) ->
  cell_is layer 0 (fun _ => true) ->
  (forall i, 1 <= i < n -> cell_is layer i (last_shared x y vs)) ->
  exists l',
    eq_connect (zrange i0 n) layer st = Done (l', st)
    /\ length l' = length layer
    /\ cell_is l' 0 (fun _ => true)
    /\ forall i, 1 <= i < n -> cell_is l' i (last_shared x y vs).
Proof.
  induction k as [| k IH]; intros i0 layer Hi0 Hpos Hlen Hzero Hcells.
  - rewrite zrange_nil by lia. cbn [eq_connect]. exists layer.
    repeat split; assumption.
  - rewrite zrange_cons by lia. cbn [eq_connect].
    destruct (cell_is_get layer i0 _ ltac:(lia) (Hcells i0 ltac:(lia)))
      as (a & Ha & Hasem).
    rewrite (bind_lift _ _ _ a Ha).
    assert (exists b, layer_get layer (i0 - 1) = Done b
                      /\ forall env, last_shared x y vs env = true ->
                                     eval env b = true)
      as (b & Hb & Hbsem).
    { destruct (Z.eq_dec i0 1) as [-> | Hne].
      - destruct (cell_is_get layer (1 - 1) _ ltac:(lia) Hzero)
          as (b & Hb & Hbsem).
        exists b. split; [exact Hb |]. intros env _. apply Hbsem.
      - destruct (cell_is_get layer (i0 - 1) _ ltac:(lia)
                    (Hcells (i0 - 1) ltac:(lia))) as (b & Hb & Hbsem).
        exists b. split; [exact Hb |]. intros env Hl.
        rewrite Hbsem. exact Hl. }
    rewrite (bind_lift _ _ _ b Hb).
    rewrite (bind_lift _ _ _ _ (layer_set_in_range layer i0 _ ltac:(lia))).
    set (l1 := <[Z.to_nat i0 := Some (ite a b bdd_false)]> layer).
    destruct (IH (i0 + 1) l1) as (l' & Hrun & Hlen' & Hzero' & Hcells');
      try lia.
    + unfold l1. rewrite length_insert. lia.
    + unfold l1. apply cell_is_insert_other; try lia. exact Hzero.
    + intros i Hi. destruct (Z.eq_dec i i0) as [-> | Hne].
      * unfold l1. apply cell_is_insert_same; [lia |].
        intros env. cbn [eval]. rewrite Hasem.
        destruct (last_shared x y vs env) eqn:Hl; [| reflexivity].
        apply Hbsem. exact Hl.
      * unfold l1. apply cell_is_insert_other; try lia.
        apply Hcells. lia.
    + exists l'. split; [exact Hrun | split; [| split; assumption]].
      rewrite Hlen'. unfold l1. apply length_insert.
Qed.

(** *** The remaining layers *)

Lemma eq_column_sweep (n p : Z) (k : nat) :
  forall i0 layer,
  i0 = n - Z.of_nat k -> 0 <= i0 ->
  n <= Z.of_nat (length layer) ->
  n - 1 <= p <= m - 1 ->
  (forall i, 0 <= i < i0 -> cell_is layer i (eq_cell x y vs p i)) ->
  (forall i, i0 <= i < n -> cell_is layer i (eq_cell x y vs (p + 1) i)) ->
  exists l',
    eq_column x y xmin ymin (zrange i0 n) layer (at_pos (p - i0))
    = Done (l', at_pos (p - n))
    /\ length l' = length layer
    /\ forall i, 0 <= i < n -> cell_is l' i (eq_cell x y vs p i).
Proof.
  induction k as [| k IH]; intros i0 layer Hi0 Hi0pos Hlen Hp Hnew Hold.
  - rewrite zrange_nil by lia. cbn [eq_column]. exists layer.
    split; [| split; [reflexivity |]].
    + replace (p - i0) with (p - n) by lia. reflexivity.
    + intros i Hi. apply Hnew. lia.
  - rewrite zrange_cons by lia. cbn [eq_column].
    set (a := p - i0).
    assert (0 <= a < m) as Ha by (unfold a; lia).
    destruct (min_at x y st0 Hwf a Ha) as (v & Hv & Hlit).
    rewrite (bind_read _ _ _ v Hv).
    assert (exists t,
              (if i0 =? 0 then ret bdd_false
               else lift (layer_get layer (i0 - 1))) (at_pos a)
              = Done (t, at_pos a)
              /\ forall env,
                   eval env t
                   = if i0 =? 0 then false
                     else eq_cell x y vs p (i0 - 1) env)
      as (t & Ht & Htsem).
    { destruct (Z.eqb_spec i0 0) as [Hz | Hnz].
      - exists bdd_false. split; reflexivity.
      - destruct (cell_is_get layer (i0 - 1) _ ltac:(lia)
                    (Hnew (i0 - 1) ltac:(lia))) as (t & Ht & Htsem).
        exists t. split; [| exact Htsem].
        unfold lift. rewrite Ht. reflexivity. }
    unfold bind at 1. rewrite Ht.
    destruct (cell_is_get layer i0 _ ltac:(lia) (Hold i0 ltac:(lia)))
      as (old & Hold0 & Holdsem).
    rewrite (bind_lift _ _ _ old Hold0).
    rewrite (bind_lift _ _ _ _ (layer_set_in_range layer i0 _ ltac:(lia))).
    rewrite bind_move, bind_look. unfold ValCache.retreat.
    rewrite c_set_c, set_c_set_c.
    set (layer' := <[Z.to_nat i0 := Some
                       (ite (element x (v - xmin))
                            (ite (element y (v - ymin)) t old) old)]> layer).
    assert (forall i, 0 <= i < i0 + 1 ->
              cell_is layer' i (eq_cell x y vs p i)) as Hnew'.
    { intros i Hi. destruct (Z.eq_dec i i0) as [-> | Hne].
      - apply cell_is_insert_same; [lia |].
        intros env. rewrite eval_nested, Hlit, Htsem, Holdsem.
        unfold eq_cell, exact_or_last.
        pose proof (count_from_step x y st0 Hwf env a Ha) as Hstep.
        pose proof (count_from_bounds x y st0 Hwf env (a + 1) ltac:(lia))
          as Hbound.
        pose proof (last_shared_counted env (a + 1)) as Hlast.
        replace (p - (i0 - 1)) with (a + 1) by (unfold a; lia).
        replace (p + 1 - i0) with (a + 1) by (unfold a; lia).
        fold a. rewrite Hstep.
        set (cnt := count_from x y vs env (a + 1)) in *.
        destruct (last_shared x y vs env) eqn:Hl.
        + assert (1 <= i0 -> 1 <= cnt) as Hone.
          { intros Hi0'. apply Hlast; [unfold a; lia | reflexivity]. }
          destruct (lit_at x y vs env a), (Z.eqb_spec i0 0);
            cbn [andb]; cases_cmpb.
        + destruct (lit_at x y vs env a), (Z.eqb_spec i0 0);
            cbn [andb]; cases_cmpb.
      - apply cell_is_insert_other; [lia | lia | lia |].
        apply Hnew. lia. }
    assert (forall i, i0 + 1 <= i < n ->
              cell_is layer' i (eq_cell x y vs (p + 1) i)) as Hold'.
    { intros i Hi. apply cell_is_insert_other; [lia | lia | lia |].
      apply Hold; lia. }
    destruct (Z.eq_dec i0 p) as [Hlast | Hmore].
    + replace (a - 1) with (-1) by (unfold a; lia).
      rewrite valid_at_before. cbn [negb]. exists layer'.
      split; [| split; [apply length_insert |]].
      * replace (p - n) with (-1) by lia. reflexivity.
      * intros i Hi. apply Hnew'. lia.
    + rewrite valid_at_in by (unfold a; lia). cbn [negb].
      destruct (IH (i0 + 1) layer') as (l' & Hrun & Hlen' & Hcells);
        try lia; try assumption.
      { unfold layer'. rewrite length_insert. exact Hlen. }
      replace (p - (i0 + 1)) with (a - 1) in Hrun by (unfold a; lia).
      exists l'. split; [exact Hrun | split; [| exact Hcells]].
      rewrite Hlen'. apply length_insert.
Qed.

Lemma eq_remaining_run (n : Z) (fuel : nat) :
  forall p layer,
  1 <= n ->
  n - 1 <= p <= m - 1 -> p - (n - 1) + 1 <= Z.of_nat fuel ->
  n <= Z.of_nat (length layer) ->
  (forall i, 0 <= i < n -> cell_is layer i (eq_cell x y vs (p + 1) i)) ->
  exists l',
    eq_remaining x y fuel xmin ymin n layer (at_pos p)
    = Done (l', at_pos (-1))
    /\ forall i, 0 <= i < n -> cell_is l' i (eq_cell x y vs (n - 1) i).
Proof.
  induction fuel as [| fuel IH]; intros p layer Hn Hp Hfuel Hlen Hcells;
    [lia |].
  cbn [eq_remaining]. rewrite bind_look, valid_at_in by lia.
  cbn [negb]. rewrite bind_look.
  destruct (eq_column_sweep n p (Z.to_nat n) 0 layer)
    as (l1 & Hrun & Hlen1 & Hcells1); try lia; try assumption.
  rewrite Z.sub_0_r in Hrun.
  unfold bind at 1. rewrite Hrun. rewrite bind_look.
  destruct (Z.eq_dec p (n - 1)) as [Hend | Hmore].
  - replace (p - n) with (-1) by lia.
    rewrite valid_at_before. cbn [negb]. exists l1.
    split; [reflexivity |].
    replace (n - 1) with p by lia. exact Hcells1.
  - rewrite valid_at_in by lia. cbn [negb].
    rewrite bind_move.
    replace (ValCache.seek (ValCache.index (at_pos p)) (at_pos (p - n)))
      with (at_pos p)
      by (unfold ValCache.seek; rewrite (index_at st0 Hwf p) by lia;
          reflexivity).
    rewrite bind_move. unfold ValCache.retreat.
    rewrite c_set_c, set_c_set_c.
    destruct (IH (p - 1) l1) as (l' & Hrun' & Hcells');
      try lia; try assumption.
    { intros i Hi. replace (p - 1 + 1) with p by lia.
      apply Hcells1. exact Hi. }
    exists l'. split; [exact Hrun' | exact Hcells'].
Qed.

(** *** The whole builder *)

Lemma extcardeq_run (c n r c0 : Z) :
  1 <= c < m -> n = c + 1 ->
  exists b,
    extcardeq x y c n r (at_pos c0) = Done (b, at_pos (-1))
    /\ forall env,
         eval env b
         = exact_or_last x y vs env c (count_from x y vs env 0).
Proof.
  intros Hc ->. pose proof (m_length st0 Hwf) as Hm.
  destruct (min_at x y st0 Hwf (m - 1) ltac:(lia)) as (v & Hv & Hlit).
  assert (forall env, both_contain x y env v = last_shared x y vs env)
    as Hlast.
  { intros env. rewrite Hlit. unfold last_shared. rewrite <- Hm.
    reflexivity. }
  unfold extcardeq.
  assert (length (alloc (c + 1)) = Z.to_nat (c + 1)) as Hlen0
    by apply length_replicate.
  rewrite (bind_lift _ _ _ _
             (layer_set_in_range (alloc (c + 1)) 0 _ ltac:(lia))).
  rewrite bind_move.
  change (ValCache.last (at_pos c0)) with (at_pos (m - 1)).
  set (l0 := <[Z.to_nat 0 := Some bdd_true]> (alloc (c + 1))).
  assert (length l0 = Z.to_nat (c + 1)) as Hl0
    by (unfold l0; rewrite length_insert; exact Hlen0).
  destruct (eq_lowest_run c v (Z.to_nat c) Hv Hlast 1 l0)
    as (l1 & Hrun1 & Hlen1 & Hzero1 & Hcells1); try lia.
  { unfold l0. apply cell_is_insert_same; [lia | reflexivity]. }
  unfold bind at 1. rewrite Hrun1.
  destruct (eq_connect_run (c + 1) (at_pos (m - 1)) (Z.to_nat c) 1 l1)
    as (l2 & Hrun2 & Hlen2 & Hzero2 & Hcells2); try lia; try assumption.
  unfold bind at 1. rewrite Hrun2.
  rewrite bind_move.
  change (ValCache.last (at_pos (m - 1))) with (at_pos (m - 1)).
  unfold sweep_budget. rewrite bind_look.
  change (ValCache.n (at_pos (m - 1))) with m.
  destruct (eq_remaining_run (c + 1) (Z.to_nat m) (m - 1) l2)
    as (l3 & Hrun3 & Hcells3); try lia.
  { intros i Hi. replace (m - 1 + 1) with m by lia.
    destruct (Z.eq_dec i 0) as [-> | Hne].
    - apply (cell_is_ext _ _ _ _ (fun env => eq_refl) ) in Hzero2.
      eapply cell_is_ext; [| exact Hzero2].
      intros env. unfold eq_cell, exact_or_last.
      rewrite Z.sub_0_r, count_from_end. reflexivity.
    - eapply cell_is_ext; [| apply (Hcells2 i); lia].
      intros env. unfold eq_cell, exact_or_last.
      pose proof (count_from_bounds x y st0 Hwf env (m - i) ltac:(lia))
        as Hbound.
      destruct (last_shared x y vs env) eqn:Hl.
      + pose proof (last_shared_counted env (m - i) ltac:(lia) Hl).
        cases_cmpb.
      + pose proof (last_unshared_count env (m - i) ltac:(lia) Hl).
        cases_cmpb. }
  unfold bind at 1. rewrite Hrun3.
  destruct (cell_is_get l3 (c + 1 - 1) _ ltac:(lia)
              (Hcells3 (c + 1 - 1) ltac:(lia))) as (b & Hb & Hsem).
  exists b. split; [unfold lift; rewrite Hb; reflexivity |].
  intros env. rewrite Hsem. unfold eq_cell.
  replace (c + 1 - 1 - (c + 1 - 1)) with 0 by lia.
  replace (c + 1 - 1) with c by lia. reflexivity.
Qed.

End ExactCount.

(** X12.  For an exact count [c] with [1 <= c] below the number [m] of cached
    values, [extcardeq] returns a diagram and leaves the cursor before the
    first value.  The diagram accepts when exactly [c] of the cached
    values are shared, and also when fewer (at least one) are shared and
    the last cached value is among them: the lowest layer is built from
    the last value alone. *)
Theorem extcardeq_accepts_exact_or_last
    {View0 View1 : Type} `{SetView View0} `{SetView View1}
    (x : View0) (y : View1) (inter : ValCache.t) (c r : Z) :
  wf_cache inter ->
  1 <= c < ValCache.n inter ->
  exists b,
    extcardeq x y c (c + 1) r inter = Done (b, ValCache.finish inter)
    /\ forall env,
         eval env b
         = let cnt := count_from x y (ValCache.r inter) env 0 in
           (cnt =? c)
           || (last_shared x y (ValCache.r inter) env
               && (1 <=? cnt) && (cnt <=? c)).
Proof.
  intros Hwf Hc.
  destruct (extcardeq_run x y inter Hwf c (c + 1) r (ValCache.c inter) Hc
              eq_refl) as (b & Hrun & Hsem).
  rewrite set_c_same in Hrun by reflexivity.
  exists b. split; [exact Hrun | exact Hsem].
Qed.

Lemma extcardeq_accepts_exact_or_last_witness :
  exists b,
    extcardeq (block_view 0 3) (block_view 3 3) 2 (2 + 1) 2
      (ValCache.init [0; 1; 2])
    = Done (b, ValCache.finish (ValCache.init [0; 1; 2]))
    /\ forall env,
         eval env b
         = let cnt := count_from (block_view 0 3) (block_view 3 3)
                        (ValCache.r (ValCache.init [0; 1; 2])) env 0 in
           (cnt =? 2)
           || (last_shared (block_view 0 3) (block_view 3 3)
                 (ValCache.r (ValCache.init [0; 1; 2])) env
               && (1 <=? cnt) && (cnt <=? 2)).
Proof.
  apply (extcardeq_accepts_exact_or_last
           (block_view 0 3) (block_view 3 3) (ValCache.init [0; 1; 2]) 2 2).
  - apply init_wf. vm_compute. discriminate.
  - vm_compute. split; [discriminate | reflexivity].
Defined.

(** X13.  For every window [0 <= cl < cr] with [cr] at most the number of
    cached values, [extcardlqgq] returns a diagram and leaves the cursor
    before the first value; the diagram accepts exactly the assignments
    under which the number of shared cached values lies in [[cl, cr]]. *)
Theorem extcardlqgq_accepts_window
    {View0 View1 : Type} `{SetView View0} `{SetView View1}
    (x : View0) (y : View1) (inter : ValCache.t) (cl cr : Z) :
  wf_cache inter ->
  0 <= cl < cr -> cr <= ValCache.n inter ->
  exists b,
    extcardlqgq x y cl cr (cr + 1) (ValCache.n inter - 1) inter
    = Done (b, ValCache.finish inter)
    /\ forall env,
         eval env b
         = (cl <=? count_from x y (ValCache.r inter) env 0)
           && (count_from x y (ValCache.r inter) env 0 <=? cr).
Proof.
  intros Hwf Hwin Hcr.
  destruct (extcardlqgq_run x y inter Hwf cl cr (cr + 1)
              (ValCache.n inter - 1) (ValCache.c inter) Hwin Hcr
              eq_refl eq_refl) as (b & Hrun & Hsem).
  rewrite set_c_same in Hrun by reflexivity.
  exists b. split; [exact Hrun | exact Hsem].
Qed.

Lemma extcardlqgq_accepts_window_witness :
  exists b,
    extcardlqgq (block_view 0 5) (block_view 5 5) 1 2 (2 + 1)
      (ValCache.n (ValCache.init [0; 1; 2; 3; 4]) - 1)
      (ValCache.init [0; 1; 2; 3; 4])
    = Done (b, ValCache.finish (ValCache.init [0; 1; 2; 3; 4]))
    /\ forall env,
         eval env b
         = (1 <=? count_from (block_view 0 5) (block_view 5 5)
                    (ValCache.r (ValCache.init [0; 1; 2; 3; 4])) env 0)
           && (count_from (block_view 0 5) (block_view 5 5)
                 (ValCache.r (ValCache.init [0; 1; 2; 3; 4])) env 0 <=? 2).
Proof.
  apply (extcardlqgq_accepts_window
           (block_view 0 5) (block_view 5 5)
           (ValCache.init [0; 1; 2; 3; 4]) 1 2).
  - apply init_wf. vm_compute. discriminate.
  - lia.
  - vm_compute. discriminate.
Defined.

(** ** What [extcardcheck] returns on every window *)

Section CheckReadingProofs.

Context {View0 View1 : Type} `{SetView View0} `{SetView View1}.
Variables (x : View0) (y : View1).

Lemma conj_neg_reading env :
  eval env (conj_pairs x y elementNeg elementNeg (common_values x y))
  = none_present x y env.
Proof.
  unfold conj_pairs, none_present.
  rewrite (eval_conj_fold env
             (fun v => elementNeg x (v - initialLubMin x))
             (fun v => elementNeg y (v - initialLubMin y))).
  cbn [eval andb].
  induction (common_values x y) as [| v vs IH]; [reflexivity |].
  cbn [forallb]. rewrite IH, !elementNeg_eval. reflexivity.
Qed.

Lemma extcardcheck_reads (cl cr : Z) :
  Z.of_nat (length (common_values x y)) < INT_MAX ->
  0 <= cl ->
  exists b,
    extcardcheck x y cl cr = Done b
    /\ forall env, eval env b = extcardcheck_reading x y cl cr env.
Proof.
  intros Hlen Hcl. unfold INT_MAX in Hlen.
  assert (Z.of_nat (length (common_values x y)) <= INT_MAX) as Hle
    by (unfold INT_MAX; lia).
  pose proof (isize_length x y Hle) as Hsize.
  assert (clip x y cr <= isize x y) as Hclip.
  { unfold clip. destruct (Z.gtb_spec cr (isize x y)); lia. }
  assert (forall env, 0 <= shared_count x y env <= isize x y) as Hcount.
  { intros env. rewrite Hsize. unfold shared_count.
    pose proof (filter_length_le (both_contain x y env) (common_values x y)).
    lia. }
  pose proof (init_wf (common_values x y) Hle) as Hwf.
  assert (ValCache.n (ValCache.init (common_values x y)) = isize x y) as Hm
    by (rewrite init_eq, Hsize; reflexivity).
  assert (ValCache.r (ValCache.init (common_values x y))
          = common_values x y) as Hr
    by (rewrite init_eq; reflexivity).
  assert (forall env,
            count_from x y (common_values x y) env 0
            = shared_count x y env) as Hshared
    by (intros env; reflexivity).
  rewrite extcardcheck_unfold. unfold extcardcheck_reading. cbv zeta.
  destruct ((cl >? isize x y) || (cl >? clip x y cr)) eqn:Hguard.
  { exists bdd_false. split; reflexivity. }
  apply orb_false_iff in Hguard as [Hfit Hin].
  rewrite Z.gtb_ltb in Hfit, Hin. apply Z.ltb_ge in Hfit, Hin.
  rewrite (to_int_to_unsigned (isize x y - 1)) by lia.
  rewrite (to_int_to_unsigned (clip x y cr + 1)) by lia.
  destruct (Z.eqb_spec (clip x y cr) 0) as [Hzero | Hpos].
  { rewrite (run_conjoin x y (@elementNeg)). eexists.
    split; [reflexivity |]. intros env. apply conj_neg_reading. }
  destruct (Z.eqb_spec cl (clip x y cr)) as [Heq | Hne].
  - destruct (Z.eqb_spec (clip x y cr) (isize x y)) as [Hfull | Hpart];
      cbn [andb negb].
    + rewrite (run_conjoin x y (@element)). eexists.
      split; [reflexivity |].
      intros env. rewrite conj_pos_count, <- Hsize.
      specialize (Hcount env). cases_leb.
    + destruct (extcardeq_run x y _ Hwf (clip x y cr) (clip x y cr + 1)
                  (isize x y - 1) 0) as (b & Hrun & Hsem); try lia.
      rewrite set_c_same in Hrun by (rewrite init_eq; reflexivity).
      exists b. split; [unfold run; rewrite Hrun; reflexivity |].
      intros env. rewrite Hsem, Hr. reflexivity.
  - cbn [andb].
    destruct ((clip x y cr =? isize x y) && (cl =? 0)) eqn:Hall.
    + apply andb_true_iff in Hall as [Hfull Hzero].
      apply Z.eqb_eq in Hfull, Hzero.
      exists bdd_true. split; [reflexivity |].
      intros env. specialize (Hcount env). cbn [eval]. cases_leb.
    + assert (cl < clip x y cr) as Hlt by lia.
      destruct (extcardlqgq_run x y _ Hwf cl (clip x y cr)
                  (clip x y cr + 1) (isize x y - 1) 0)
        as (b & Hrun & Hsem); try lia.
      rewrite set_c_same in Hrun by (rewrite init_eq; reflexivity).
      exists b. split; [unfold run; rewrite Hrun; reflexivity |].
      intros env. rewrite Hsem, Hr. reflexivity.
Qed.

Lemma both_contain_agree env env' v :
  agree_on_common x y env env' -> In v (common_values x y) ->
  both_contain x y env v = both_contain x y env' v.
Proof.
  intros Hagree Hin. destruct (Hagree v Hin) as [Hx Hy].
  unfold both_contain. rewrite Hx, Hy. reflexivity.
Qed.

Lemma reading_agree cl cr env env' :
  agree_on_common x y env env' ->
  extcardcheck_reading x y cl cr env = extcardcheck_reading x y cl cr env'.
Proof.
  intros Hagree.
  assert (shared_count x y env = shared_count x y env') as Hcnt.
  { unfold shared_count. f_equal. f_equal.
    apply List.filter_ext_in. intros v Hin.
    apply both_contain_agree; assumption. }
  assert (none_present x y env = none_present x y env') as Hnone.
  { unfold none_present.
    assert (forall l, (forall v, In v l -> In v (common_values x y)) ->
              forallb (fun v =>
                 negb (eval env (element x (v - initialLubMin x)))
                 && negb (eval env (element y (v - initialLubMin y)))) l
              = forallb (fun v =>
                 negb (eval env' (element x (v - initialLubMin x)))
                 && negb (eval env' (element y (v - initialLubMin y)))) l)
      as Hall.
    { induction l as [| v l IH]; intros Hsub; [reflexivity |].
      cbn [forallb]. destruct (Hagree v (Hsub v (or_introl eq_refl)))
        as [-> ->].
      rewrite IH; [reflexivity |]. intros w Hw. apply Hsub. right. exact Hw. }
    apply Hall. auto. }
  assert (last_shared x y (common_values x y) env
          = last_shared x y (common_values x y) env') as Hlast.
  { unfold last_shared, lit_at.
    destruct (common_values x y !! _) as [v |] eqn:Hv; [| reflexivity].
    apply both_contain_agree; [exact Hagree |].
    apply list_elem_of_In. eapply list_elem_of_lookup_2. exact Hv. }
  unfold extcardcheck_reading, exact_or_last.
  rewrite Hcnt, Hnone, Hlast. reflexivity.
Qed.

End CheckReadingProofs.

(** X14.  For fewer than [INT_MAX] common values and every window with
    [0 <= cl], [extcardcheck] returns a diagram (no path accesses the
    cache or a layer array outside its bounds), and the diagram denotes:
    false on an inconsistent window; no common value in [x] or in [y]
    when [cr] is 0; the count is [cr], or at most [cr] with the last
    common value shared, on an exact count below the intersection size;
    and the count of shared values in [[cl, cr]] on every other window
    ([cr] after clipping). *)
Theorem extcardcheck_denotes
    {View0 View1 : Type} `{SetView View0} `{SetView View1}
    (x : View0) (y : View1) (cl cr : Z) :
  Z.of_nat (length (common_values x y)) < INT_MAX ->
  0 <= cl ->
  exists b,
    extcardcheck x y cl cr = Done b
    /\ forall env, eval env b = extcardcheck_reading x y cl cr env.
Proof. apply extcardcheck_reads. Qed.

Lemma extcardcheck_denotes_witness :
  exists b,
    extcardcheck (block_view 0 5) (block_view 5 5) 3 3 = Done b
    /\ forall env,
         eval env b
         = extcardcheck_reading (block_view 0 5) (block_view 5 5) 3 3 env.
Proof.
  apply (extcardcheck_denotes (block_view 0 5) (block_view 5 5) 3 3).
  - vm_compute. reflexivity.
  - lia.
Defined.

(** X15.  The diagram of [extcardcheck] looks at nothing but the membership
    literals of the common values: two assignments that agree on them are
    both accepted or both rejected, on every window. *)
Theorem extcardcheck_reads_common_values_only
    {View0 View1 : Type} `{SetView View0} `{SetView View1}
    (x : View0) (y : View1) (cl cr : Z) :
  Z.of_nat (length (common_values x y)) < INT_MAX ->
  0 <= cl ->
  exists b,
    extcardcheck x y cl cr = Done b
    /\ forall env env',
         agree_on_common x y env env' -> eval env b = eval env' b.
Proof.
  intros Hlen Hcl.
  destruct (extcardcheck_reads x y cl cr Hlen Hcl) as (b & Hrun & Hsem).
  exists b. split; [exact Hrun |].
  intros env env' Hagree. rewrite !Hsem. apply reading_agree. exact Hagree.
Qed.

Lemma extcardcheck_reads_common_values_only_witness :
  exists b,
    extcardcheck (mkTableView 0 4 0 3 [0; 1; 2; 3])
                 (mkTableView 4 4 2 5 [2; 3; 4; 5]) 1 1 = Done b
    /\ forall env env',
         agree_on_common (mkTableView 0 4 0 3 [0; 1; 2; 3])
                         (mkTableView 4 4 2 5 [2; 3; 4; 5]) env env' ->
         eval env b = eval env' b.
Proof.
  apply (extcardcheck_reads_common_values_only
           (mkTableView 0 4 0 3 [0; 1; 2; 3])
           (mkTableView 4 4 2 5 [2; 3; 4; 5]) 1 1).
  - vm_compute. reflexivity.
  - lia.
Defined.

(** ** Exchanging the two views *)

Lemma filter_mem_above (c : Z) (l l2 : list Z) :
  Forall (Z.lt c) l ->
  List.filter (fun v => existsb (Z.eqb v) (c :: l2)) l
  = List.filter (fun v => existsb (Z.eqb v) l2) l.
Proof.
  intros Habove. apply List.filter_ext_in. intros v Hin.
  rewrite Forall_forall in Habove.
  specialize (Habove v (proj2 (list_elem_of_In _ _) Hin)).
  cbn [existsb]. rewrite (proj2 (Z.eqb_neq v c)) by lia. reflexivity.
Qed.

Lemma mem_below (c : Z) (l : list Z) :
  Forall (Z.lt c) l -> existsb (Z.eqb c) l = false.
Proof.
  induction 1 as [| v l Hv _ IH]; [reflexivity |].
  cbn [existsb]. rewrite IH, (proj2 (Z.eqb_neq c v)) by lia. reflexivity.
Qed.

Lemma Forall_lt_trans (a b : Z) (l : list Z) :
  a < b -> Forall (Z.lt b) l -> Forall (Z.lt a) l.
Proof.
  intros Hab Hl. induction Hl as [| v l Hv _ IH]; constructor;
    [lia | exact IH].
Qed.

Lemma filter_head {A : Type} (f : A -> bool) (a : A) (l : list A) :
  List.filter f (a :: l)
  = if f a then a :: List.filter f l else List.filter f l.
Proof. reflexivity. Qed.

Lemma mem_head (c : Z) (l : list Z) : existsb (Z.eqb c) (c :: l) = true.
Proof. cbn [existsb]. rewrite Z.eqb_refl. reflexivity. Qed.

Lemma filter_mem_nil (l : list Z) :
  List.filter (fun v => existsb (Z.eqb v) []) l = [].
Proof. induction l as [| v l IH]; [reflexivity | exact IH]. Qed.

(** The common values of two increasing lists do not depend on which list
    is filtered by the other. *)
Lemma inter_comm (lx : list Z) : forall ly,
  increasing lx -> increasing ly ->
  List.filter (fun v => existsb (Z.eqb v) ly) lx
  = List.filter (fun v => existsb (Z.eqb v) lx) ly.
Proof.
  induction lx as [| a lx IHx]; intros ly Hx Hy.
  - rewrite filter_mem_nil. reflexivity.
  - induction ly as [| b ly IHy].
    + rewrite filter_mem_nil. reflexivity.
    + destruct Hx as [Hax Hx], Hy as [Hby Hy].
      destruct (Z.lt_trichotomy a b) as [Hlt | [-> | Hgt]].
      * (* [a] is below every value of the other list *)
        assert (Forall (Z.lt a) (b :: ly)) as Hbelow
          by (constructor;
              [exact Hlt | apply (Forall_lt_trans a b); assumption]).
        rewrite (filter_head _ a lx). cbv beta.
        rewrite (mem_below a (b :: ly) Hbelow).
        rewrite (IHx (b :: ly) Hx (conj Hby Hy)).
        symmetry. apply filter_mem_above. exact Hbelow.
      * rewrite (filter_head _ b lx), (filter_head _ b ly). cbv beta.
        rewrite (mem_head b ly), (mem_head b lx). cbv iota.
        f_equal.
        rewrite (filter_mem_above b lx ly Hax).
        rewrite (filter_mem_above b ly lx Hby).
        apply IHx; assumption.
      * assert (Forall (Z.lt b) (a :: lx)) as Hbelow
          by (constructor;
              [lia | apply (Forall_lt_trans b a); [lia | assumption]]).
        rewrite (filter_head _ b ly). cbv beta.
        rewrite (mem_below b (a :: lx) Hbelow).
        rewrite <- (IHy Hy).
        apply filter_mem_above. exact Hbelow.
Qed.

Section Exchange.

Context {View0 View1 : Type} `{SetView View0} `{SetView View1}.
Variables (x : View0) (y : View1).
Hypothesis Hcommon : common_values x y = common_values y x.

Lemma both_contain_comm env v :
  both_contain x y env v = both_contain y x env v.
Proof. unfold both_contain. apply andb_comm. Qed.

Lemma reading_comm cl cr env :
  extcardcheck_reading x y cl cr env = extcardcheck_reading y x cl cr env.
Proof.
  assert (isize x y = isize y x) as Hsize
    by (unfold isize; rewrite Hcommon; reflexivity).
  assert (clip x y cr = clip y x cr) as Hclip
    by (unfold clip; rewrite Hsize; reflexivity).
  assert (shared_count x y env = shared_count y x env) as Hcnt.
  { unfold shared_count. rewrite Hcommon. f_equal. f_equal.
    apply List.filter_ext. intros v. apply both_contain_comm. }
  assert (none_present x y env = none_present y x env) as Hnone.
  { unfold none_present. rewrite Hcommon.
    generalize (common_values y x). intros l.
    induction l as [| v l IH]; [reflexivity |].
    cbn [forallb]. rewrite IH.
    destruct (eval env (element x (v - initialLubMin x))),
             (eval env (element y (v - initialLubMin y))); reflexivity. }
  assert (last_shared x y (common_values x y) env
          = last_shared y x (common_values y x) env) as Hlast.
  { unfold last_shared, lit_at. rewrite Hcommon.
    destruct (common_values y x !! _); [apply both_contain_comm |].
    reflexivity. }
  unfold extcardcheck_reading, exact_or_last.
  rewrite Hsize, Hclip, Hcnt, Hnone, Hlast. reflexivity.
Qed.

End Exchange.

(** X16.  The constraint is symmetric in its two views: when both upper bounds
    list their values in increasing order, [extcardcheck x y] and
    [extcardcheck y x] return diagrams that denote the same boolean
    function, on every window. *)
Theorem extcardcheck_symmetric
    {View0 View1 : Type} `{SetView View0} `{SetView View1}
    (x : View0) (y : View1) (cl cr : Z) :
  increasing (lubValues x) -> increasing (lubValues y) ->
  Z.of_nat (length (common_values x y)) < INT_MAX ->
  0 <= cl ->
  exists b b',
    extcardcheck x y cl cr = Done b
    /\ extcardcheck y x cl cr = Done b'
    /\ bdd_equiv b b'.
Proof.
  intros Hx Hy Hlen Hcl.
  assert (common_values x y = common_values y x) as Hcommon
    by (apply inter_comm; assumption).
  destruct (extcardcheck_reads x y cl cr Hlen Hcl) as (b & Hrun & Hsem).
  rewrite Hcommon in Hlen.
  destruct (extcardcheck_reads y x cl cr Hlen Hcl) as (b' & Hrun' & Hsem').
  exists b, b'. split; [exact Hrun | split; [exact Hrun' |]].
  intros env. rewrite Hsem, Hsem'. apply reading_comm. exact Hcommon.
Qed.

Lemma extcardcheck_symmetric_witness :
  exists b b',
    extcardcheck (mkTableView 0 4 0 3 [0; 1; 2; 3])
                 (mkTableView 4 4 1 4 [1; 2; 3; 4]) 2 2 = Done b
    /\ extcardcheck (mkTableView 4 4 1 4 [1; 2; 3; 4])
                    (mkTableView 0 4 0 3 [0; 1; 2; 3]) 2 2 = Done b'
    /\ bdd_equiv b b'.
Proof.
  apply (extcardcheck_symmetric
           (mkTableView 0 4 0 3 [0; 1; 2; 3])
           (mkTableView 4 4 1 4 [1; 2; 3; 4]) 2 2).
  - cbn. repeat (split; [repeat constructor; lia |]). exact I.
  - cbn. repeat (split; [repeat constructor; lia |]). exact I.
  - vm_compute. reflexivity.
  - lia.
Defined.

(** ** [cardConst] against [extcardlqgq] *)

Lemma bdd_equiv_node_twice l l1 l2 t t' f f' :
  bdd_equiv l l1 -> bdd_equiv l l2 -> bdd_equiv t t' -> bdd_equiv f f' ->
  bdd_equiv (ite l t f) (ite l1 (ite l2 t' f') f').
Proof.
  intros H1 H2 Ht Hf env. cbn [eval].
  rewrite <- (H1 env), <- (H2 env), (Ht env), (Hf env).
  destruct (eval env l); reflexivity.
Qed.

Lemma bdd_equiv_node_joint l l1 l2 t t' f f' :
  bdd_equiv l l1 -> bdd_equiv l l2 -> bdd_equiv t t' -> bdd_equiv f f' ->
  bdd_equiv (ite l t f) (ite (bdd_and l2 l1) t' f').
Proof.
  intros H1 H2 Ht Hf env. cbn [eval].
  rewrite <- (H1 env), <- (H2 env), (Ht env), (Hf env).
  destruct (eval env l); reflexivity.
Qed.

Section ConstAsWindow.

Variables (xoff xmin : Z).
Variable x : TableView.
Hypothesis Hoff : tv_offset x = xoff.
Hypothesis Hmin : tv_min x = xmin.

Lemma const_literal k :
  bdd_equiv (bddpos (xoff + k - xmin)) (element x (k - xmin)).
Proof.
  intros env. cbn [element TableView_SetView eval]. rewrite Hoff.
  f_equal. lia.
Qed.

#[local] Hint Resolve const_literal bdd_equiv_node_twice
  bdd_equiv_node_joint : bddeq.

Lemma rel_const_lowest idx : forall l l',
  layers_equiv l l' ->
  M_rel layers_equiv (const_lowest xoff xmin idx l)
                     (lqgq_lowest x x xmin xmin idx l').
Proof.
  induction idx as [| i idx IH]; intros l l' Hl;
    cbn [const_lowest lqgq_lowest]; related.
Qed.

Lemma rel_const_lower_column cr r idx : forall l l',
  to_int cr = cr ->
  layers_equiv l l' ->
  M_rel layers_equiv (const_lower_column xoff xmin cr r idx l)
                     (lqgq_lower_column x x xmin xmin cr r idx l').
Proof.
  induction idx as [| i idx IH]; intros l l' Hcr Hl;
    cbn [const_lower_column lqgq_lower_column]; rewrite ?Hcr; related.
Qed.

Lemma rel_const_lower cl cr n r fuel : forall l l',
  to_int cr = cr ->
  layers_equiv l l' ->
  M_rel layers_equiv (const_lower xoff xmin fuel cl cr n r l)
                     (lqgq_lower x x fuel xmin xmin cl cr n r l').
Proof.
  induction fuel as [| fuel IH]; intros l l' Hcr Hl;
    cbn [const_lower lqgq_lower];
    related_with ltac:(apply rel_const_lower_column; assumption).
Qed.

Lemma rel_const_link connect idx : forall f f' l l',
  bdd_equiv f f' -> layers_equiv l l' ->
  M_rel layers_equiv (const_link xoff xmin connect f idx l)
                     (lqgq_link x x xmin xmin connect f' idx l').
Proof.
  induction idx as [| i idx IH]; intros f f' l l' Hf Hl;
    cbn [const_link lqgq_link]; related.
Qed.

Lemma rel_const_upper_column idx : forall l l',
  layers_equiv l l' ->
  M_rel layers_equiv (const_upper_column xoff xmin idx l)
                     (lqgq_upper_column x x xmin xmin idx l').
Proof.
  induction idx as [| i idx IH]; intros l l' Hl;
    cbn [const_upper_column lqgq_upper_column]; related.
Qed.

Lemma rel_const_upper_loop n fuel : forall l l',
  layers_equiv l l' ->
  M_rel layers_equiv (const_upper_loop xoff xmin fuel n l)
                     (lqgq_upper_loop x x fuel xmin xmin n l').
Proof.
  induction fuel as [| fuel IH]; intros l l' Hl;
    cbn [const_upper_loop lqgq_upper_loop];
    related_with ltac:(apply rel_const_upper_column; assumption).
Qed.

Lemma rel_const_prefix cl cr n r :
  to_int cr = cr ->
  M_rel layers_equiv (const_prefix xoff xmin cl cr n r)
                     (lqgq_prefix x x cl cr n r).
Proof.
  intros Hcr. unfold const_prefix, lqgq_prefix.
  change (initialLubMin x) with (tv_min x). rewrite Hmin.
  related_with ltac:(first [ apply rel_const_lowest
                           | apply rel_const_lower ]; assumption).
Qed.

Lemma rel_const_finish k cl n l l' :
  to_int cl = cl ->
  layers_equiv l l' ->
  M_rel bdd_equiv (const_finish xoff xmin k cl n l)
                  (lqgq_finish x x k cl n l').
Proof.
  intros Hcl Hl. destruct k; cbn [const_finish lqgq_finish];
    change (initialLubMin x) with (tv_min x); rewrite ?Hmin;
    unfold const_single, lqgq_single, const_connection, lqgq_connection,
      const_upper, lqgq_upper;
    rewrite ?Hcl;
    related_with ltac:(first [ apply rel_const_link
                             | apply rel_const_upper_loop ];
                       auto with bddeq).
Qed.

Lemma rel_const_build cl cr n r :
  to_int cl = cl -> to_int cr = cr ->
  M_rel bdd_equiv (const_build xoff xmin cl cr n r)
                  (extcardlqgq x x cl cr n r).
Proof.
  intros Hcl Hcr. unfold const_build, extcardlqgq.
  replace (lqgq_dispatch cr r) with (const_dispatch cr r)
    by (unfold const_dispatch, lqgq_dispatch; rewrite Hcr; reflexivity).
  related_with ltac:(first [ apply rel_const_prefix; assumption
                           | apply rel_const_finish; assumption ]).
Qed.

End ConstAsWindow.

Lemma cardConst_rel
    (unnamed xoff xmin cl cr : Z) (ranges : list (Z * Z)) (x : TableView) :
  tv_offset x = xoff -> tv_min x = xmin ->
  0 <= cl < 2 ^ 31 -> 0 <= cr < 2 ^ 31 ->
  outcome_rel bdd_equiv
    (cardConst unnamed xoff xmin cl cr ranges)
    (run (extcardlqgq x x cl cr (cr + 1)
            (to_int (to_unsigned
                       (ValCache.size (ValCache.init (to_values ranges))
                        - 1))))
         (ValCache.init (to_values ranges))).
Proof.
  intros Hoff Hmin Hcl Hcr. unfold cardConst.
  apply rel_run.
  apply (rel_const_build xoff xmin x Hoff Hmin); apply to_int_id; lia.
Qed.

(** X17.  [cardConst] is [extcardlqgq] with both views the same table block:
    on the same ranges the two end the same way, and the diagrams they
    return denote the same boolean function. *)
Theorem cardConst_refines_extcardlqgq
    (unnamed xoff xmin cl cr : Z) (ranges : list (Z * Z))
    (width max : Z) (lub : list Z) :
  0 <= cl < 2 ^ 31 -> 0 <= cr < 2 ^ 31 ->
  let x := mkTableView xoff width xmin max lub in
  let inter := ValCache.init (to_values ranges) in
  outcome_rel bdd_equiv
    (cardConst unnamed xoff xmin cl cr ranges)
    (run (extcardlqgq x x cl cr (cr + 1)
            (to_int (to_unsigned (ValCache.size inter - 1))))
         inter).
Proof.
  intros Hcl Hcr x inter.
  apply (cardConst_rel unnamed xoff xmin cl cr ranges x eq_refl eq_refl);
    assumption.
Qed.

Lemma cardConst_refines_extcardlqgq_witness :
  outcome_rel bdd_equiv
    (cardConst 0 10 5 1 2 [(5, 6); (8, 9)])
    (run (extcardlqgq (mkTableView 10 5 5 9 [5; 6; 7; 8; 9])
                      (mkTableView 10 5 5 9 [5; 6; 7; 8; 9]) 1 2 (2 + 1)
            (to_int (to_unsigned
                       (ValCache.size
                          (ValCache.init (to_values [(5, 6); (8, 9)]))
                        - 1))))
         (ValCache.init (to_values [(5, 6); (8, 9)]))).
Proof.
  apply (cardConst_refines_extcardlqgq 0 10 5 1 2 [(5, 6); (8, 9)]
           5 9 [5; 6; 7; 8; 9]); lia.
Defined.

Lemma count_from_same_view (x : TableView) (vs : list Z) env :
  count_from x x vs env 0
  = slots_set (tv_offset x) (tv_min x) vs env.
Proof.
  unfold count_from, slots_set. change (drop (Z.to_nat 0) vs) with vs.
  f_equal. f_equal. apply List.filter_ext. intros v.
  unfold both_contain. cbn [element initialLubMin TableView_SetView eval].
  replace (tv_offset x + (v - tv_min x)) with (tv_offset x + v - tv_min x)
    by lia.
  apply andb_diag.
Qed.

(** X18.  For ranges holding [m] values, fewer than [INT_MAX], and a window
    [0 <= cl < cr <= m], [cardConst] returns a diagram that accepts
    exactly the assignments under which the number of values [v] of the
    ranges whose slot [xoff + v - xmin] is set lies in [[cl, cr]]. *)
Theorem cardConst_counts_set_slots
    (unnamed xoff xmin cl cr : Z) (ranges : list (Z * Z)) :
  Z.of_nat (length (to_values ranges)) < INT_MAX ->
  0 <= cl < cr ->
  cr <= Z.of_nat (length (to_values ranges)) ->
  exists b,
    cardConst unnamed xoff xmin cl cr ranges = Done b
    /\ forall env,
         eval env b
         = (cl <=? slots_set xoff xmin (to_values ranges) env)
           && (slots_set xoff xmin (to_values ranges) env <=? cr).
Proof.
  intros Hlen Hwin Hcr. unfold INT_MAX in Hlen.
  set (x := mkTableView xoff 0 xmin 0 []).
  set (inter := ValCache.init (to_values ranges)).
  assert (wf_cache inter) as Hwf
    by (apply init_wf; unfold INT_MAX; lia).
  assert (ValCache.n inter = Z.of_nat (length (to_values ranges))) as Hn
    by (unfold inter; rewrite init_eq; reflexivity).
  assert (ValCache.size inter = Z.of_nat (length (to_values ranges)))
    as Hsize.
  { unfold inter. rewrite init_eq. unfold ValCache.size.
    cbn [ValCache.s]. apply to_unsigned_id. lia. }
  pose proof (cardConst_rel unnamed xoff xmin cl cr ranges x eq_refl eq_refl
                ltac:(lia) ltac:(lia)) as Hrel.
  fold inter in Hrel. rewrite Hsize in Hrel.
  rewrite to_int_to_unsigned in Hrel by lia.
  destruct (extcardlqgq_run x x inter Hwf cl cr (cr + 1)
              (Z.of_nat (length (to_values ranges)) - 1) (ValCache.c inter))
    as (b' & Hrun & Hsem); try lia.
  rewrite set_c_same in Hrun by reflexivity.
  unfold run in Hrel. rewrite Hrun in Hrel.
  destruct (cardConst unnamed xoff xmin cl cr ranges) as [b |];
    cbn in Hrel; [| contradiction].
  exists b. split; [reflexivity |].
  intros env. rewrite (Hrel env), Hsem.
  replace (ValCache.r inter) with (to_values ranges)
    by (unfold inter; rewrite init_eq; reflexivity).
  rewrite (count_from_same_view x). reflexivity.
Qed.

Lemma cardConst_counts_set_slots_witness :
  exists b,
    cardConst 0 10 5 1 2 [(5, 6); (8, 9)] = Done b
    /\ forall env,
         eval env b
         = (1 <=? slots_set 10 5 (to_values [(5, 6); (8, 9)]) env)
           && (slots_set 10 5 (to_values [(5, 6); (8, 9)]) env <=? 2).
Proof.
  apply (cardConst_counts_set_slots 0 10 5 1 2 [(5, 6); (8, 9)]).
  - vm_compute. reflexivity.
  - lia.
  - vm_compute. discriminate.
Defined.

(** X19.  On ranges that hold no value [cardConst] reads the cache out of
    bounds: it takes [inter.min()] right after [inter.last()] without
    testing the cursor. *)
Theorem cardConst_no_values
    (unnamed xoff xmin cl cr : Z) (ranges : list (Z * Z)) :
  to_values ranges = [] ->
  cardConst unnamed xoff xmin cl cr ranges = Fault OutOfBounds.
Proof.
  intros Hempty. unfold cardConst, run, const_build, const_prefix.
  rewrite Hempty. unfold bind at 1 2.
  unfold lift at 1.
  destruct (layer_set (alloc (cr + 1)) (cr + 1 - cl - 1) bdd_true)
    as [l0 | f] eqn:Hset.
  - reflexivity.
  - unfold layer_set in Hset.
    destruct ((0 <=? cr + 1 - cl - 1)
              && (cr + 1 - cl - 1 <? Z.of_nat (length (alloc (cr + 1)))));
      [discriminate |].
    inversion Hset. reflexivity.
Qed.

Lemma cardConst_no_values_witness :
  cardConst 0 10 5 1 2 [(3, 2)] = Fault OutOfBounds.
Proof.
  apply (cardConst_no_values 0 10 5 1 2 [(3, 2)]). reflexivity.
Defined.

(** ** The builders on an empty cache *)

Lemma min_on_empty (inter : ValCache.t) :
  ValCache.n inter = 0 ->
  ValCache.min (ValCache.last inter) = Fault OutOfBounds.
Proof.
  intros Hn. unfold ValCache.min, ValCache.val, ValCache.last.
  rewrite c_set_c, Hn. reflexivity.
Qed.

(** X20.  On a cache without values the two builders read the cache out
    of bounds, whatever the window is: both take [inter.min()] after
    [inter.last()] without testing the cursor ([extcardeq] for every
    count [c >= 1]).  They rely on [extcardcheck] never calling them on
    an empty intersection. *)
Theorem builders_on_empty_cache
    {View0 View1 : Type} `{SetView View0} `{SetView View1}
    (x : View0) (y : View1) (inter : ValCache.t) (cl cr c n r : Z) :
  ValCache.n inter = 0 ->
  extcardlqgq x y cl cr n r inter = Fault OutOfBounds
  /\ (1 <= c -> extcardeq x y c n r inter = Fault OutOfBounds).
Proof.
  intros Hn. pose proof (min_on_empty inter Hn) as Hmin. split.
  - unfold extcardlqgq, lqgq_prefix. unfold bind at 1 2. unfold lift at 1.
    destruct (layer_set (alloc n) (n - cl - 1) bdd_true) as [l0 | f] eqn:Hset.
    + unfold bind at 1. unfold move at 1. unfold bind at 1, read at 1.
      rewrite Hmin. reflexivity.
    + rewrite (layer_set_fault _ _ _ _ Hset). reflexivity.
  - intros Hc. unfold extcardeq. unfold bind at 1. unfold lift at 1.
    destruct (layer_set (alloc n) 0 bdd_true) as [l0 | f] eqn:Hset.
    + unfold bind at 1. unfold move at 1.
      rewrite zrange_cons by lia. cbn [eq_lowest].
      unfold bind at 1 2, read at 1. rewrite Hmin. reflexivity.
    + rewrite (layer_set_fault _ _ _ _ Hset). reflexivity.
Qed.

Lemma builders_on_empty_cache_witness :
  extcardlqgq (block_view 0 2) (mkTableView 2 2 5 6 [5; 6]) 1 2 3 (-1)
    (ValCache.init [])
  = Fault OutOfBounds
  /\ (1 <= 1 ->
      extcardeq (block_view 0 2) (mkTableView 2 2 5 6 [5; 6]) 1 3 (-1)
        (ValCache.init [])
      = Fault OutOfBounds).
Proof.
  apply (builders_on_empty_cache
           (block_view 0 2) (mkTableView 2 2 5 6 [5; 6])
           (ValCache.init []) 1 2 1 3 (-1)).
  reflexivity.
Defined.

(** ** Iterating several times *)

(** X21.  The cache can be iterated any number of times: after [init] and
    whatever cursor operations, the forward traversal from [reset()]
    again yields all values in order and the backward traversal from
    [last()] yields them reversed. *)
Theorem ValCache_replays_after_operations
    (vs : list Z) (ops : list cursor_op) :
  Z.of_nat (length vs) <= INT_MAX ->
  traverse_forward (after_ops vs ops) = Done vs
  /\ traverse_backward (after_ops vs ops) = Done (rev vs).
Proof.
  intros Hlen.
  destruct (apply_ops_contents ops (ValCache.init vs)) as (Hr & Hn & Hs).
  fold (after_ops vs ops) in Hr, Hn, Hs.
  rewrite init_eq in Hr, Hn, Hs. cbn in Hr, Hn, Hs.
  unfold traverse_forward, traverse_backward, ValCache.reset, ValCache.last,
    ValCache.set_c.
  rewrite Hr, Hn, Hs, Nat2Z.id. split.
  - apply (forward_spec vs _ _ 0%nat); lia.
  - rewrite backward_spec by lia. rewrite firstn_all. reflexivity.
Qed.

Lemma ValCache_replays_after_operations_witness :
  traverse_forward
    (after_ops [2; 3; 5; 8] [OpLast; OpRetreat; OpFinish; OpSeek 7])
  = Done [2; 3; 5; 8]
  /\ traverse_backward
       (after_ops [2; 3; 5; 8] [OpLast; OpRetreat; OpFinish; OpSeek 7])
     = Done (rev [2; 3; 5; 8]).
Proof.
  apply (ValCache_replays_after_operations
           [2; 3; 5; 8] [OpLast; OpRetreat; OpFinish; OpSeek 7]).
  vm_compute. discriminate.
Defined.
